(** * gval: a composable expression language (shallow embedding of gval.go)

    The development follows the layout of gval.go: host values and the
    Go primitives the closures use, the closures of the built-in
    languages ([base], [arithmetic], [bitmask], [text],
    [propositionalLogic], [ljson], [full]), the [Language] value and its
    union, the precedence-climbing parser, and [Evaluate]. *)

From Stdlib Require Import ZArith QArith Qround Bool Ascii String SpecFloat Lia.
From stdpp Require Import base option list strings gmap.

Set Warnings "-register-all".
Local Open Scope Z_scope.

(** ** float64

    Go's float64 is IEEE-754 binary64; it is modelled by the Standard
    Library's [spec_float] at precision 53 and maximal exponent 1024. *)
Module F64.

Definition prec : Z := 53.
Definition emax : Z := 1024.

Definition float64 : Type := spec_float.

Definition valid (f : float64) : bool := valid_binary prec emax f.

Definition add : float64 -> float64 -> float64 := SFadd prec emax.
Definition sub : float64 -> float64 -> float64 := SFsub prec emax.
Definition mul : float64 -> float64 -> float64 := SFmul prec emax.
Definition div : float64 -> float64 -> float64 := SFdiv prec emax.
Definition neg : float64 -> float64 := SFopp.
Definition eqb : float64 -> float64 -> bool := SFeqb.
Definition ltb : float64 -> float64 -> bool := SFltb.
Definition leb : float64 -> float64 -> bool := SFleb.

(** [float64(i)] for an integer [i]: round to nearest, ties to even. *)
Definition of_Z (i : Z) : float64 := binary_normalize prec emax i 0 false.

(** The integer obtained by discarding the fraction of a finite float
    (truncation toward zero); [None] for NaN and the infinities. The
    magnitude is the mantissa shifted by the exponent. *)
Definition trunc (f : float64) : option Z :=
  match f with
  | S754_zero _ => Some 0
  | S754_finite s m e =>
      let mag := if 0 <=? e then Z.shiftl (Zpos m) e
                 else Z.shiftr (Zpos m) (- e) in
      Some (if s then - mag else mag)
  | S754_infinity _ | S754_nan => None
  end.

(** The exact rational value of a finite float. *)
Definition to_Q (f : float64) : option Q :=
  match f with
  | S754_zero _ => Some (0 # 1)%Q
  | S754_finite s m e =>
      let q := if 0 <=? e then (Zpos m * 2 ^ e # 1)%Q
               else (Zpos m # Z.to_pos (2 ^ (- e)))%Q in
      Some (if s then Qopp q else q)
  | S754_infinity _ | S754_nan => None
  end.

(** Rounding a rational toward zero. *)
Definition Qtrunc (q : Q) : Z :=
  if Qle_bool 0 q then Qfloor q else Qceiling q.

End F64.

Export F64.

(** ** Host values

    A Go [interface{}] value, as the closures of gval.go inspect it. *)

(** A [time.Time]: an instant and the location it is shown in. *)
Record Time : Type := mkTime { unixNano : Z; location : string }.

Definition Time_eqb (t u : Time) : bool :=
  (unixNano t =? unixNano u) && String.eqb (location t) (location u).

Inductive Value : Type :=
| VNil                                          (* the nil interface *)
| VBool (b : bool)
| VNum (f : float64)
| VStr (s : string)
| VSeqNil                                       (* a nil []interface{} *)
| VSeq (l : list Value)                         (* a non-nil []interface{} *)
| VMap (m : list (string * Value))              (* map[string]interface{} *)
| VTime (t : Time)
| VOpaque (ty : string) (fields : list Value).  (* any other host type *)

(** The type assertion [a.([]interface{})]. *)
Definition asSlice (a : Value) : option (list Value) :=
  match a with
  | VSeqNil => Some []
  | VSeq l => Some l
  | _ => None
  end.

(** Interface comparison with the constants [false], [true] and [nil]. *)
Definition isFalse (a : Value) : bool :=
  match a with VBool false => true | _ => false end.
Definition isTrue (a : Value) : bool :=
  match a with VBool true => true | _ => false end.
Definition isNil (a : Value) : bool :=
  match a with VNil => true | _ => false end.

Fixpoint assoc (k : string) (m : list (string * Value)) : option Value :=
  match m with
  | [] => None
  | (k', v) :: m' => if String.eqb k k' then Some v else assoc k m'
  end.

(** [reflect.DeepEqual] on value trees: identical dynamic types and
    structurally equal contents. Floats compare with the IEEE equality,
    a nil slice differs from an empty one, maps compare key by key. A
    value is a finite tree: slices that share a backing array or that
    contain themselves, which [reflect.DeepEqual] answers by identity,
    are outside the model. *)
Fixpoint DeepEqual (a b : Value) {struct a} : bool :=
  match a, b with
  | VNil, VNil => true
  | VBool x, VBool y => Bool.eqb x y
  | VNum x, VNum y => F64.eqb x y
  | VStr x, VStr y => String.eqb x y
  | VSeqNil, VSeqNil => true
  | VSeq xs, VSeq ys =>
      (fix elems (xs ys : list Value) {struct xs} : bool :=
         match xs, ys with
         | [], [] => true
         | x :: xs', y :: ys' => DeepEqual x y && elems xs' ys'
         | _, _ => false
         end) xs ys
  | VMap m1, VMap m2 =>
      (length m1 =? length m2)%nat &&
      (fix entries (m : list (string * Value)) {struct m} : bool :=
         match m with
         | [] => true
         | (k, v) :: m' =>
             match assoc k m2 with
             | Some w => DeepEqual v w
             | None => false
             end && entries m'
         end) m1
  | VTime t, VTime u => Time_eqb t u
  | VOpaque ty xs, VOpaque ty' ys =>
      String.eqb ty ty' &&
      (fix elems (xs ys : list Value) {struct xs} : bool :=
         match xs, ys with
         | [], [] => true
         | x :: xs', y :: ys' => DeepEqual x y && elems xs' ys'
         | _, _ => false
         end) xs ys
  | _, _ => false
  end.

(** ** Errors

    The error kinds of the engine. A Go closure that fails returns a
    message; the node that invoked it decides the kind. *)
Inductive ErrorKind : Type :=
| LexError | SyntaxError | UnknownOperator | TypeError
| ResolutionError | IndexError | FunctionError | CanceledError.

Record Error : Type := mkError { err_kind : ErrorKind; err_msg : string }.

(** ** The == and != closures of [base] (gval.go, lines 227-250) *)

(** [for _, x := range aa { if reflect.DeepEqual(x, b) { return true } }
     return false] *)
Fixpoint rangeEqual (aa : list Value) (b : Value) : bool :=
  match aa with
  | [] => false
  | x :: rest => if DeepEqual x b then true else rangeEqual rest b
  end.

(** [for _, x := range aa { if !reflect.DeepEqual(x, b) { return true } }
     return false] *)
Fixpoint rangeNotEqual (aa : list Value) (b : Value) : bool :=
  match aa with
  | [] => false
  | x :: rest => if negb (DeepEqual x b) then true else rangeNotEqual rest b
  end.

Definition base_eq (a b : Value) : string + Value :=
  match asSlice a with
  | None => inr (VBool (DeepEqual a b))
  | Some aa => inr (VBool (rangeEqual aa b))
  end.

Definition base_ne (a b : Value) : string + Value :=
  match asSlice a with
  | None => inr (VBool (negb (DeepEqual a b)))
  | Some aa => inr (VBool (rangeNotEqual aa b))
  end.


(** ** The Go runtime and libraries the closures call

    [time], [math], [strconv] and [fmt] are not part of the repository;
    the conversions of a float outside the target range are left to the
    platform by the language. They are the fields of the host. [World]
    is whatever state host functions can change, [Context] is a
    [context.Context]. *)
Class Host : Type := {
  World : Type;
  Context : Type;
  context_Background : Context;
  (** [time.ParseInLocation(layout, s, time.Local)], [None] on error *)
  time_ParseInLocation : string -> string -> option Time;
  math_Pow : float64 -> float64 -> float64;
  math_Mod : float64 -> float64 -> float64;
  (** [strconv.ParseFloat(s, 64)], [None] on error *)
  strconv_ParseFloat : string -> option float64;
  (** [strconv.Unquote(s)], [None] on error *)
  strconv_Unquote : string -> option string;
  (** [fmt.Sprintf("%v", v)] *)
  fmt_v : Value -> string;
  (** [int64(f)] and [uint64(f)] where the value does not fit *)
  int64_unrepresentable : float64 -> Z;
  uint64_unrepresentable : float64 -> Z
}.

(** [fmt.Sprintf("%T", v)] *)
Definition fmt_T (v : Value) : string :=
  match v with
  | VNil => "<nil>"
  | VBool _ => "bool"
  | VNum _ => "float64"
  | VStr _ => "string"
  | VSeqNil | VSeq _ => "[]interface {}"
  | VMap _ => "map[string]interface {}"
  | VTime _ => "time.Time"
  | VOpaque ty _ => ty
  end.

(** ** Integer conversions of the bitmask closures *)

(** 64-bit two's complement wrap-around. *)
Definition wrap64 (z : Z) : Z := (z + 2 ^ 63) mod 2 ^ 64 - 2 ^ 63.

Definition inInt64 (z : Z) : bool := (- 2 ^ 63 <=? z) && (z <? 2 ^ 63).
Definition inUint64 (z : Z) : bool := (0 <=? z) && (z <? 2 ^ 64).

Section Conversions.
Context `{Host}.

(** [int64(f)]: the fraction is discarded. *)
Definition int64 (f : float64) : Z :=
  match F64.trunc f with
  | Some z => if inInt64 z then z else wrap64 (int64_unrepresentable f)
  | None => wrap64 (int64_unrepresentable f)
  end.

(** [uint64(f)] *)
Definition uint64 (f : float64) : Z :=
  match F64.trunc f with
  | Some z => if inUint64 z then z else uint64_unrepresentable f mod 2 ^ 64
  | None => uint64_unrepresentable f mod 2 ^ 64
  end.

(** ** Value coercions *)

(** Modelled from the spec: [convertToFloat] is not in gval.go. toNumber
    of the spec: a number as it is, a string as [strconv.ParseFloat] reads
    it, true as 1, false as 0; any other value is not a number. *)
Definition convertToFloat (v : Value) : option float64 :=
  match v with
  | VNum f => Some f
  | VStr s => strconv_ParseFloat s
  | VBool true => Some (F64.of_Z 1)
  | VBool false => Some (F64.of_Z 0)
  | _ => None
  end.

(** Modelled from the spec: [convertToBool] is not in gval.go. toBool of
    the spec and the documentation of [PropositionalLogic]: a boolean as
    it is, a number other than 0 as true, the strings "true" and "TRUE" as
    true, "false" and "FALSE" as false; any other value is not a boolean. *)
Definition convertToBool (v : Value) : option bool :=
  match v with
  | VBool b => Some b
  | VNum f => Some (negb (F64.eqb f (F64.of_Z 0)))
  | VStr s =>
      if String.eqb s "true" || String.eqb s "TRUE" then Some true
      else if String.eqb s "false" || String.eqb s "FALSE" then Some false
      else None
  | _ => None
  end.

(** ** The closures of gval.go *)

(** *** [full] (lines 89-133) *)

(** [InfixShortCircuit("??", ...)]: [return a, a != false && a != nil] *)
Definition full_coalesce_shortCircuit (a : Value) : Value * bool :=
  (a, negb (isFalse a) && negb (isNil a)).

(** [InfixOperator("??", ...)] *)
Definition full_coalesce (a b : Value) : string + Value :=
  if isFalse a || isNil a then inr b else inr a.

Definition time_ANSIC : string := "Mon Jan _2 15:04:05 2006".
Definition time_UnixDate : string := "Mon Jan _2 15:04:05 MST 2006".
Definition time_RubyDate : string := "Mon Jan 02 15:04:05 -0700 2006".
Definition time_Kitchen : string := "3:04PM".
Definition time_RFC3339 : string := "2006-01-02T15:04:05Z07:00".
Definition time_RFC3339Nano : string := "2006-01-02T15:04:05.999999999Z07:00".

Definition dateFormats : list string :=
  [ time_ANSIC;
    time_UnixDate;
    time_RubyDate;
    time_Kitchen;
    time_RFC3339;
    time_RFC3339Nano;
    "2006-01-02";
    "2006-01-02 15:04";
    "2006-01-02 15:04:05";
    "2006-01-02 15:04:05-07:00";
    "2006-01-02T15Z0700";
    "2006-01-02T15:04Z0700";
    "2006-01-02T15:04:05Z0700";
    "2006-01-02T15:04:05.999999999Z0700" ].

(** [for _, format := range [...]string{...} {
       ret, err := time.ParseInLocation(format, s, time.Local)
       if err == nil { return ret, nil } }] *)
Fixpoint rangeFormats (formats : list string) (s : string) : option Time :=
  match formats with
  | [] => None
  | format :: rest =>
      match time_ParseInLocation format s with
      | Some ret => Some ret
      | None => rangeFormats rest s
      end
  end.

(** [Function("date", ...)] *)
Definition full_date (arguments : list Value) : string + Value :=
  match arguments with
  | [a] =>
      match a with
      | VStr s =>
          match rangeFormats dateFormats s with
          | Some ret => inr (VTime ret)
          | None => inl ("date() could not parse " +:+ s)
          end
      | _ => inl "date() expects exactly one string argument"
      end
  | _ => inl "date() expects exactly one string argument"
  end.

(** *** [arithmetic] (lines 142-155) *)
Definition arithmetic_add (a b : float64) : string + Value := inr (VNum (F64.add a b)).
Definition arithmetic_sub (a b : float64) : string + Value := inr (VNum (F64.sub a b)).
Definition arithmetic_mul (a b : float64) : string + Value := inr (VNum (F64.mul a b)).
Definition arithmetic_div (a b : float64) : string + Value := inr (VNum (F64.div a b)).
Definition arithmetic_mod (a b : float64) : string + Value := inr (VNum (math_Mod a b)).
Definition arithmetic_pow (a b : float64) : string + Value := inr (VNum (math_Pow a b)).
Definition arithmetic_gt (a b : float64) : string + Value := inr (VBool (F64.ltb b a)).
Definition arithmetic_ge (a b : float64) : string + Value := inr (VBool (F64.leb b a)).
Definition arithmetic_lt (a b : float64) : string + Value := inr (VBool (F64.ltb a b)).
Definition arithmetic_le (a b : float64) : string + Value := inr (VBool (F64.leb a b)).
Definition arithmetic_eq (a b : float64) : string + Value := inr (VBool (F64.eqb a b)).
Definition arithmetic_ne (a b : float64) : string + Value := inr (VBool (negb (F64.eqb a b))).

(** *** [bitmask] (lines 161-173) *)
Definition bitmask_xor (a b : float64) : string + Value :=
  inr (VNum (F64.of_Z (Z.lxor (int64 a) (int64 b)))).
Definition bitmask_and (a b : float64) : string + Value :=
  inr (VNum (F64.of_Z (Z.land (int64 a) (int64 b)))).
Definition bitmask_or (a b : float64) : string + Value :=
  inr (VNum (F64.of_Z (Z.lor (int64 a) (int64 b)))).
Definition bitmask_shl (a b : float64) : string + Value :=
  inr (VNum (F64.of_Z (wrap64 (Z.shiftl (int64 a) (uint64 b))))).
Definition bitmask_shr (a b : float64) : string + Value :=
  inr (VNum (F64.of_Z (Z.shiftr (int64 a) (uint64 b)))).
Definition bitmask_not (c : Context) (v : Value) : string + Value :=
  match convertToFloat v with
  | None => inl ("unexpected " +:+ fmt_T v +:+ " expected number")
  | Some i => inr (VNum (F64.of_Z (Z.lnot (int64 i))))
  end.

(** *** [text] (lines 177-182) *)
Definition text_concat (a b : string) : string + Value := inr (VStr (a +:+ b)).
Definition text_lt (a b : string) : string + Value := inr (VBool (String.ltb a b)).
Definition text_le (a b : string) : string + Value := inr (VBool (String.leb a b)).
Definition text_gt (a b : string) : string + Value := inr (VBool (String.ltb b a)).
Definition text_ge (a b : string) : string + Value := inr (VBool (String.leb b a)).

(** *** [propositionalLogic] (lines 190-204) *)
Definition logic_not (c : Context) (v : Value) : string + Value :=
  match convertToBool v with
  | None => inl ("unexpected " +:+ fmt_T v +:+ " expected bool")
  | Some b => inr (VBool (negb b))
  end.
(** [return false, a == false] *)
Definition logic_and_shortCircuit (a : Value) : Value * bool := (VBool false, isFalse a).
Definition logic_and (a b : bool) : string + Value := inr (VBool (a && b)).
(** [return true, a == true] *)
Definition logic_or_shortCircuit (a : Value) : Value * bool := (VBool true, isTrue a).
Definition logic_or (a b : bool) : string + Value := inr (VBool (a || b)).
Definition logic_eq (a b : bool) : string + Value := inr (VBool (Bool.eqb a b)).
Definition logic_ne (a b : bool) : string + Value := inr (VBool (negb (Bool.eqb a b))).

(** *** [base] (lines 212-218) *)
Definition base_neg (c : Context) (v : Value) : string + Value :=
  match convertToFloat v with
  | None => inl ("unexpected " +:+ fmt_v v +:+ "(" +:+ fmt_T v +:+ ") expected number")
  | Some i => inr (VNum (F64.neg i))
  end.

End Conversions.

(** ** Tokens *)

(** Modelled from the spec: the token source is not in gval.go. A token
    has a kind, the runes of [text/scanner] or the character of a
    punctuation token, and its literal text. *)
Record Token : Type := mkToken { tok_kind : Z; tok_lit : string }.

Module scanner.
Definition EOF : Z := -1.
Definition Ident : Z := -2.
Definition Int : Z := -3.
Definition Float : Z := -4.
Definition Char : Z := -5.
Definition String : Z := -6.
Definition RawString : Z := -7.
End scanner.

Definition rune (c : ascii) : Z := Z.of_N (Ascii.N_of_ascii c).

Definition isDigit (c : ascii) : bool :=
  (rune "0" <=? rune c) && (rune c <=? rune "9").
Definition isLetter (c : ascii) : bool :=
  ((rune "a" <=? rune c) && (rune c <=? rune "z"))
  || ((rune "A" <=? rune c) && (rune c <=? rune "Z"))
  || (rune c =? rune "_").
Definition isSpace (c : ascii) : bool :=
  (rune c =? 32) || (rune c =? 9) || (rune c =? 10) || (rune c =? 13).

(** Modelled from the spec: the token source is not in gval.go. The longest
    prefix of [s] whose characters satisfy [p], and the rest. *)
Fixpoint span (p : ascii -> bool) (s : string) : string * string :=
  match s with
  | EmptyString => (EmptyString, EmptyString)
  | String c rest =>
      if p c then let (t, u) := span p rest in (String c t, u)
      else (EmptyString, s)
  end.

(** Modelled from the spec: the token source is not in gval.go. The body of
    a quoted literal up to the closing [quote]; a backslash
    protects the next character unless the literal is raw. *)
Fixpoint quoted (raw : bool) (quote : ascii) (s : string) : option (string * string) :=
  match s with
  | EmptyString => None
  | String c rest =>
      if (rune c =? rune quote) then Some (String c EmptyString, rest)
      else if negb raw && (rune c =? rune "\") then
        match rest with
        | EmptyString => None
        | String d rest' =>
            match quoted raw quote rest' with
            | Some (t, u) => Some (String c (String d t), u)
            | None => None
            end
        end
      else
        match quoted raw quote rest with
        | Some (t, u) => Some (String c t, u)
        | None => None
        end
  end.

(** Modelled from the spec: the token source is not in gval.go. A number:
    digits, an optional fraction, an optional exponent. *)
Definition scanNumber (s : string) : Error + (Token * string) :=
  let (int, r1) := span isDigit s in
  let (frac, r2) :=
    match r1 with
    | String "." r =>
        let (ds, r') := span isDigit r in (String "." ds, r')
    | _ => (EmptyString, r1)
    end in
  let exponent :=
    match r2 with
    | String e r =>
        if (rune e =? rune "e") || (rune e =? rune "E") then
          let (sign, r') :=
            match r with
            | String "+" r'' => ("+"%string, r'')
            | String "-" r'' => ("-"%string, r'')
            | _ => (EmptyString, r)
            end in
          let (ds, r'') := span isDigit r' in
          match ds with
          | EmptyString => Some (inl (mkError LexError "exponent has no digits"))
          | _ => Some (inr (String e (sign +:+ ds), r''))
          end
        else None
    | EmptyString => None
    end in
  match exponent with
  | Some (inl err) => inl err
  | Some (inr (ex, r3)) => inr (mkToken scanner.Float (int +:+ frac +:+ ex), r3)
  | None =>
      match frac with
      | EmptyString => inr (mkToken scanner.Int int, r2)
      | _ => inr (mkToken scanner.Float (int +:+ frac), r2)
      end
  end.

(** Modelled from the spec: the token source is not in gval.go.
    Identifiers, numbers, quoted literals; every other character is a
    punctuation token of its own; white space is dropped; the sequence
    ends with EOF. *)
Fixpoint scanTokens (fuel : nat) (s : string) : Error + list Token :=
  match fuel with
  | O => inl (mkError LexError "source too long")
  | S fuel' =>
      match s with
      | EmptyString => inr [mkToken scanner.EOF EmptyString]
      | String c rest =>
          let more (t : Token) (r : string) :=
            match scanTokens fuel' r with
            | inl err => inl err
            | inr ts => inr (t :: ts)
            end in
          let literal (kind : Z) (raw : bool) :=
            match quoted raw c rest with
            | Some (body, r) => more (mkToken kind (String c body)) r
            | None => inl (mkError LexError "literal not terminated")
            end in
          if isSpace c then scanTokens fuel' rest
          else if isLetter c then
            let (id, r) := span (fun d => isLetter d || isDigit d) s in
            more (mkToken scanner.Ident id) r
          else if isDigit c then
            match scanNumber s with
            | inl err => inl err
            | inr (t, r) => more t r
            end
          else if rune c =? 34 then literal scanner.String false
          else if rune c =? 39 then literal scanner.Char false
          else if rune c =? 96 then literal scanner.RawString true
          else more (mkToken (rune c) (String c EmptyString)) rest
      end
  end.

(** Modelled from the spec: the token source is not in gval.go. Every
    token takes at least one character, so the length of the source bounds
    the number of steps. *)
Definition tokenize (s : string) : Error + list Token :=
  scanTokens (S (String.length s)) s.

(** ** Evaluables *)
Section Engine.
Context `{Host}.

(** A computation that may fail and may change the world of the host. *)
Definition M (A : Type) : Type := World -> (Error + A) * World.

Definition ret {A : Type} (a : A) : M A := fun w => (inr a, w).
Definition fail {A : Type} (e : Error) : M A := fun w => (inl e, w).
Definition bind {A B : Type} (m : M A) (k : A -> M B) : M B :=
  fun w =>
    match m w with
    | (inl e, w') => (inl e, w')
    | (inr a, w') => k a w'
    end.

(** The outcome of a Go closure, its error message given a kind. *)
Definition raised {A : Type} (kind : ErrorKind) (r : string + A) : Error + A :=
  match r with
  | inl msg => inl (mkError kind msg)
  | inr a => inr a
  end.

Definition lift {A : Type} (r : Error + A) : M A := fun w => (r, w).

(** Modelled from the spec: the type [Evaluable] is not in gval.go:
    [func(c context.Context, parameter interface{}) (interface{}, error)],
    a node that yields a value or fails. *)
Definition Evaluable : Type := Context -> Value -> M Value.

(** [func(arguments ...interface{}) (interface{}, error)]; a host
    function may change the world. *)
Definition GoFunction : Type := list Value -> World -> (string + Value) * World.

Definition pureFunction (fn : list Value -> string + Value) : GoFunction :=
  fun arguments w => (fn arguments, w).

(** *** Nodes *)

(** Modelled from the spec: the evaluator nodes are not in gval.go. A
    constant returns the captured value. *)
Definition constantNode (v : Value) : Evaluable := fun _ _ => ret v.

(** Modelled from the spec: the evaluator nodes are not in gval.go. A
    prefix operator evaluates its operand and invokes [fn(ctx, v)]. *)
Definition prefixNode (fn : Context -> Value -> string + Value)
    (operand : Evaluable) : Evaluable :=
  fun c p => bind (operand c p) (fun v => lift (raised TypeError (fn c v))).

(** Modelled from the spec: the evaluator nodes are not in gval.go. An
    infix operator evaluates left; if a short-circuit predicate is
    registered for the symbol and it reports stop, it returns its result
    without evaluating right; else it evaluates right and invokes [fn(l,
    r)]. *)
Definition infixNode (fn : Value -> Value -> Error + Value)
    (shortCircuit : option (Value -> Value * bool))
    (left right : Evaluable) : Evaluable :=
  fun c p =>
    bind (left c p) (fun a =>
      let strict := bind (right c p) (fun b => lift (fn a b)) in
      match shortCircuit with
      | Some stops =>
          let (v, stop) := stops a in
          if stop then ret v else strict
      | None => strict
      end).

(** Modelled from the spec: the evaluator nodes are not in gval.go. A
    ternary evaluates the condition, coerces it to bool and returns the
    corresponding branch; the other branch is not evaluated. *)
Definition ternaryNode (condition thenBranch elseBranch : Evaluable) : Evaluable :=
  fun c p =>
    bind (condition c p) (fun v =>
      match convertToBool v with
      | Some true => thenBranch c p
      | Some false => elseBranch c p
      | None => fail (mkError TypeError ("unexpected " +:+ fmt_T v +:+ " expected bool"))
      end).

(** Modelled from the spec: the evaluator nodes are not in gval.go.
    Arguments are evaluated left to right. *)
Fixpoint evalArguments (args : list Evaluable) (c : Context) (p : Value) : M (list Value) :=
  match args with
  | [] => ret []
  | a :: rest =>
      bind (a c p) (fun v =>
        bind (evalArguments rest c p) (fun vs => ret (v :: vs)))
  end.

(** Modelled from the spec: the evaluator nodes are not in gval.go. A
    failed function invocation is a FunctionError. *)
Definition invoke (fn : GoFunction) (arguments : list Value) : M Value :=
  fun w => let (r, w') := fn arguments w in (raised FunctionError r, w').

(** Modelled from the spec: the evaluator nodes are not in gval.go. A call
    evaluates the arguments, then invokes the function. *)
Definition callNode (fn : GoFunction) (args : list Evaluable) : Evaluable :=
  fun c p => bind (evalArguments args c p) (invoke fn).

(** *** The parser handle *)

Definition P (A : Type) : Type := list Token -> Error + (A * list Token).

Definition pret {A : Type} (a : A) : P A := fun ts => inr (a, ts).
Definition pfail {A : Type} (e : Error) : P A := fun _ => inl e.
Definition pbind {A B : Type} (m : P A) (k : A -> P B) : P B :=
  fun ts =>
    match m ts with
    | inl e => inl e
    | inr (a, ts') => k a ts'
    end.

Definition expected (what : string) : Error :=
  mkError SyntaxError ("unexpected token, expected " +:+ what).

(** Modelled from the spec: the parser is not in gval.go. Consume a
    punctuation token with the given character. *)
Definition expect (c : ascii) : P unit :=
  fun ts =>
    match ts with
    | t :: rest =>
        if tok_kind t =? rune c then inr (tt, rest)
        else inl (expected (String c EmptyString))
    | [] => inl (expected (String c EmptyString))
    end.

Definition peekIs (c : ascii) : P bool :=
  fun ts =>
    match ts with
    | t :: _ => inr (tok_kind t =? rune c, ts)
    | [] => inr (false, ts)
    end.

(** Modelled from the spec: the parser is not in gval.go. What a handler
    may call back: the sub-expression parser. *)
Record Parser : Type := mkParser { parseSubExpression : Z -> P Evaluable }.

(** Modelled from the spec: the parser is not in gval.go. A prefix handler
    builds an evaluable from the token that selected it and the tokens
    that follow. *)
Definition PrefixHandler : Type := Parser -> Token -> P Evaluable.

(** Modelled from the spec: the parser is not in gval.go. A postfix
    handler sees the precedence of its operator and the evaluable parsed
    so far. *)
Definition PostfixHandler : Type := Parser -> Z -> Evaluable -> P Evaluable.

(** *** Language *)

(** Modelled from the spec: the type [Language] is not in gval.go. Prefix
    keys are the runes of token kinds and punctuation, or the literal
    text of an operator or identifier. Operator overloads are per
    operand family: an infix symbol has at most one evaluator on
    numbers, one on booleans, one on text, one on arbitrary values and
    one on the evaluables themselves. Precedence and short-circuit
    predicate attach to the symbol. *)
Record Language : Type := mkLanguage {
  prefixes : gmap (Z + string) PrefixHandler;
  numberOperators : gmap string (float64 -> float64 -> string + Value);
  boolOperators : gmap string (bool -> bool -> string + Value);
  textOperators : gmap string (string -> string -> string + Value);
  arbitraryOperators : gmap string (Value -> Value -> string + Value);
  evalOperators : gmap string (Evaluable -> Evaluable -> Error + Evaluable);
  shortCircuits : gmap string (Value -> Value * bool);
  precedences : gmap string Z;
  postfixes : gmap string PostfixHandler;
  operatorSymbols : gset string
}.

(** Modelled from the spec: [NewLanguage] is not in gval.go. The language
    with no entry. *)
Definition emptyLanguage : Language :=
  {| prefixes := ∅; numberOperators := ∅; boolOperators := ∅;
     textOperators := ∅; arbitraryOperators := ∅; evalOperators := ∅;
     shortCircuits := ∅; precedences := ∅; postfixes := ∅;
     operatorSymbols := ∅ |}.

(** Modelled from the spec: [NewLanguage] is not in gval.go. In [A ⊕ B] an
    entry of [B] overrides the entry of [A] at the same key; the symbol
    sets are united. *)
Definition union (A B : Language) : Language :=
  {| prefixes := prefixes B ∪ prefixes A;
     numberOperators := numberOperators B ∪ numberOperators A;
     boolOperators := boolOperators B ∪ boolOperators A;
     textOperators := textOperators B ∪ textOperators A;
     arbitraryOperators := arbitraryOperators B ∪ arbitraryOperators A;
     evalOperators := evalOperators B ∪ evalOperators A;
     shortCircuits := shortCircuits B ∪ shortCircuits A;
     precedences := precedences B ∪ precedences A;
     postfixes := postfixes B ∪ postfixes A;
     operatorSymbols := operatorSymbols A ∪ operatorSymbols B |}.

(** The entry found in a union: the later one if there is one. *)
Definition later {V : Type} (b a : option V) : option V :=
  match b with
  | Some v => Some v
  | None => a
  end.

(** Modelled from the spec: [NewLanguage] is not in gval.go. It folds the
    parts left to right; later overrides earlier per key. *)
Definition NewLanguage (bases : list Language) : Language :=
  foldl union emptyLanguage bases.

(** Modelled from the spec: the parser is not in gval.go. The precedence
    attached to a symbol; an unassigned precedence is the zero value. *)
Definition precedenceOf (l : Language) (symbol : string) : Z :=
  default 0 (precedences l !! symbol).

End Engine.

(** ** Builders of single-entry languages *)
Section Builders.
Context `{Host}.

(** Modelled from the spec: the builders are not in gval.go. A language
    with one prefix entry. *)
Definition withPrefix (key : Z + string) (ext : PrefixHandler)
    (symbols : gset string) : Language :=
  {| prefixes := {[ key := ext ]}; numberOperators := ∅; boolOperators := ∅;
     textOperators := ∅; arbitraryOperators := ∅; evalOperators := ∅;
     shortCircuits := ∅; precedences := ∅; postfixes := ∅;
     operatorSymbols := symbols |}.

(** Modelled from the spec: [PrefixExtension] is not in gval.go. It
    registers a prefix handler for a token kind or punctuation character. *)
Definition PrefixExtension (key : Z) (ext : PrefixHandler) : Language :=
  withPrefix (inl key) ext ∅.

(** Modelled from the spec: [PrefixMetaPrefix] is not in gval.go. Like
    [PrefixExtension]; the handler parses the selector and call suffixes
    that may follow. *)
Definition PrefixMetaPrefix (key : Z) (ext : PrefixHandler) : Language :=
  withPrefix (inl key) ext ∅.

(** Modelled from the spec: [PrefixOperator] is not in gval.go. The
    operand of a prefix operator is parsed above every infix operator. *)
Definition operandPrecedence : Z := 1000.

(** Modelled from the spec: [PrefixOperator] is not in gval.go. It
    registers [fn], applied to the context and the value of the operand. *)
Definition PrefixOperator (name : string)
    (fn : Context -> Value -> string + Value) : Language :=
  withPrefix (inr name)
    (fun p _ => pbind (parseSubExpression p operandPrecedence)
                  (fun operand => pret (prefixNode fn operand)))
    {[ name ]}.

(** Modelled from the spec: [Constant] is not in gval.go. It registers an
    identifier as a constant. *)
Definition Constant (name : string) (value : Value) : Language :=
  withPrefix (inr name) (fun _ _ => pret (constantNode value)) ∅.

(** Modelled from the spec: [Function] is not in gval.go. The arguments of
    a call after the first: [, e] repeated, then [)]. *)
Fixpoint parseMoreArguments (fuel : nat) (p : Parser) : P (list Evaluable) :=
  match fuel with
  | O => pfail (expected ")")
  | S fuel' =>
      pbind (peekIs ",") (fun comma =>
        if comma then
          pbind (expect ",") (fun _ =>
            pbind (parseSubExpression p 0) (fun e =>
              pbind (parseMoreArguments fuel' p) (fun es => pret (e :: es))))
        else pbind (expect ")") (fun _ => pret []))
  end.

(** Modelled from the spec: [Function] is not in gval.go. The argument
    list of a call, in parentheses. *)
Definition parseArguments (p : Parser) : P (list Evaluable) :=
  fun ts =>
    pbind (expect "(") (fun _ =>
      pbind (peekIs ")") (fun close =>
        if close then pbind (expect ")") (fun _ => pret [])
        else
          pbind (parseSubExpression p 0) (fun e =>
            pbind (parseMoreArguments (length ts) p) (fun es => pret (e :: es)))))
      ts.

(** Modelled from the spec: [Function] is not in gval.go. It registers an
    identifier as callable. *)
Definition Function (name : string) (fn : GoFunction) : Language :=
  withPrefix (inr name)
    (fun p _ => pbind (parseArguments p) (fun args => pret (callNode fn args)))
    ∅.

(** Modelled from the spec: [InfixOperator] is not in gval.go. It
    registers [fn] as the evaluator of the symbol on arbitrary values. *)
Definition InfixOperator (name : string)
    (fn : Value -> Value -> string + Value) : Language :=
  {| prefixes := ∅; numberOperators := ∅; boolOperators := ∅;
     textOperators := ∅; arbitraryOperators := {[ name := fn ]};
     evalOperators := ∅; shortCircuits := ∅; precedences := ∅;
     postfixes := ∅; operatorSymbols := {[ name ]} |}.

(** Modelled from the spec: [InfixShortCircuit] is not in gval.go. It
    registers the predicate [(left) -> (result, stop?)] of the symbol. *)
Definition InfixShortCircuit (name : string)
    (f : Value -> Value * bool) : Language :=
  {| prefixes := ∅; numberOperators := ∅; boolOperators := ∅;
     textOperators := ∅; arbitraryOperators := ∅; evalOperators := ∅;
     shortCircuits := {[ name := f ]}; precedences := ∅; postfixes := ∅;
     operatorSymbols := {[ name ]} |}.

(** Modelled from the spec: [InfixNumberOperator] is not in gval.go. It
    registers [fn] as the evaluator of the symbol on numbers. *)
Definition InfixNumberOperator (name : string)
    (fn : float64 -> float64 -> string + Value) : Language :=
  {| prefixes := ∅; numberOperators := {[ name := fn ]}; boolOperators := ∅;
     textOperators := ∅; arbitraryOperators := ∅; evalOperators := ∅;
     shortCircuits := ∅; precedences := ∅; postfixes := ∅;
     operatorSymbols := {[ name ]} |}.

(** Modelled from the spec: [InfixTextOperator] is not in gval.go. It
    registers [fn] as the evaluator of the symbol on text. *)
Definition InfixTextOperator (name : string)
    (fn : string -> string -> string + Value) : Language :=
  {| prefixes := ∅; numberOperators := ∅; boolOperators := ∅;
     textOperators := {[ name := fn ]}; arbitraryOperators := ∅;
     evalOperators := ∅; shortCircuits := ∅; precedences := ∅;
     postfixes := ∅; operatorSymbols := {[ name ]} |}.

(** Modelled from the spec: [InfixBoolOperator] is not in gval.go. It
    registers [fn] as the evaluator of the symbol on booleans. *)
Definition InfixBoolOperator (name : string)
    (fn : bool -> bool -> string + Value) : Language :=
  {| prefixes := ∅; numberOperators := ∅; boolOperators := {[ name := fn ]};
     textOperators := ∅; arbitraryOperators := ∅; evalOperators := ∅;
     shortCircuits := ∅; precedences := ∅; postfixes := ∅;
     operatorSymbols := {[ name ]} |}.

(** Modelled from the spec: [InfixEvalOperator] is not in gval.go. It
    registers [fn], which receives the two evaluables. *)
Definition InfixEvalOperator (name : string)
    (fn : Evaluable -> Evaluable -> Error + Evaluable) : Language :=
  {| prefixes := ∅; numberOperators := ∅; boolOperators := ∅;
     textOperators := ∅; arbitraryOperators := ∅;
     evalOperators := {[ name := fn ]}; shortCircuits := ∅;
     precedences := ∅; postfixes := ∅; operatorSymbols := {[ name ]} |}.

(** Modelled from the spec: [PostfixOperator] is not in gval.go. It
    registers a postfix handler for the symbol. *)
Definition PostfixOperator (name : string) (ext : PostfixHandler) : Language :=
  {| prefixes := ∅; numberOperators := ∅; boolOperators := ∅;
     textOperators := ∅; arbitraryOperators := ∅; evalOperators := ∅;
     shortCircuits := ∅; precedences := ∅; postfixes := {[ name := ext ]};
     operatorSymbols := {[ name ]} |}.

(** Modelled from the spec: [Precedence] is not in gval.go. It sets the
    precedence of the symbol. *)
Definition Precedence (name : string) (operatorPrecedence : Z) : Language :=
  {| prefixes := ∅; numberOperators := ∅; boolOperators := ∅;
     textOperators := ∅; arbitraryOperators := ∅; evalOperators := ∅;
     shortCircuits := ∅; precedences := {[ name := operatorPrecedence ]};
     postfixes := ∅; operatorSymbols := ∅ |}.

(** *** Dispatch of an infix symbol on the shape of its operands *)

(** Modelled from the spec: the evaluator of an infix symbol is not in
    gval.go. The type error of an operation no evaluator accepts. *)
Definition invalidOperation (name : string) (a b : Value) : Error :=
  mkError TypeError
    ("invalid operation (" +:+ fmt_T a +:+ ") " +:+ name +:+ " (" +:+ fmt_T b +:+ ")").

(** Modelled from the spec: the evaluator of an infix symbol is not in
    gval.go. Operands that have not the shape of one family: the number
    and bool evaluators are tried through the coercions, then the
    evaluator on arbitrary values, then the text evaluator on the printed
    operands; with no evaluator left the operation is a type error. *)
Definition coerced (l : Language) (name : string) (a b : Value) : Error + Value :=
  match numberOperators l !! name, convertToFloat a, convertToFloat b with
  | Some fn, Some x, Some y => raised TypeError (fn x y)
  | _, _, _ =>
      match boolOperators l !! name, convertToBool a, convertToBool b with
      | Some fn, Some x, Some y => raised TypeError (fn x y)
      | _, _, _ =>
          match arbitraryOperators l !! name with
          | Some fn => raised TypeError (fn a b)
          | None =>
              match textOperators l !! name with
              | Some fn => raised TypeError (fn (fmt_v a) (fmt_v b))
              | None => inl (invalidOperation name a b)
              end
          end
      end
  end.

(** Modelled from the spec: the evaluator of an infix symbol is not in
    gval.go. It dispatches on the shape of the operands: two numbers, two
    booleans or two strings go to the evaluator of their family when there
    is one. *)
Definition dispatch (l : Language) (name : string) (a b : Value) : Error + Value :=
  match a, b with
  | VNum x, VNum y =>
      match numberOperators l !! name with
      | Some fn => raised TypeError (fn x y)
      | None => coerced l name a b
      end
  | VBool x, VBool y =>
      match boolOperators l !! name with
      | Some fn => raised TypeError (fn x y)
      | None => coerced l name a b
      end
  | VStr x, VStr y =>
      match textOperators l !! name with
      | Some fn => raised TypeError (fn x y)
      | None => coerced l name a b
      end
  | _, _ => coerced l name a b
  end.

(** Modelled from the spec: the evaluator of an infix symbol is not in
    gval.go. A symbol is an infix operator on values when some family has
    an evaluator for it. *)
Definition hasInfix (l : Language) (name : string) : bool :=
  bool_decide (is_Some (numberOperators l !! name))
  || bool_decide (is_Some (boolOperators l !! name))
  || bool_decide (is_Some (textOperators l !! name))
  || bool_decide (is_Some (arbitraryOperators l !! name)).

(** ** Handlers of the built-in languages *)

(** Modelled from the spec: [parseNumber] is not in gval.go. A number
    literal is the constant [strconv.ParseFloat] reads. *)
Definition parseNumber : PrefixHandler :=
  fun _ t =>
    match strconv_ParseFloat (tok_lit t) with
    | Some f => pret (constantNode (VNum f))
    | None => pfail (mkError LexError ("malformed number " +:+ tok_lit t))
    end.

(** Modelled from the spec: [parseString] is not in gval.go. A string,
    char or raw string literal is the constant [strconv.Unquote] reads. *)
Definition parseString : PrefixHandler :=
  fun _ t =>
    match strconv_Unquote (tok_lit t) with
    | Some s => pret (constantNode (VStr s))
    | None => pfail (mkError LexError ("could not parse string " +:+ tok_lit t))
    end.

(** Modelled from the spec: [parseParentheses] is not in gval.go. It
    parses a sub-expression and requires [)]. *)
Definition parseParentheses : PrefixHandler :=
  fun p _ =>
    pbind (parseSubExpression p 0) (fun e =>
      pbind (expect ")") (fun _ => pret e)).

(** Modelled from the spec: [parseIf] is not in gval.go. On [?] it parses
    a then-branch, requires [:], and parses an else-branch at the
    precedence of the ternary itself. *)
Definition parseIf : PostfixHandler :=
  fun p prec condition =>
    pbind (parseSubExpression p 0) (fun thenBranch =>
      pbind (expect ":") (fun _ =>
        pbind (parseSubExpression p prec) (fun elseBranch =>
          pret (ternaryNode condition thenBranch elseBranch)))).

(** Modelled from the spec: [inArray] is not in gval.go. [a in b] is true
    iff [b] is an ordered sequence and at least one element is
    structurally equal to [a]. *)
Definition inArray (a b : Value) : string + Value :=
  match asSlice b with
  | Some bb => inr (VBool (existsb (fun x => DeepEqual a x) bb))
  | None => inr (VBool false)
  end.

(** ** The parser *)

(** Modelled from the spec: the parser is not in gval.go. The longest run
    of the next punctuation tokens that spells a known symbol. *)
Fixpoint longestSymbol (known : string -> bool) (acc : string) (ts : list Token)
    (best : option (string * list Token)) : option (string * list Token) :=
  match ts with
  | t :: rest =>
      if 0 <=? tok_kind t then
        let symbol := acc +:+ tok_lit t in
        longestSymbol known symbol rest
          (if known symbol then Some (symbol, rest) else best)
      else best
  | [] => best
  end.

(** Modelled from the spec: the parser is not in gval.go. The operator
    spelled by the next tokens: the longest run of punctuation that is a
    symbol of the language, or an identifier that is one. *)
Definition scanOperator (l : Language) (ts : list Token) : option (string * list Token) :=
  let known (symbol : string) := bool_decide (symbol ∈ operatorSymbols l) in
  match ts with
  | t :: rest =>
      if tok_kind t =? scanner.Ident then
        if known (tok_lit t) then Some (tok_lit t, rest) else None
      else longestSymbol known EmptyString ts None
  | [] => None
  end.

(** Modelled from the spec: the parser is not in gval.go. [**] is the one
    right-associative operator. *)
Definition rightAssociative (symbol : string) : bool := String.eqb symbol "**".

(** Modelled from the spec: the parser is not in gval.go. The node of an
    infix symbol: the evaluable operator of the symbol if there is one,
    else the node that dispatches on the operands. *)
Definition buildInfix (l : Language) (symbol : string)
    (left right : Evaluable) : option (Error + Evaluable) :=
  match evalOperators l !! symbol with
  | Some fn => Some (fn left right)
  | None =>
      if hasInfix l symbol then
        Some (inr (infixNode (dispatch l symbol) (shortCircuits l !! symbol) left right))
      else None
  end.

(** Modelled from the spec: the parser is not in gval.go. Whether the
    symbol has an infix evaluator. *)
Definition isInfix (l : Language) (symbol : string) : bool :=
  bool_decide (is_Some (evalOperators l !! symbol)) || hasInfix l symbol.

(** Modelled from the spec: the parser is not in gval.go. The prefix
    handler for the next token: by kind for a literal, by text for an
    identifier (else the handler of identifiers), by the longest operator
    or the single character for punctuation; with the tokens left after
    the token or operator that selected it. *)
Definition selectPrefix (l : Language) (ts : list Token)
    : option (PrefixHandler * Token * list Token) :=
  match ts with
  | [] => None
  | t :: rest =>
      if tok_kind t =? scanner.Ident then
        match prefixes l !! inr (tok_lit t) with
        | Some ext => Some (ext, t, rest)
        | None =>
            match prefixes l !! inl scanner.Ident with
            | Some ext => Some (ext, t, rest)
            | None => None
            end
        end
      else if tok_kind t <? 0 then
        match prefixes l !! inl (tok_kind t) with
        | Some ext => Some (ext, t, rest)
        | None => None
        end
      else
        let single :=
          match prefixes l !! inl (tok_kind t) with
          | Some ext => Some (ext, t, rest)
          | None =>
              match prefixes l !! inr (tok_lit t) with
              | Some ext => Some (ext, t, rest)
              | None => None
              end
          end in
        match scanOperator l ts with
        | Some (symbol, rest') =>
            match prefixes l !! inr symbol with
            | Some ext => Some (ext, mkToken (tok_kind t) symbol, rest')
            | None => single
            end
        | None => single
        end
  end.

(** Modelled from the spec: the parser is not in gval.go. The loop after a
    prefix expression: while the next operator binds at least as tightly
    as [minPrec], consume it and extend [left]; the right operand of an
    infix operator is parsed one level above its precedence, at its
    precedence for [**]. *)
Fixpoint parseOperators (fuel : nat) (l : Language) (sub : Z -> P Evaluable)
    (minPrec : Z) (left : Evaluable) : P Evaluable :=
  fun ts =>
    match fuel with
    | O => inr (left, ts)
    | S fuel' =>
        match scanOperator l ts with
        | None => inr (left, ts)
        | Some (symbol, rest) =>
            let prec := precedenceOf l symbol in
            if prec <? minPrec then inr (left, ts)
            else
              match postfixes l !! symbol with
              | Some ext =>
                  pbind (ext (mkParser sub) prec left)
                    (parseOperators fuel' l sub minPrec) rest
              | None =>
                  if isInfix l symbol then
                    pbind (sub (if rightAssociative symbol then prec else prec + 1))
                      (fun right =>
                         match buildInfix l symbol left right with
                         | Some (inr node) => parseOperators fuel' l sub minPrec node
                         | Some (inl e) => pfail e
                         | None => pfail (mkError UnknownOperator symbol)
                         end) rest
                  else inr (left, ts)
              end
        end
    end.

(** Modelled from the spec: the parser is not in gval.go.
    [parseExpression(minPrec)]: a prefix expression, then the operators
    that follow. *)
Fixpoint parseExpression (fuel : nat) (l : Language) (minPrec : Z) : P Evaluable :=
  fun ts =>
    match fuel with
    | O => inl (mkError SyntaxError "expression nested too deeply")
    | S fuel' =>
        match selectPrefix l ts with
        | None => inl (expected "an expression")
        | Some (ext, t, rest) =>
            pbind (ext (mkParser (parseExpression fuel' l)) t)
              (parseOperators fuel' l (parseExpression fuel' l) minPrec) rest
        end
    end.

(** Modelled from the spec: [Language.NewEvaluable] is not in gval.go.
    Every prefix handler and every operator consumes a token, so the
    number of tokens bounds the nesting; the expression must end with the
    source. *)
Definition Language_NewEvaluable (l : Language) (expression : string) : Error + Evaluable :=
  match tokenize expression with
  | inl e => inl e
  | inr ts =>
      match parseExpression (length ts) l 0 ts with
      | inl e => inl e
      | inr (eval, rest) =>
          match rest with
          | [t] => if tok_kind t =? scanner.EOF then inr eval
                   else inl (expected "end of expression")
          | _ => inl (expected "end of expression")
          end
      end
  end.

(** Modelled from the spec: [Language.Evaluate] is not in gval.go. It
    parses the expression and evaluates it on the parameter. *)
Definition Language_Evaluate (l : Language) (expression : string)
    (parameter : Value) : M Value :=
  match Language_NewEvaluable l expression with
  | inl e => fail e
  | inr eval => eval context_Background parameter
  end.

End Builders.

(** ** The built-in languages (gval.go, lines 87-309)

    The handlers [parseIdent], [parseJSONArray], [parseJSONObject] and
    the evaluable operators [regEx] and [notRegEx] are defined outside
    gval.go; the languages take them as given. *)
Section Languages.
Context `{Host}.
Variables parseIdent parseJSONArray parseJSONObject : PrefixHandler.
Variables regEx notRegEx : Evaluable -> Evaluable -> Error + Evaluable.

Definition base : Language :=
  NewLanguage [
    PrefixExtension scanner.Int parseNumber;
    PrefixExtension scanner.Float parseNumber;
    PrefixOperator "-" base_neg;

    PrefixExtension scanner.String parseString;
    PrefixExtension scanner.Char parseString;
    PrefixExtension scanner.RawString parseString;

    Constant "true" (VBool true);
    Constant "false" (VBool false);

    InfixOperator "==" base_eq;
    InfixOperator "!=" base_ne;
    PrefixExtension (rune "(") parseParentheses;

    Precedence "??" 0;

    Precedence "||" 20;
    Precedence "&&" 21;

    Precedence "==" 40;
    Precedence "!=" 40;
    Precedence ">" 40;
    Precedence ">=" 40;
    Precedence "<" 40;
    Precedence "<=" 40;
    Precedence "=~" 40;
    Precedence "!~" 40;
    Precedence "in" 40;

    Precedence "^" 60;
    Precedence "&" 60;
    Precedence "|" 60;

    Precedence "<<" 90;
    Precedence ">>" 90;

    Precedence "+" 120;
    Precedence "-" 120;

    Precedence "*" 150;
    Precedence "/" 150;
    Precedence "%" 150;

    Precedence "**" 200;

    PrefixMetaPrefix scanner.Ident parseIdent
  ].

Definition propositionalLogic : Language :=
  NewLanguage [
    PrefixOperator "!" logic_not;

    InfixShortCircuit "&&" logic_and_shortCircuit;
    InfixBoolOperator "&&" logic_and;
    InfixShortCircuit "||" logic_or_shortCircuit;
    InfixBoolOperator "||" logic_or;

    InfixBoolOperator "==" logic_eq;
    InfixBoolOperator "!=" logic_ne;

    base
  ].

Definition text : Language :=
  NewLanguage [
    InfixTextOperator "+" text_concat;

    InfixTextOperator "<" text_lt;
    InfixTextOperator "<=" text_le;
    InfixTextOperator ">" text_gt;
    InfixTextOperator ">=" text_ge;

    InfixEvalOperator "=~" regEx;
    InfixEvalOperator "!~" notRegEx;
    base
  ].

Definition bitmask : Language :=
  NewLanguage [
    InfixNumberOperator "^" bitmask_xor;
    InfixNumberOperator "&" bitmask_and;
    InfixNumberOperator "|" bitmask_or;
    InfixNumberOperator "<<" bitmask_shl;
    InfixNumberOperator ">>" bitmask_shr;

    PrefixOperator "~" bitmask_not
  ].

Definition arithmetic : Language :=
  NewLanguage [
    InfixNumberOperator "+" arithmetic_add;
    InfixNumberOperator "-" arithmetic_sub;
    InfixNumberOperator "*" arithmetic_mul;
    InfixNumberOperator "/" arithmetic_div;
    InfixNumberOperator "%" arithmetic_mod;
    InfixNumberOperator "**" arithmetic_pow;

    InfixNumberOperator ">" arithmetic_gt;
    InfixNumberOperator ">=" arithmetic_ge;
    InfixNumberOperator "<" arithmetic_lt;
    InfixNumberOperator "<=" arithmetic_le;

    InfixNumberOperator "==" arithmetic_eq;
    InfixNumberOperator "!=" arithmetic_ne;

    base
  ].

Definition ljson : Language :=
  NewLanguage [
    PrefixExtension (rune "[") parseJSONArray;
    PrefixExtension (rune "{") parseJSONObject
  ].

Definition full : Language :=
  NewLanguage [
    arithmetic; bitmask; text; propositionalLogic; ljson;

    InfixOperator "in" inArray;

    InfixShortCircuit "??" full_coalesce_shortCircuit;
    InfixOperator "??" full_coalesce;

    PostfixOperator "?" parseIf;

    Function "date" (pureFunction full_date)
  ].

(** *** The public functions (lines 19-85) *)

Definition Evaluate (expression : string) (parameter : Value)
    (opts : list Language) : M Value :=
  let l := full in
  let l := if (0 <? length opts)%nat then NewLanguage (l :: opts) else l in
  Language_Evaluate l expression parameter.

Definition Full (extensions : list Language) : Language :=
  if (length extensions =? 0)%nat then full
  else NewLanguage (full :: extensions).

Definition Arithmetic : Language := arithmetic.
Definition Bitmask : Language := bitmask.
Definition Text : Language := text.
Definition PropositionalLogic : Language := propositionalLogic.
Definition JSON : Language := ljson.
Definition Base : Language := base.

End Languages.

(** ** A host to run the definitions on

    Decimal literals, integer powers, one date layout, and a world that
    logs the host functions invoked. *)
Module ExampleHost.

Fixpoint digitsValue (acc : Z) (s : string) : option Z :=
  match s with
  | EmptyString => Some acc
  | String c rest =>
      if isDigit c then digitsValue (10 * acc + (rune c - rune "0")) rest
      else None
  end.

Definition parseFloat (s : string) : option float64 :=
  match s with
  | EmptyString => None
  | _ => option_map F64.of_Z (digitsValue 0 s)
  end.

Definition pow (x y : float64) : float64 :=
  match F64.trunc y with
  | Some n => if 0 <=? n then Z.iter n (F64.mul x) (F64.of_Z 1) else S754_nan
  | None => S754_nan
  end.

Definition unquote (s : string) : option string :=
  match s with
  | String _ rest => Some (substring 0 (String.length rest - 1) rest)
  | EmptyString => None
  end.

Definition parseInLocation (layout s : string) : option Time :=
  if String.eqb layout "2006-01-02" then
    match s with
    | "2021-06-15" => Some (mkTime 1623715200000000000 "Local")
    | "2021-06-16" => Some (mkTime 1623801600000000000 "Local")
    | _ => None
    end
  else None.

Definition show (v : Value) : string :=
  match v with
  | VStr s => s
  | VBool true => "true"
  | VBool false => "false"
  | VNil => "<nil>"
  | _ => "?"
  end.

Definition host : Host :=
  {| World := list string;
     Context := unit;
     context_Background := tt;
     time_ParseInLocation := parseInLocation;
     math_Pow := pow;
     math_Mod := fun _ _ => S754_nan;
     strconv_ParseFloat := parseFloat;
     strconv_Unquote := unquote;
     fmt_v := show;
     int64_unrepresentable := fun _ => - 2 ^ 63;
     uint64_unrepresentable := fun _ => 2 ^ 63 |}.

(** A host function that records its invocation and returns [v]. *)
Definition logged (name : string) (v : Value) : @GoFunction host :=
  fun _ (w : list string) => (inr v, w ++ [name]).

(** Calls of the host functions [f] and [g], which log the call. *)
Definition callF : @Evaluable host :=
  callNode (logged "f" (VStr "f was called")) [].

(** The missing handlers reject their input. *)
Definition noPrefix : @PrefixHandler host :=
  fun _ _ => pfail (mkError SyntaxError "not supported").
Definition noRegEx : @Evaluable host -> @Evaluable host -> Error + @Evaluable host :=
  fun _ _ => inl (mkError FunctionError "not supported").

Abbreviation full := (@full host noPrefix noPrefix noPrefix noRegEx noRegEx).

Abbreviation Evaluate :=
  (@Evaluate host noPrefix noPrefix noPrefix noRegEx noRegEx).

End ExampleHost.
(** ** The comparison helpers (gval.go, lines 311-506)

    [compareGreaterThan], [compareGreaterEqualThan], [compareLessThan]
    and [compareLessEqualThan] inspect their operands with the package
    [reflect] and read them with type assertions. *)
Module reflect.

(** [reflect.Kind], in the order of its constants. *)
Inductive Kind : Type :=
| Invalid | Bool
| Int | Int8 | Int16 | Int32 | Int64
| Uint | Uint8 | Uint16 | Uint32 | Uint64 | Uintptr
| Float32 | Float64 | Complex64 | Complex128
| Array | Chan | Func | Interface | Map | Pointer | Slice | String | Struct
| UnsafePointer.

(** The value of the constant. *)
Definition Kind_index (k : Kind) : Z :=
  match k with
  | Invalid => 0 | Bool => 1
  | Int => 2 | Int8 => 3 | Int16 => 4 | Int32 => 5 | Int64 => 6
  | Uint => 7 | Uint8 => 8 | Uint16 => 9 | Uint32 => 10 | Uint64 => 11
  | Uintptr => 12
  | Float32 => 13 | Float64 => 14 | Complex64 => 15 | Complex128 => 16
  | Array => 17 | Chan => 18 | Func => 19 | Interface => 20 | Map => 21
  | Pointer => 22 | Slice => 23 | String => 24 | Struct => 25
  | UnsafePointer => 26
  end.

Definition Kind_eqb (k k' : Kind) : bool := Kind_index k =? Kind_index k'.

(** [Kind.String()] *)
Definition Kind_String (k : Kind) : string :=
  match k with
  | Invalid => "invalid" | Bool => "bool"
  | Int => "int" | Int8 => "int8" | Int16 => "int16" | Int32 => "int32"
  | Int64 => "int64"
  | Uint => "uint" | Uint8 => "uint8" | Uint16 => "uint16"
  | Uint32 => "uint32" | Uint64 => "uint64" | Uintptr => "uintptr"
  | Float32 => "float32" | Float64 => "float64"
  | Complex64 => "complex64" | Complex128 => "complex128"
  | Array => "array" | Chan => "chan" | Func => "func"
  | Interface => "interface" | Map => "map" | Pointer => "ptr"
  | Slice => "slice" | String => "string" | Struct => "struct"
  | UnsafePointer => "unsafe.Pointer"
  end.

(** A type: its kind and its name. The predeclared types bool, int,
    ..., float64 are named as their kind; a defined type such as
    [time.Duration] has the kind of its underlying type and its own
    name. *)
Record Type_ : Type := mkType { Kind_of : Kind; Name : string }.

Definition Type_eqb (t u : Type_) : bool :=
  Kind_eqb (Kind_of t) (Kind_of u) && String.eqb (Name t) (Name u).

(** The predeclared type of a kind. *)
Definition predeclared (k : Kind) : Type_ := mkType k (Kind_String k).

End reflect.

(** What an interface value holds besides its type. *)
Inductive Data : Type :=
| DBool (b : bool)
| DInt (z : Z)               (* any signed or unsigned integer *)
| DFloat (f : spec_float)    (* a float32 or a float64 *)
| DOther.

(** An [interface{}] operand: nil, or a value with its dynamic type. *)
Inductive Operand : Type :=
| ONil
| OVal (t : reflect.Type_) (d : Data).

(** What the helpers return in [val]: nothing, a bool, a string, or an
    error value made by [errors.New]. *)
Inductive Val : Type :=
| ValNil
| ValBool (b : bool)
| ValString (s : string)
| ValError (msg : string).

(** The type assertions [a.(int)], [a.(int8)], ..., [a.(uint64)] to the
    predeclared type of kind [k]; [None] is the panic of a failed
    assertion. *)
Definition assertInt (k : reflect.Kind) (a : Operand) : option Z :=
  match a with
  | OVal t (DInt z) =>
      if reflect.Type_eqb t (reflect.predeclared k) then Some z else None
  | _ => None
  end.

(** [a.(float32)] and [a.(float64)] *)
Definition assertFloat (k : reflect.Kind) (a : Operand) : option spec_float :=
  match a with
  | OVal t (DFloat f) =>
      if reflect.Type_eqb t (reflect.predeclared k) then Some f else None
  | _ => None
  end.

(** [a.(bool)] *)
Definition assertBool (a : Operand) : option bool :=
  match a with
  | OVal t (DBool x) =>
      if reflect.Type_eqb t (reflect.predeclared reflect.Bool) then Some x
      else None
  | _ => None
  end.

(** [x op y] on two asserted operands, left first; a failed assertion
    panics. *)
Definition compared {A : Type} (op : A -> A -> bool) (x y : option A) : option bool :=
  match x with
  | Some u =>
      match y with
      | Some v => Some (op u v)
      | None => None
      end
  | None => None
  end.

(** [compareGreaterThan] (lines 311-369). The first component is what
    [fmt.Println(typeA.Kind())] writes to the standard output, the
    second the pair [(val, err)], or [None] for a panic. *)
Definition compareGreaterThan (a b : Operand)
    : list string * option (Val * option string) :=
  match a, b with
  | ONil, _ | _, ONil => ([], Some (ValError "invalid operation", None))
  | OVal typeA _, OVal typeB _ =>
      let stdout := [reflect.Kind_String (reflect.Kind_of typeA)] in
      let returns (r : option bool) :=
        match r with
        | Some v => (stdout, Some (ValBool v, None))
        | None => (stdout, None)
        end in
      if negb (reflect.Kind_eqb (reflect.Kind_of typeA) (reflect.Kind_of typeB)) then
        (stdout,
         Some (ValString ("invalid operation ("
                          +:+ reflect.Kind_String (reflect.Kind_of typeA)
                          +:+ ") > ("
                          +:+ reflect.Kind_String (reflect.Kind_of typeB) +:+ ")"),
               None))
      else
        match reflect.Kind_of typeA with
        | reflect.Int =>
            returns (compared Z.gtb (assertInt reflect.Int a) (assertInt reflect.Int b))
        | reflect.Int8 =>
            returns (compared Z.gtb (assertInt reflect.Int8 a) (assertInt reflect.Int8 b))
        | reflect.Int16 =>
            returns (compared Z.gtb (assertInt reflect.Int16 a) (assertInt reflect.Int16 b))
        | reflect.Int32 =>
            returns (compared Z.gtb (assertInt reflect.Int32 a) (assertInt reflect.Int32 b))
        | reflect.Int64 =>
            returns (compared Z.gtb (assertInt reflect.Int64 a) (assertInt reflect.Int64 b))
        | reflect.Uint =>
            returns (compared Z.gtb (assertInt reflect.Uint a) (assertInt reflect.Uint b))
        | reflect.Uint8 =>
            returns (compared Z.gtb (assertInt reflect.Uint8 a) (assertInt reflect.Uint8 b))
        | reflect.Uint16 =>
            returns (compared Z.gtb (assertInt reflect.Uint16 a) (assertInt reflect.Uint16 b))
        | reflect.Uint32 =>
            returns (compared Z.gtb (assertInt reflect.Uint32 a) (assertInt reflect.Uint32 b))
        | reflect.Uint64 =>
            returns (compared Z.gtb (assertInt reflect.Uint64 a) (assertInt reflect.Uint64 b))
        | reflect.Float32 =>
            returns (compared (fun x y => SFltb y x)
                       (assertFloat reflect.Float32 a) (assertFloat reflect.Float32 b))
        | reflect.Float64 =>
            returns (compared (fun x y => SFltb y x)
                       (assertFloat reflect.Float64 a) (assertFloat reflect.Float64 b))
        | _ => (stdout, Some (ValBool false, None))
        end
  end.

(** [compareGreaterEqualThan] (lines 371-428): the pair [(val, err)], or
    [None] for a panic. A kind without a case leaves [val] nil. *)
Definition compareGreaterEqualThan (a b : Operand) : option (Val * option string) :=
  match a, b with
  | ONil, _ | _, ONil => Some (ValError "invalid operation", None)
  | OVal typeA _, OVal typeB _ =>
      let returns (r : option bool) :=
        match r with
        | Some v => Some (ValBool v, None)
        | None => None
        end in
      if negb (reflect.Kind_eqb (reflect.Kind_of typeA) (reflect.Kind_of typeB)) then
        Some (ValError "invalid operation", None)
      else
        match reflect.Kind_of typeA with
        | reflect.Bool =>
            returns (compared Bool.eqb (assertBool a) (assertBool b))
        | reflect.Int =>
            returns (compared Z.geb (assertInt reflect.Int a) (assertInt reflect.Int b))
        | reflect.Int8 =>
            returns (compared Z.geb (assertInt reflect.Int8 a) (assertInt reflect.Int8 b))
        | reflect.Int16 =>
            returns (compared Z.geb (assertInt reflect.Int16 a) (assertInt reflect.Int16 b))
        | reflect.Int32 =>
            returns (compared Z.geb (assertInt reflect.Int32 a) (assertInt reflect.Int32 b))
        | reflect.Int64 =>
            returns (compared Z.geb (assertInt reflect.Int64 a) (assertInt reflect.Int64 b))
        | reflect.Uint =>
            returns (compared Z.geb (assertInt reflect.Uint a) (assertInt reflect.Uint b))
        | reflect.Uint8 =>
            returns (compared Z.geb (assertInt reflect.Uint8 a) (assertInt reflect.Uint8 b))
        | reflect.Uint16 =>
            returns (compared Z.geb (assertInt reflect.Uint16 a) (assertInt reflect.Uint16 b))
        | reflect.Uint32 =>
            returns (compared Z.geb (assertInt reflect.Uint32 a) (assertInt reflect.Uint32 b))
        | reflect.Uint64 =>
            returns (compared Z.geb (assertInt reflect.Uint64 a) (assertInt reflect.Uint64 b))
        | reflect.Float32 =>
            returns (compared (fun x y => SFleb y x)
                       (assertFloat reflect.Float32 a) (assertFloat reflect.Float32 b))
        | reflect.Float64 =>
            returns (compared (fun x y => SFleb y x)
                       (assertFloat reflect.Float64 a) (assertFloat reflect.Float64 b))
        | _ => Some (ValNil, None)
        end
  end.

(** [compareLessThan] (lines 430-467): the bool returned, or [None] for
    a panic. *)
Definition compareLessThan (a b : Operand) : option bool :=
  match a, b with
  | ONil, _ | _, ONil => Some false
  | OVal typeA _, OVal typeB _ =>
      if negb (reflect.Type_eqb typeA typeB) then Some false
      else
        match reflect.Kind_of typeA with
        | reflect.Int => compared Z.ltb (assertInt reflect.Int a) (assertInt reflect.Int b)
        | reflect.Int8 => compared Z.ltb (assertInt reflect.Int8 a) (assertInt reflect.Int8 b)
        | reflect.Int16 => compared Z.ltb (assertInt reflect.Int16 a) (assertInt reflect.Int16 b)
        | reflect.Int32 => compared Z.ltb (assertInt reflect.Int32 a) (assertInt reflect.Int32 b)
        | reflect.Int64 => compared Z.ltb (assertInt reflect.Int64 a) (assertInt reflect.Int64 b)
        | reflect.Uint => compared Z.ltb (assertInt reflect.Uint a) (assertInt reflect.Uint b)
        | reflect.Uint8 => compared Z.ltb (assertInt reflect.Uint8 a) (assertInt reflect.Uint8 b)
        | reflect.Uint16 => compared Z.ltb (assertInt reflect.Uint16 a) (assertInt reflect.Uint16 b)
        | reflect.Uint32 => compared Z.ltb (assertInt reflect.Uint32 a) (assertInt reflect.Uint32 b)
        | reflect.Uint64 => compared Z.ltb (assertInt reflect.Uint64 a) (assertInt reflect.Uint64 b)
        | reflect.Float32 =>
            compared SFltb (assertFloat reflect.Float32 a) (assertFloat reflect.Float32 b)
        | reflect.Float64 =>
            compared SFltb (assertFloat reflect.Float64 a) (assertFloat reflect.Float64 b)
        | _ => Some false
        end
  end.

(** [compareLessEqualThan] (lines 469-506) *)
Definition compareLessEqualThan (a b : Operand) : option bool :=
  match a, b with
  | ONil, _ | _, ONil => Some false
  | OVal typeA _, OVal typeB _ =>
      if negb (reflect.Type_eqb typeA typeB) then Some false
      else
        match reflect.Kind_of typeA with
        | reflect.Int => compared Z.leb (assertInt reflect.Int a) (assertInt reflect.Int b)
        | reflect.Int8 => compared Z.leb (assertInt reflect.Int8 a) (assertInt reflect.Int8 b)
        | reflect.Int16 => compared Z.leb (assertInt reflect.Int16 a) (assertInt reflect.Int16 b)
        | reflect.Int32 => compared Z.leb (assertInt reflect.Int32 a) (assertInt reflect.Int32 b)
        | reflect.Int64 => compared Z.leb (assertInt reflect.Int64 a) (assertInt reflect.Int64 b)
        | reflect.Uint => compared Z.leb (assertInt reflect.Uint a) (assertInt reflect.Uint b)
        | reflect.Uint8 => compared Z.leb (assertInt reflect.Uint8 a) (assertInt reflect.Uint8 b)
        | reflect.Uint16 => compared Z.leb (assertInt reflect.Uint16 a) (assertInt reflect.Uint16 b)
        | reflect.Uint32 => compared Z.leb (assertInt reflect.Uint32 a) (assertInt reflect.Uint32 b)
        | reflect.Uint64 => compared Z.leb (assertInt reflect.Uint64 a) (assertInt reflect.Uint64 b)
        | reflect.Float32 =>
            compared SFleb (assertFloat reflect.Float32 a) (assertFloat reflect.Float32 b)
        | reflect.Float64 =>
            compared SFleb (assertFloat reflect.Float64 a) (assertFloat reflect.Float64 b)
        | _ => Some false
        end
  end.

(** The operands of a predeclared numeric type: an integer of kind [k],
    a float32, a float64. *)
Definition intOperand (k : reflect.Kind) (z : Z) : Operand :=
  OVal (reflect.predeclared k) (DInt z).
Definition floatOperand (k : reflect.Kind) (f : spec_float) : Operand :=
  OVal (reflect.predeclared k) (DFloat f).

(** The kinds the switches of the helpers have an integer case for:
    Int, Int8, Int16, Int32, Int64, Uint, Uint8, Uint16, Uint32 and
    Uint64 (the constants 2 to 11). Uintptr (12) has no case. *)
Definition isIntKind (k : reflect.Kind) : bool :=
  (2 <=? reflect.Kind_index k) && (reflect.Kind_index k <=? 11).
(** The kinds with a float case: Float32 and Float64 (13 and 14). The
    complex kinds have no case. *)
Definition isFloatKind (k : reflect.Kind) : bool :=
  (13 <=? reflect.Kind_index k) && (reflect.Kind_index k <=? 14).

(** An operand whose data fits the kind of its type: a bool for Bool, an
    integer for the integer kinds, a float for the float kinds. *)
Definition wellTyped (a : Operand) : bool :=
  match a with
  | ONil => true
  | OVal t (DBool _) => reflect.Kind_eqb (reflect.Kind_of t) reflect.Bool
  | OVal t (DInt _) =>
      isIntKind (reflect.Kind_of t)
      || reflect.Kind_eqb (reflect.Kind_of t) reflect.Uintptr
  | OVal t (DFloat _) => isFloatKind (reflect.Kind_of t)
  | OVal t DOther =>
      negb (reflect.Kind_eqb (reflect.Kind_of t) reflect.Bool
            || isIntKind (reflect.Kind_of t)
            || reflect.Kind_eqb (reflect.Kind_of t) reflect.Uintptr
            || isFloatKind (reflect.Kind_of t))
  end.

(** The twelve kinds with a case in every helper: the ten integer kinds
    and the two float kinds above. Uintptr, Complex64 and Complex128 are
    numbers of Go but not among them. *)
Definition isNumericKind (k : reflect.Kind) : bool :=
  isIntKind k || isFloatKind k.

(** [time.Duration], a defined type whose underlying type is int64. *)
Definition time_Duration : reflect.Type_ :=
  reflect.mkType reflect.Int64 "time.Duration".

(** * Properties *)

(** *** Equality on a sequence is membership *)

Lemma rangeEqual_true (aa : list Value) (b : Value) :
  rangeEqual aa b = true <-> exists x, x ∈ aa /\ DeepEqual x b = true.
Proof.
  induction aa as [|y rest IH]; simpl.
  - split; [discriminate | intros (x & Hx & _); inversion Hx].
  - destruct (DeepEqual y b) eqn:Hy.
    + split; [intros _; exists y; split; [left | exact Hy] | reflexivity].
    + rewrite IH. split.
      * intros (x & Hx & Hxb). exists x. split; [right; exact Hx | exact Hxb].
      * intros (x & Hx & Hxb). inversion Hx; subst; [congruence | eauto].
Qed.

Lemma rangeNotEqual_true (aa : list Value) (b : Value) :
  rangeNotEqual aa b = true <-> exists x, x ∈ aa /\ DeepEqual x b = false.
Proof.
  induction aa as [|y rest IH]; simpl.
  - split; [discriminate | intros (x & Hx & _); inversion Hx].
  - destruct (DeepEqual y b) eqn:Hy; simpl.
    + rewrite IH. split.
      * intros (x & Hx & Hxb). exists x. split; [right; exact Hx | exact Hxb].
      * intros (x & Hx & Hxb). inversion Hx; subst; [congruence | eauto].
    + split; [intros _; exists y; split; [left | exact Hy] | reflexivity].
Qed.

Lemma rangeNotEqual_false (aa : list Value) (b : Value) :
  rangeNotEqual aa b = false <-> forall x, x ∈ aa -> DeepEqual x b = true.
Proof.
  split.
  - intros H x Hx. destruct (DeepEqual x b) eqn:E; [reflexivity |].
    assert (rangeNotEqual aa b = true) by (apply rangeNotEqual_true; eauto).
    congruence.
  - intros H. destruct (rangeNotEqual aa b) eqn:E; [| reflexivity].
    apply rangeNotEqual_true in E as (x & Hx & Hxb).
    rewrite (H x Hx) in Hxb. discriminate.
Qed.

(** C1 (amended). For every pair of values (a, b) of the == and !=
    closures of Base: if a is an ordered sequence, a == b is true iff
    some element of a is deep-equal to b, and a != b is true iff some
    element of a is not deep-equal to b; if a is not an ordered
    sequence, a == b is the deep equality of a and b and a != b is its
    negation. *)
Theorem base_eq_ne_spec (a b : Value) :
  (forall aa, asSlice a = Some aa ->
     (exists r, base_eq a b = inr (VBool r) /\
        (r = true <-> exists x, x ∈ aa /\ DeepEqual x b = true)) /\
     (exists r, base_ne a b = inr (VBool r) /\
        (r = true <-> exists x, x ∈ aa /\ DeepEqual x b = false))) /\
  (asSlice a = None ->
     base_eq a b = inr (VBool (DeepEqual a b)) /\
     base_ne a b = inr (VBool (negb (DeepEqual a b)))).
Proof.
  unfold base_eq, base_ne. split.
  - intros aa ->. split.
    + exists (rangeEqual aa b). split; [reflexivity | apply rangeEqual_true].
    + exists (rangeNotEqual aa b). split; [reflexivity | apply rangeNotEqual_true].
  - intros ->. split; reflexivity.
Qed.

Lemma base_eq_ne_spec_witness :
  asSlice (VSeq [VStr "x"; VStr "y"]) = Some [VStr "x"; VStr "y"] /\
  (exists r, base_ne (VSeq [VStr "x"; VStr "y"]) (VStr "y") = inr (VBool r) /\
     (r = true <-> exists x, x ∈ [VStr "x"; VStr "y"] /\ DeepEqual x (VStr "y") = false)) /\
  asSlice (VStr "x") = None /\
  base_ne (VStr "x") (VStr "y") = inr (VBool (negb (DeepEqual (VStr "x") (VStr "y")))).
Proof.
  split; [reflexivity |]. split.
  - exact (proj2 (proj1 (base_eq_ne_spec (VSeq [VStr "x"; VStr "y"]) (VStr "y"))
                    [VStr "x"; VStr "y"] eq_refl)).
  - split; [reflexivity |].
    exact (proj2 (proj2 (base_eq_ne_spec (VStr "x") (VStr "y")) eq_refl)).
Defined.

(** The rule of == does not govern !=: on the sequence ["x"] and the
    value "y" no element is deep-equal to the right operand, yet != is
    true; on ["x", "y"] and "y" both == and != are true, so != is not
    the negation of == either. *)
Lemma base_ne_is_not_the_eq_rule :
  asSlice (VSeq [VStr "x"]) = Some [VStr "x"] /\
  base_ne (VSeq [VStr "x"]) (VStr "y") = inr (VBool true) /\
  ~ (exists x, x ∈ [VStr "x"] /\ DeepEqual x (VStr "y") = true) /\
  base_eq (VSeq [VStr "x"; VStr "y"]) (VStr "y") = inr (VBool true) /\
  base_ne (VSeq [VStr "x"; VStr "y"]) (VStr "y") = inr (VBool true).
Proof.
  repeat split; try reflexivity.
  intros (x & Hx & Hxy). apply list_elem_of_singleton in Hx. subst x.
  discriminate Hxy.
Qed.

(** C9. In Base, != with an ordered-sequence left operand is true iff at
    least one element is not deep-equal to the right operand; it is not
    the negation of ==. With an element equal to b and an element
    different from b both == and != are true; on a non-empty sequence
    whose elements all deep-equal b, == is true and != is false. *)
Theorem base_ne_on_sequences (a b : Value) (aa : list Value) :
  asSlice a = Some aa ->
  (base_ne a b = inr (VBool true) <-> exists x, x ∈ aa /\ DeepEqual x b = false) /\
  (forall x y, x ∈ aa -> y ∈ aa -> DeepEqual x b = true -> DeepEqual y b = false ->
     base_eq a b = inr (VBool true) /\ base_ne a b = inr (VBool true)) /\
  (aa <> [] -> (forall x, x ∈ aa -> DeepEqual x b = true) ->
     base_eq a b = inr (VBool true) /\ base_ne a b = inr (VBool false)).
Proof.
  intros Ha. unfold base_eq, base_ne. rewrite Ha. split; [| split].
  - rewrite <- rangeNotEqual_true. split; [congruence | intros ->; reflexivity].
  - intros x y Hx Hy Hxb Hyb.
    assert (rangeEqual aa b = true) as -> by (apply rangeEqual_true; eauto).
    assert (rangeNotEqual aa b = true) as -> by (apply rangeNotEqual_true; eauto).
    split; reflexivity.
  - intros Hne Hall.
    assert (rangeNotEqual aa b = false) as -> by (apply rangeNotEqual_false; exact Hall).
    assert (rangeEqual aa b = true) as ->.
    { destruct aa as [|x rest]; [congruence |].
      apply rangeEqual_true. exists x. split; [left | apply Hall; left]. }
    split; reflexivity.
Qed.

Lemma base_ne_on_sequences_witness :
  base_eq (VSeq [VStr "x"; VStr "y"]) (VStr "y") = inr (VBool true) /\
  base_ne (VSeq [VStr "x"; VStr "y"]) (VStr "y") = inr (VBool true) /\
  base_eq (VSeq [VStr "y"; VStr "y"]) (VStr "y") = inr (VBool true) /\
  base_ne (VSeq [VStr "y"; VStr "y"]) (VStr "y") = inr (VBool false).
Proof.
  pose proof (base_ne_on_sequences (VSeq [VStr "x"; VStr "y"]) (VStr "y")
                [VStr "x"; VStr "y"] eq_refl) as (_ & Hboth & _).
  pose proof (base_ne_on_sequences (VSeq [VStr "y"; VStr "y"]) (VStr "y")
                [VStr "y"; VStr "y"] eq_refl) as (_ & _ & Hall).
  destruct (Hboth (VStr "y") (VStr "x")) as [H1 H2];
    [right; left | left | reflexivity | reflexivity |].
  destruct Hall as [H3 H4].
  - discriminate.
  - intros x Hx. apply list_elem_of_In in Hx. simpl in Hx.
    destruct Hx as [<- | [<- | []]]; reflexivity.
  - repeat split; assumption.
Defined.

(** ** The algebra of languages *)
Section LanguageAlgebra.
Context `{Host}.

Infix "⊕" := union (at level 50, left associativity).

Lemma union_assoc (A B C : Language) : (A ⊕ B) ⊕ C = A ⊕ (B ⊕ C).
Proof.
  unfold union; simpl. f_equal; try apply (assoc_L (∪)).
  symmetry. apply (assoc_L (∪)).
Qed.

Lemma union_idemp (A : Language) : A ⊕ A = A.
Proof.
  destruct A. unfold union; simpl. f_equal; apply (idemp_L (∪)).
Qed.

Lemma union_empty_l (A : Language) : emptyLanguage ⊕ A = A.
Proof.
  destruct A. unfold union; simpl. f_equal;
    first [apply (right_id_L ∅ (∪)) | apply (left_id_L ∅ (∪))].
Qed.

Lemma union_empty_r (A : Language) : A ⊕ emptyLanguage = A.
Proof.
  destruct A. unfold union; simpl. f_equal;
    first [apply (left_id_L ∅ (∪)) | apply (right_id_L ∅ (∪))].
Qed.

Lemma foldl_union (A : Language) (bases : list Language) :
  foldl union A bases = A ⊕ foldl union emptyLanguage bases.
Proof.
  revert A. induction bases as [|B bases IH]; intros A; simpl.
  - symmetry. apply union_empty_r.
  - rewrite (IH (A ⊕ B)), (IH (emptyLanguage ⊕ B)).
    rewrite union_empty_l. apply union_assoc.
Qed.

Lemma NewLanguage_cons (A : Language) (bases : list Language) :
  NewLanguage (A :: bases) = foldl union A bases.
Proof. unfold NewLanguage. simpl. by rewrite union_empty_l. Qed.

Lemma NewLanguage_app (xs ys : list Language) :
  NewLanguage (xs ++ ys) = NewLanguage xs ⊕ NewLanguage ys.
Proof. unfold NewLanguage. rewrite foldl_app. apply foldl_union. Qed.

Lemma NewLanguage_snoc (xs : list Language) (B : Language) :
  NewLanguage (xs ++ [B]) = NewLanguage xs ⊕ B.
Proof.
  rewrite NewLanguage_app. f_equal. unfold NewLanguage. simpl.
  apply union_empty_l.
Qed.

Lemma lookup_later `{Countable K} {V : Type} (mB mA : gmap K V) (k : K) :
  (mB ∪ mA) !! k = later (mB !! k) (mA !! k).
Proof. rewrite lookup_union. by destruct (mB !! k), (mA !! k). Qed.

(** C8. Language union, and NewLanguage as its fold, is associative and
    right-biased: at every key of every table the entry of A ⊕ B is the
    entry of B when B has one (and that of A otherwise), the
    operator-symbol set of A ⊕ B is the union of the two sets, and
    A ⊕ A = A. *)
Theorem union_right_biased (A B C : Language) :
  (A ⊕ B) ⊕ C = A ⊕ (B ⊕ C) /\
  A ⊕ A = A /\
  operatorSymbols (A ⊕ B) = operatorSymbols A ∪ operatorSymbols B /\
  (forall k, prefixes (A ⊕ B) !! k = later (prefixes B !! k) (prefixes A !! k)) /\
  (forall k, numberOperators (A ⊕ B) !! k
             = later (numberOperators B !! k) (numberOperators A !! k)) /\
  (forall k, boolOperators (A ⊕ B) !! k
             = later (boolOperators B !! k) (boolOperators A !! k)) /\
  (forall k, textOperators (A ⊕ B) !! k
             = later (textOperators B !! k) (textOperators A !! k)) /\
  (forall k, arbitraryOperators (A ⊕ B) !! k
             = later (arbitraryOperators B !! k) (arbitraryOperators A !! k)) /\
  (forall k, evalOperators (A ⊕ B) !! k
             = later (evalOperators B !! k) (evalOperators A !! k)) /\
  (forall k, shortCircuits (A ⊕ B) !! k
             = later (shortCircuits B !! k) (shortCircuits A !! k)) /\
  (forall k, precedences (A ⊕ B) !! k
             = later (precedences B !! k) (precedences A !! k)) /\
  (forall k, postfixes (A ⊕ B) !! k
             = later (postfixes B !! k) (postfixes A !! k)) /\
  NewLanguage [A; B] = A ⊕ B /\
  NewLanguage [A; B; C] = (A ⊕ B) ⊕ C /\
  NewLanguage [NewLanguage [A; B]; C] = NewLanguage [A; NewLanguage [B; C]] /\
  NewLanguage [A; A] = A /\
  (forall xs ys, NewLanguage (xs ++ ys) = NewLanguage xs ⊕ NewLanguage ys).
Proof.
  assert (forall X Y, NewLanguage [X; Y] = X ⊕ Y) as Hpair
    by (intros X Y; unfold NewLanguage; simpl; by rewrite union_empty_l).
  split; [apply union_assoc |].
  split; [apply union_idemp |].
  split; [reflexivity |].
  repeat (split; [intros k; apply lookup_later |]).
  split; [apply Hpair |].
  split; [unfold NewLanguage; simpl; by rewrite union_empty_l |].
  split; [rewrite !Hpair; apply union_assoc |].
  split; [rewrite Hpair; apply union_idemp |].
  apply NewLanguage_app.
Qed.

End LanguageAlgebra.

(** ** The built-in languages *)
Section BuiltIn.
Context `{Host}.
Variables parseIdent parseJSONArray parseJSONObject : PrefixHandler.
Variables regEx notRegEx : Evaluable -> Evaluable -> Error + Evaluable.

Infix "⊕" := union (at level 50, left associativity).

#[local] Abbreviation base' := (base parseIdent).
#[local] Abbreviation arithmetic' := (arithmetic parseIdent).
#[local] Abbreviation text' := (text parseIdent regEx notRegEx).
#[local] Abbreviation propositionalLogic' := (propositionalLogic parseIdent).
#[local] Abbreviation ljson' := (ljson parseJSONArray parseJSONObject).
#[local] Abbreviation full' :=
  (full parseIdent parseJSONArray parseJSONObject regEx notRegEx).
#[local] Abbreviation Full' :=
  (Full parseIdent parseJSONArray parseJSONObject regEx notRegEx).
#[local] Abbreviation Evaluate' :=
  (Evaluate parseIdent parseJSONArray parseJSONObject regEx notRegEx).

(** An operator that binds less tightly than [minPrec] is left to the
    enclosing expression. *)
Lemma parseOperators_stops (fuel : nat) (l : Language) (sub : Z -> P Evaluable)
    (minPrec : Z) (left : Evaluable) (ts rest : list Token) (symbol : string) :
  scanOperator l ts = Some (symbol, rest) ->
  precedenceOf l symbol < minPrec ->
  parseOperators fuel l sub minPrec left ts = inr (left, ts).
Proof.
  intros Hscan Hprec. destruct fuel as [|fuel]; cbn [parseOperators]; [reflexivity |].
  rewrite Hscan. apply Z.ltb_lt in Hprec. by rewrite Hprec.
Qed.

(** An infix operator that binds at least as tightly as [minPrec] is
    consumed; its right operand is parsed one level above its own
    precedence (at its own precedence for [**]), so only operators that
    bind tighter become part of that operand. *)
Lemma parseOperators_consumes (fuel : nat) (l : Language) (sub : Z -> P Evaluable)
    (minPrec : Z) (left : Evaluable) (ts rest : list Token) (symbol : string) :
  scanOperator l ts = Some (symbol, rest) ->
  minPrec <= precedenceOf l symbol ->
  postfixes l !! symbol = None ->
  isInfix l symbol = true ->
  parseOperators (S fuel) l sub minPrec left ts =
    pbind (sub (if rightAssociative symbol then precedenceOf l symbol
                else precedenceOf l symbol + 1))
      (fun right =>
         match buildInfix l symbol left right with
         | Some (inr node) => parseOperators fuel l sub minPrec node
         | Some (inl e) => pfail e
         | None => pfail (mkError UnknownOperator symbol)
         end) rest.
Proof.
  intros Hscan Hprec Hpost Hinfix. cbn [parseOperators]. rewrite Hscan.
  apply Z.ltb_ge in Hprec. unfold PostfixHandler in *. by rewrite Hprec, Hpost, Hinfix.
Qed.

(** C3. The precedences assigned in the built-in languages are exactly
    ?? = 0, || = 20, && = 21, each of ==, !=, >, >=, <, <=, =~, !~,
    in = 40, each of ^, &, | = 60, each of <<, >> = 90, each of +, - =
    120, each of *, /, % = 150 and ** = 200: this is the table of Base
    and of every language that contains it (Arithmetic, Text,
    PropositionalLogic, Full); Bitmask and JSON assign none of their
    own, and the infix symbols of Full are exactly the symbols of the
    table. Higher numbers bind tighter: an operator whose precedence is
    below the minimum of the expression being parsed is not consumed. *)
Theorem precedence_table :
  let table : gmap string Z :=
    list_to_map
      [ ("??", 0); ("||", 20); ("&&", 21);
        ("==", 40); ("!=", 40); (">", 40); (">=", 40); ("<", 40); ("<=", 40);
        ("=~", 40); ("!~", 40); ("in", 40);
        ("^", 60); ("&", 60); ("|", 60);
        ("<<", 90); (">>", 90);
        ("+", 120); ("-", 120);
        ("*", 150); ("/", 150); ("%", 150);
        ("**", 200) ] in
  precedences base' = table /\
  precedences arithmetic' = table /\
  precedences text' = table /\
  precedences propositionalLogic' = table /\
  precedences full' = table /\
  precedences (bitmask (H := H)) = ∅ /\
  precedences ljson' = ∅ /\
  dom (numberOperators full') ∪ dom (boolOperators full')
    ∪ dom (textOperators full') ∪ dom (arbitraryOperators full')
    ∪ dom (evalOperators full') = dom table /\
  (forall symbol, precedenceOf full' symbol = default 0 (table !! symbol)) /\
  (forall fuel sub minPrec left ts rest symbol,
     scanOperator full' ts = Some (symbol, rest) ->
     precedenceOf full' symbol < minPrec ->
     parseOperators fuel full' sub minPrec left ts = inr (left, ts)).
Proof.
  intros table.
  assert (precedences full' = table) as Hfull by reflexivity.
  split; [reflexivity |].
  split; [reflexivity |].
  split; [reflexivity |].
  split; [reflexivity |].
  split; [exact Hfull |].
  split; [reflexivity |].
  split; [reflexivity |].
  split; [reflexivity |].
  split.
  - intros symbol. unfold precedenceOf. by rewrite Hfull.
  - intros. by eapply parseOperators_stops.
Qed.

(** C2. Evaluate evaluates under the Full language when no extension is
    given and under the union Full ⊕ extensions, taken in the given
    order, otherwise. Full is the union Arithmetic ⊕ Bitmask ⊕ Text ⊕
    PropositionalLogic ⊕ JSON extended with the in operator, the ??
    operator (short-circuit predicate and evaluator), the postfix
    ternary ? and the date function, and each of these extensions is
    the entry found in Full. *)
Theorem Evaluate_under_full (expression : string) (parameter : Value) :
  Evaluate' expression parameter [] = Language_Evaluate full' expression parameter /\
  (forall o os,
     Evaluate' expression parameter (o :: os)
     = Language_Evaluate (foldl union full' (o :: os)) expression parameter) /\
  full' = arithmetic' ⊕ bitmask ⊕ text' ⊕ propositionalLogic' ⊕ ljson'
         ⊕ InfixOperator "in" inArray
         ⊕ InfixShortCircuit "??" full_coalesce_shortCircuit
         ⊕ InfixOperator "??" full_coalesce
         ⊕ PostfixOperator "?" parseIf
         ⊕ Function "date" (pureFunction full_date) /\
  arbitraryOperators full' !! "in" = Some inArray /\
  shortCircuits full' !! "??" = Some full_coalesce_shortCircuit /\
  arbitraryOperators full' !! "??" = Some full_coalesce /\
  postfixes full' !! "?" = Some parseIf /\
  prefixes full' !! inr "date"
  = prefixes (Function "date" (pureFunction full_date)) !! inr "date" /\
  Full' [] = full' /\
  (forall o os, Full' (o :: os) = foldl union full' (o :: os)).
Proof.
  split; [reflexivity |].
  split.
  { intros o os. unfold Evaluate. cbn [length Nat.ltb Nat.leb].
    by rewrite NewLanguage_cons. }
  split.
  { unfold full, NewLanguage. cbn [foldl]. by rewrite union_empty_l. }
  split; [reflexivity |].
  split; [reflexivity |].
  split; [reflexivity |].
  split; [reflexivity |].
  split; [reflexivity |].
  split; [reflexivity |].
  intros o os. unfold Full. cbn [length Nat.eqb]. by rewrite NewLanguage_cons.
Qed.

(** ** Short-circuit operators *)

(** A symbol with no evaluator but the one on arbitrary values
    dispatches to it whatever the operands. *)
Lemma dispatch_arbitrary (l : Language) (name : string)
    (fn : Value -> Value -> string + Value) (a b : Value) :
  numberOperators l !! name = None ->
  boolOperators l !! name = None ->
  textOperators l !! name = None ->
  arbitraryOperators l !! name = Some fn ->
  dispatch l name a b = raised TypeError (fn a b).
Proof.
  intros Hn Hb Ht Ha. unfold dispatch, coerced.
  rewrite Hn, Hb, Ht, Ha. by destruct a, b.
Qed.

(** The node of a short-circuit operator returns the result of the
    predicate when it reports stop, whatever the right operand is. *)
Lemma infixNode_stops (fn : Value -> Value -> Error + Value)
    (stops : Value -> Value * bool) (left right : Evaluable)
    (c : Context) (p : Value) (w w1 : World) (a v : Value) :
  left c p w = (inr a, w1) ->
  stops a = (v, true) ->
  infixNode fn (Some stops) left right c p w = (inr v, w1).
Proof.
  intros Hleft Hstop. unfold infixNode, bind. by rewrite Hleft, Hstop.
Qed.

(** Otherwise the right operand is evaluated in the world the left one
    left behind, and the evaluator is applied to the two values. *)
Lemma infixNode_continues (fn : Value -> Value -> Error + Value)
    (stops : Value -> Value * bool) (left right : Evaluable)
    (c : Context) (p : Value) (w w1 w2 : World) (a b v : Value) :
  left c p w = (inr a, w1) ->
  stops a = (v, false) ->
  right c p w1 = (inr b, w2) ->
  infixNode fn (Some stops) left right c p w = (fn a b, w2).
Proof.
  intros Hleft Hstop Hright. unfold infixNode, bind, lift.
  by rewrite Hleft, Hstop, Hright.
Qed.

Lemma coalesce_node (left right : Evaluable) :
  buildInfix full' "??" left right
  = Some (inr (infixNode (dispatch full' "??") (Some full_coalesce_shortCircuit)
                 left right)).
Proof.
  unfold buildInfix.
  assert (evalOperators full' !! "??" = None) as -> by reflexivity.
  assert (hasInfix full' "??" = true) as -> by reflexivity.
  assert (shortCircuits full' !! "??" = Some full_coalesce_shortCircuit) as ->
    by reflexivity.
  reflexivity.
Qed.

Lemma coalesce_dispatch (a b : Value) :
  dispatch full' "??" a b = raised TypeError (full_coalesce a b).
Proof. apply dispatch_arbitrary; reflexivity. Qed.

(** C4. For every pair of values (a, b): when a is neither the boolean
    false nor nil, a ?? b returns a and the short-circuit predicate
    reports stop, so the node of ?? in Full returns a without
    evaluating the right operand, whatever that operand is; when a is
    the boolean false or nil, the predicate does not stop, the right
    operand is evaluated, and a ?? b returns its value b. *)
Theorem coalesce_spec (a b : Value) :
  (isFalse a = false -> isNil a = false ->
     full_coalesce a b = inr a /\
     full_coalesce_shortCircuit a = (a, true) /\
     forall (left right : Evaluable) c p w w1,
       left c p w = (inr a, w1) ->
       exists node, buildInfix full' "??" left right = Some (inr node) /\
                    node c p w = (inr a, w1)) /\
  (isFalse a = true \/ isNil a = true ->
     full_coalesce a b = inr b /\
     full_coalesce_shortCircuit a = (a, false) /\
     forall (left right : Evaluable) c p w w1 w2,
       left c p w = (inr a, w1) ->
       right c p w1 = (inr b, w2) ->
       exists node, buildInfix full' "??" left right = Some (inr node) /\
                    node c p w = (inr b, w2)).
Proof.
  split.
  - intros Hf Hn.
    assert (full_coalesce_shortCircuit a = (a, true)) as Hsc
      by (unfold full_coalesce_shortCircuit; by rewrite Hf, Hn).
    split; [unfold full_coalesce; by rewrite Hf, Hn |].
    split; [exact Hsc |].
    intros left right c p w w1 Hleft. eexists. split; [apply coalesce_node |].
    by eapply infixNode_stops.
  - intros Hfn.
    assert (isFalse a || isNil a = true) as Hor
      by (destruct Hfn as [-> | ->]; [reflexivity | apply orb_true_r]).
    assert (full_coalesce_shortCircuit a = (a, false)) as Hsc.
    { unfold full_coalesce_shortCircuit. f_equal.
      rewrite <- negb_orb. by rewrite Hor. }
    assert (full_coalesce a b = inr b) as Hco
      by (unfold full_coalesce; by rewrite Hor).
    split; [exact Hco |]. split; [exact Hsc |].
    intros left right c p w w1 w2 Hleft Hright.
    eexists. split; [apply coalesce_node |].
    erewrite infixNode_continues by eassumption.
    by rewrite coalesce_dispatch, Hco.
Qed.





(** ** Associativity *)

Lemma parseOperators_done (fuel : nat) (l : Language) (sub : Z -> P Evaluable)
    (minPrec : Z) (left : Evaluable) (ts : list Token) :
  scanOperator l ts = None ->
  parseOperators fuel l sub minPrec left ts = inr (left, ts).
Proof.
  intros Hscan. destruct fuel; cbn [parseOperators]; [reflexivity |].
  by rewrite Hscan.
Qed.

(** A number literal is a constant; the operators that follow extend it. *)
Lemma parseExpression_number (fuel : nat) (l : Language) (minPrec : Z)
    (lit : string) (rest : list Token) (f : float64) :
  prefixes l !! inl scanner.Int = Some parseNumber ->
  strconv_ParseFloat lit = Some f ->
  parseExpression (S fuel) l minPrec (mkToken scanner.Int lit :: rest)
  = parseOperators fuel l (parseExpression fuel l) minPrec
      (constantNode (VNum f)) rest.
Proof.
  intros Hprefix Hparse. cbn [parseExpression]. unfold selectPrefix.
  cbn [tok_kind tok_lit]. change (scanner.Int =? scanner.Ident) with false.
  change (scanner.Int <? 0) with true. cbn iota.
  unfold PrefixHandler in *. rewrite Hprefix.
  unfold pbind, parseNumber. cbn [tok_lit]. by rewrite Hparse.
Qed.

Lemma dispatch_numbers (l : Language) (name : string)
    (fn : float64 -> float64 -> string + Value) (x y : float64) :
  numberOperators l !! name = Some fn ->
  dispatch l name (VNum x) (VNum y) = raised TypeError (fn x y).
Proof. intros Hn. unfold dispatch. by rewrite Hn. Qed.

Lemma number_node (l : Language) (symbol : string)
    (fn : float64 -> float64 -> string + Value) (left right : Evaluable) :
  evalOperators l !! symbol = None ->
  numberOperators l !! symbol = Some fn ->
  shortCircuits l !! symbol = None ->
  buildInfix l symbol left right
  = Some (inr (infixNode (dispatch l symbol) None left right)).
Proof.
  intros He Hn Hs. unfold buildInfix, hasInfix. rewrite He, Hn, Hs.
  reflexivity.
Qed.

Lemma parseOperators_infix (fuel : nat) (l : Language) (sub : Z -> P Evaluable)
    (minPrec : Z) (left : Evaluable) (ts rest : list Token) (symbol : string) :
  scanOperator l ts = Some (symbol, rest) ->
  (precedenceOf l symbol <? minPrec) = false ->
  postfixes l !! symbol = None ->
  isInfix l symbol = true ->
  parseOperators (S fuel) l sub minPrec left ts =
    pbind (sub (if rightAssociative symbol then precedenceOf l symbol
                else precedenceOf l symbol + 1))
      (fun right =>
         match buildInfix l symbol left right with
         | Some (inr node) => parseOperators fuel l sub minPrec node
         | Some (inl e) => pfail e
         | None => pfail (mkError UnknownOperator symbol)
         end) rest.
Proof.
  intros Hscan Hprec. apply parseOperators_consumes; [exact Hscan |].
  by apply Z.ltb_ge.
Qed.

Lemma parseOperators_below (fuel : nat) (l : Language) (sub : Z -> P Evaluable)
    (minPrec : Z) (left : Evaluable) (ts rest : list Token) (symbol : string) :
  scanOperator l ts = Some (symbol, rest) ->
  (precedenceOf l symbol <? minPrec) = true ->
  parseOperators fuel l sub minPrec left ts = inr (left, ts).
Proof.
  intros Hscan Hprec. eapply parseOperators_stops; [exact Hscan |].
  by apply Z.ltb_lt.
Qed.

Ltac number := erewrite parseExpression_number; [| reflexivity | eassumption].
Ltac infix symbol :=
  erewrite (parseOperators_infix _ _ _ _ _ _ _ symbol); [| reflexivity ..];
  unfold pbind at 1.
Ltac below symbol :=
  erewrite (parseOperators_below _ _ _ _ _ _ _ symbol); [| reflexivity ..].
Ltac done_ := erewrite parseOperators_done; [| reflexivity ..].
Ltac node := erewrite number_node; [| reflexivity ..].

(** A parenthesised expression is parsed from precedence 0 again. *)
Lemma parseExpression_parentheses (fuel : nat) (l : Language) (minPrec : Z)
    (rest : list Token) :
  prefixes l !! inl (rune "(") = Some parseParentheses ->
  scanOperator l (mkToken (rune "(") "(" :: rest) = None ->
  parseExpression (S fuel) l minPrec (mkToken (rune "(") "(" :: rest)
  = match parseExpression fuel l 0 rest with
    | inl e => inl e
    | inr (e, ts) =>
        match expect ")" ts with
        | inl err => inl err
        | inr (_, ts') =>
            parseOperators fuel l (parseExpression fuel l) minPrec e ts'
        end
    end.
Proof.
  intros Hprefix Hscan. cbn [parseExpression]. unfold selectPrefix.
  rewrite Hscan. cbn [tok_kind tok_lit].
  change (rune "(" =? scanner.Ident) with false.
  change (rune "(" <? 0) with false. cbn iota.
  unfold PrefixHandler in *. rewrite Hprefix.
  unfold parseParentheses, pbind, pret. cbn [parseSubExpression].
  destruct (parseExpression fuel l 0 rest) as [e | [e ts]]; [reflexivity |].
  by destruct (expect ")" ts) as [err | [[] ts']].
Qed.

Ltac parentheses :=
  erewrite parseExpression_parentheses; [| reflexivity ..].
Lemma expect_found (c : ascii) (t : Token) (rest : list Token) :
  tok_kind t = rune c -> expect c (t :: rest) = inr (tt, rest).
Proof. intros Hkind. unfold expect. by rewrite Hkind, Z.eqb_refl. Qed.

Ltac closing := erewrite expect_found; [| reflexivity].

Ltac evaluate_source :=
  unfold Evaluate; cbn [length Nat.ltb Nat.leb];
  unfold Language_Evaluate, Language_NewEvaluable;
  match goal with
  | |- context [tokenize ?e] =>
      let ts := eval vm_compute in (tokenize e) in
      change (tokenize e) with ts
  end;
  cbn [length].

Ltac left_associative symbol :=
  evaluate_source;
  number; infix symbol; number; below symbol; node;
  infix symbol; number; done_; node; done_.

Ltac right_associative symbol :=
  evaluate_source;
  number; infix symbol; number; infix symbol; number; done_; node;
  done_; node; done_.

Lemma eval_pow_pow (p : Value) (w : World) (two three : float64) :
  strconv_ParseFloat "2" = Some two ->
  strconv_ParseFloat "3" = Some three ->
  Evaluate' "2 ** 3 ** 2" p [] w = (inr (VNum (math_Pow two (math_Pow three two))), w).
Proof. intros H2 H3. right_associative "**". reflexivity. Qed.

Lemma eval_pow_right (p : Value) (w : World) (two three : float64) :
  strconv_ParseFloat "2" = Some two ->
  strconv_ParseFloat "3" = Some three ->
  Evaluate' "2 ** (3 ** 2)" p [] w = (inr (VNum (math_Pow two (math_Pow three two))), w).
Proof. intros H2 H3. evaluate_source.
  number; infix "**"; parentheses; number; infix "**"; number; done_; node;
  done_; closing; done_; node; done_. reflexivity. Qed.

Lemma eval_pow_left (p : Value) (w : World) (two three : float64) :
  strconv_ParseFloat "2" = Some two ->
  strconv_ParseFloat "3" = Some three ->
  Evaluate' "(2 ** 3) ** 2" p [] w = (inr (VNum (math_Pow (math_Pow two three) two)), w).
Proof. intros H2 H3. evaluate_source.
  parentheses; number; infix "**"; number; done_; node; done_; closing;
  infix "**"; number; done_; node; done_. reflexivity. Qed.

Lemma eval_add_add (p : Value) (w : World) (two three : float64) :
  strconv_ParseFloat "2" = Some two ->
  strconv_ParseFloat "3" = Some three ->
  Evaluate' "2 + 3 + 2" p [] w = (inr (VNum (F64.add (F64.add two three) two)), w).
Proof. intros H2 H3. left_associative "+". reflexivity. Qed.

Lemma eval_sub_sub (p : Value) (w : World) (two three : float64) :
  strconv_ParseFloat "2" = Some two ->
  strconv_ParseFloat "3" = Some three ->
  Evaluate' "2 - 3 - 2" p [] w = (inr (VNum (F64.sub (F64.sub two three) two)), w).
Proof. intros H2 H3. left_associative "-". reflexivity. Qed.

Lemma eval_mul_mul (p : Value) (w : World) (two three : float64) :
  strconv_ParseFloat "2" = Some two ->
  strconv_ParseFloat "3" = Some three ->
  Evaluate' "2 * 3 * 2" p [] w = (inr (VNum (F64.mul (F64.mul two three) two)), w).
Proof. intros H2 H3. left_associative "*". reflexivity. Qed.

Lemma eval_div_div (p : Value) (w : World) (two three : float64) :
  strconv_ParseFloat "2" = Some two ->
  strconv_ParseFloat "3" = Some three ->
  Evaluate' "2 / 3 / 2" p [] w = (inr (VNum (F64.div (F64.div two three) two)), w).
Proof. intros H2 H3. left_associative "/". reflexivity. Qed.

Lemma eval_mod_mod (p : Value) (w : World) (two three : float64) :
  strconv_ParseFloat "2" = Some two ->
  strconv_ParseFloat "3" = Some three ->
  Evaluate' "2 % 3 % 2" p [] w = (inr (VNum (math_Mod (math_Mod two three) two)), w).
Proof. intros H2 H3. left_associative "%". reflexivity. Qed.

(** C7. The ** operator is right-associative while the other arithmetic
    operators are left-associative: with the literals 2 and 3 read as
    the numbers two and three, 2 ** 3 ** 2 evaluates to
    two ** (three ** two), the value of 2 ** (3 ** 2) and not that of
    (2 ** 3) ** 2, whereas 2 op 3 op 2 evaluates to (two op three) op two
    for op among +, -, *, / and %. With 3 ** 2 = 9 and 2 ** 9 = 512 the
    result is 512, which differs from 64. *)
Theorem power_is_right_associative (p : Value) (w : World) (two three : float64) :
  strconv_ParseFloat "2" = Some two ->
  strconv_ParseFloat "3" = Some three ->
  Evaluate' "2 ** 3 ** 2" p [] w
  = (inr (VNum (math_Pow two (math_Pow three two))), w) /\
  Evaluate' "2 ** 3 ** 2" p [] w = Evaluate' "2 ** (3 ** 2)" p [] w /\
  Evaluate' "(2 ** 3) ** 2" p [] w
  = (inr (VNum (math_Pow (math_Pow two three) two)), w) /\
  Evaluate' "2 + 3 + 2" p [] w = (inr (VNum (F64.add (F64.add two three) two)), w) /\
  Evaluate' "2 - 3 - 2" p [] w = (inr (VNum (F64.sub (F64.sub two three) two)), w) /\
  Evaluate' "2 * 3 * 2" p [] w = (inr (VNum (F64.mul (F64.mul two three) two)), w) /\
  Evaluate' "2 / 3 / 2" p [] w = (inr (VNum (F64.div (F64.div two three) two)), w) /\
  Evaluate' "2 % 3 % 2" p [] w = (inr (VNum (math_Mod (math_Mod two three) two)), w) /\
  (forall symbol, rightAssociative symbol = true <-> symbol = "**") /\
  (math_Pow three two = F64.of_Z 9 ->
   math_Pow two (F64.of_Z 9) = F64.of_Z 512 ->
   Evaluate' "2 ** 3 ** 2" p [] w = (inr (VNum (F64.of_Z 512)), w)) /\
  F64.eqb (F64.of_Z 512) (F64.of_Z 64) = false.
Proof.
  intros H2 H3.
  pose proof (eval_pow_pow p w two three H2 H3) as Hpow.
  split; [exact Hpow |].
  split; [by rewrite Hpow, (eval_pow_right p w two three H2 H3) |].
  split; [by apply eval_pow_left |].
  split; [by apply eval_add_add |].
  split; [by apply eval_sub_sub |].
  split; [by apply eval_mul_mul |].
  split; [by apply eval_div_div |].
  split; [by apply eval_mod_mod |].
  split; [intros symbol; unfold rightAssociative; apply String.eqb_eq |].
  split; [| reflexivity].
  intros H9 H512. by rewrite Hpow, H9, H512.
Qed.

End BuiltIn.

(** ** The date function *)
Section Date.
Context `{Host}.


Lemma rangeFormats_first (formats : list string) (s : string) (i : nat)
    (layout : string) (ret : Time) :
  formats !! i = Some layout ->
  time_ParseInLocation layout s = Some ret ->
  (forall j earlier, (j < i)%nat -> formats !! j = Some earlier ->
     time_ParseInLocation earlier s = None) ->
  rangeFormats formats s = Some ret.
Proof.
  revert i. induction formats as [|format rest IH]; intros i Hi Hparse Hfirst.
  - discriminate Hi.
  - destruct i as [|i]; simpl in *.
    + injection Hi as ->. by rewrite Hparse.
    + rewrite (Hfirst 0%nat format) by (lia || reflexivity).
      apply (IH i Hi Hparse). intros j earlier Hj Hearlier.
      apply (Hfirst (S j)); [lia | exact Hearlier].
Qed.

Lemma rangeFormats_none (formats : list string) (s : string) :
  (forall layout, layout ∈ formats -> time_ParseInLocation layout s = None) ->
  rangeFormats formats s = None.
Proof.
  induction formats as [|format rest IH]; intros Hall; simpl; [reflexivity |].
  rewrite (Hall format) by left. apply IH. intros layout Hin.
  apply Hall. by right.
Qed.

(** Either some format is the first to match, or none matches. *)
Lemma rangeFormats_cases (formats : list string) (s : string) :
  (exists i layout ret,
      formats !! i = Some layout /\
      time_ParseInLocation layout s = Some ret /\
      (forall j earlier, (j < i)%nat -> formats !! j = Some earlier ->
         time_ParseInLocation earlier s = None)) \/
  (forall layout, layout ∈ formats -> time_ParseInLocation layout s = None).
Proof.
  induction formats as [|format rest IH].
  - right. intros layout Hin. inversion Hin.
  - destruct (time_ParseInLocation format s) as [ret|] eqn:Hparse.
    + left. exists 0%nat, format, ret. repeat split; [exact Hparse |].
      intros j earlier Hj. lia.
    + destruct IH as [(i & layout & ret & Hi & Hp & Hfirst) | Hnone].
      * left. exists (S i), layout, ret. repeat split; [exact Hi | exact Hp |].
        intros [|j] earlier Hj Hearlier; simpl in Hearlier.
        -- injection Hearlier as <-. exact Hparse.
        -- apply (Hfirst j); [lia | exact Hearlier].
      * right. intros layout Hin. inversion Hin; subst; [exact Hparse | by apply Hnone].
Qed.

(** C6. For every string s, date(s) tries the formats ANSIC, Unix date,
    Ruby date, Kitchen, RFC3339, RFC3339-nano, then the day, the day
    with minutes, with seconds, with seconds and timezone, and the
    T-forms with hour, minutes, seconds and nanoseconds, in this order;
    it returns the parse result of the first format that matches, and
    fails with a FunctionError when no format matches. One of the two
    always applies. *)
Theorem date_tries_formats_in_order (s : string) (w : World) :
  dateFormats =
    [ "Mon Jan _2 15:04:05 2006";
      "Mon Jan _2 15:04:05 MST 2006";
      "Mon Jan 02 15:04:05 -0700 2006";
      "3:04PM";
      "2006-01-02T15:04:05Z07:00";
      "2006-01-02T15:04:05.999999999Z07:00";
      "2006-01-02";
      "2006-01-02 15:04";
      "2006-01-02 15:04:05";
      "2006-01-02 15:04:05-07:00";
      "2006-01-02T15Z0700";
      "2006-01-02T15:04Z0700";
      "2006-01-02T15:04:05Z0700";
      "2006-01-02T15:04:05.999999999Z0700" ] /\
  (forall i layout ret,
     dateFormats !! i = Some layout ->
     time_ParseInLocation layout s = Some ret ->
     (forall j earlier, (j < i)%nat -> dateFormats !! j = Some earlier ->
        time_ParseInLocation earlier s = None) ->
     full_date [VStr s] = inr (VTime ret) /\
     invoke (pureFunction full_date) [VStr s] w = (inr (VTime ret), w)) /\
  ((forall layout, layout ∈ dateFormats -> time_ParseInLocation layout s = None) ->
     full_date [VStr s] = inl ("date() could not parse " +:+ s) /\
     invoke (pureFunction full_date) [VStr s] w
     = (inl (mkError FunctionError ("date() could not parse " +:+ s)), w)) /\
  ((exists i layout ret,
       dateFormats !! i = Some layout /\
       time_ParseInLocation layout s = Some ret /\
       (forall j earlier, (j < i)%nat -> dateFormats !! j = Some earlier ->
          time_ParseInLocation earlier s = None)) \/
   (forall layout, layout ∈ dateFormats -> time_ParseInLocation layout s = None)).
Proof.
  split; [reflexivity |]. split; [| split].
  - intros i layout ret Hi Hparse Hfirst.
    assert (full_date [VStr s] = inr (VTime ret)) as Hdate.
    { unfold full_date. by rewrite (rangeFormats_first _ _ _ _ _ Hi Hparse Hfirst). }
    split; [exact Hdate |].
    unfold invoke, pureFunction. by rewrite Hdate.
  - intros Hnone.
    assert (full_date [VStr s] = inl ("date() could not parse " +:+ s)) as Hdate.
    { unfold full_date. by rewrite (rangeFormats_none _ _ Hnone). }
    split; [exact Hdate |].
    unfold invoke, pureFunction. by rewrite Hdate.
  - apply rangeFormats_cases.
Qed.

End Date.

(** ** 64-bit integers *)

Lemma inInt64_spec (z : Z) : inInt64 z = true <-> - 2 ^ 63 <= z < 2 ^ 63.
Proof. unfold inInt64. rewrite andb_true_iff, Z.leb_le, Z.ltb_lt. tauto. Qed.

Lemma inUint64_spec (z : Z) : inUint64 z = true <-> 0 <= z < 2 ^ 64.
Proof. unfold inUint64. rewrite andb_true_iff, Z.leb_le, Z.ltb_lt. tauto. Qed.

Lemma wrap64_range (z : Z) : inInt64 (wrap64 z) = true.
Proof.
  apply inInt64_spec. unfold wrap64.
  pose proof (Z.mod_pos_bound (z + 2 ^ 63) (2 ^ 64) eq_refl). lia.
Qed.

Lemma wrap64_id (z : Z) : inInt64 z = true -> wrap64 z = z.
Proof.
  intros Hz%inInt64_spec. unfold wrap64.
  rewrite Z.mod_small by lia. lia.
Qed.

(** The bits of a small natural number vanish from position 63 on. *)
Lemma small_bits (x : Z) :
  0 <= x < 2 ^ 63 <-> forall n, 63 <= n -> Z.testbit x n = false.
Proof.
  split.
  - intros [Hlo Hhi] n Hn. destruct (Z.eq_dec x 0) as [-> | Hx].
    + apply Z.bits_0.
    + apply Z.bits_above_log2; [exact Hlo |].
      assert (Z.log2 x < 63) by (apply Z.log2_lt_pow2; lia). lia.
  - intros Hbits.
    assert (0 <= x) as Hlo.
    { apply (Z.bits_iff_nonneg x (Z.max 63 (Z.log2 (Z.abs x) + 1))); [lia |].
      apply Hbits. lia. }
    split; [exact Hlo |].
    destruct (Z.lt_ge_cases x (2 ^ 63)) as [Hlt | Hge]; [exact Hlt | exfalso].
    assert (0 < x) as Hpos by lia.
    pose proof (Z.bit_log2 x Hpos) as Hbit.
    rewrite Hbits in Hbit; [discriminate |].
    apply Z.log2_le_pow2; lia.
Qed.

(** A 64-bit two's complement integer repeats its sign bit above. *)
Lemma int64_bits (x : Z) :
  - 2 ^ 63 <= x < 2 ^ 63 <-> forall n, 63 <= n -> Z.testbit x n = Z.testbit x 63.
Proof.
  split.
  - intros Hx n Hn. destruct (Z.lt_ge_cases x 0) as [Hneg | Hpos].
    + assert (0 <= Z.lnot x < 2 ^ 63) as Hsmall by (unfold Z.lnot; lia).
      pose proof (proj1 (small_bits _) Hsmall) as Hbits.
      assert (forall k, 0 <= k -> Z.testbit x k = negb (Z.testbit (Z.lnot x) k)) as Hnot.
      { intros k Hk. rewrite Z.lnot_spec by exact Hk. by rewrite negb_involutive. }
      rewrite (Hnot n), (Hnot 63) by lia.
      by rewrite (Hbits n Hn), (Hbits 63).
    + assert (0 <= x < 2 ^ 63) as Hsmall by lia.
      pose proof (proj1 (small_bits _) Hsmall) as Hbits.
      by rewrite (Hbits n Hn), (Hbits 63).
  - intros Hbits. destruct (Z.testbit x 63) eqn:Hsign.
    + assert (0 <= Z.lnot x < 2 ^ 63) as Hsmall.
      { apply small_bits. intros n Hn.
        rewrite Z.lnot_spec by lia. by rewrite (Hbits n Hn). }
      unfold Z.lnot in Hsmall. lia.
    + assert (0 <= x < 2 ^ 63) as Hsmall by (apply small_bits; exact Hbits).
      lia.
Qed.

Lemma lxor_int64 (x y : Z) :
  inInt64 x = true -> inInt64 y = true -> inInt64 (Z.lxor x y) = true.
Proof.
  rewrite !inInt64_spec, !int64_bits. intros Hx Hy n Hn.
  by rewrite !Z.lxor_spec, (Hx n Hn), (Hy n Hn).
Qed.

Lemma land_int64 (x y : Z) :
  inInt64 x = true -> inInt64 y = true -> inInt64 (Z.land x y) = true.
Proof.
  rewrite !inInt64_spec, !int64_bits. intros Hx Hy n Hn.
  by rewrite !Z.land_spec, (Hx n Hn), (Hy n Hn).
Qed.

Lemma lor_int64 (x y : Z) :
  inInt64 x = true -> inInt64 y = true -> inInt64 (Z.lor x y) = true.
Proof.
  rewrite !inInt64_spec, !int64_bits. intros Hx Hy n Hn.
  by rewrite !Z.lor_spec, (Hx n Hn), (Hy n Hn).
Qed.

Lemma lnot_int64 (x : Z) : inInt64 x = true -> inInt64 (Z.lnot x) = true.
Proof. rewrite !inInt64_spec. unfold Z.lnot. lia. Qed.

Lemma shiftr_int64 (x n : Z) :
  inInt64 x = true -> 0 <= n -> inInt64 (Z.shiftr x n) = true.
Proof.
  rewrite !inInt64_spec, !int64_bits. intros Hx Hn m Hm.
  rewrite !Z.shiftr_spec by lia.
  by rewrite (Hx (m + n)), (Hx (63 + n)) by lia.
Qed.

(** The wrap-around keeps the low 64 bits. *)
Lemma wrap64_congruent (z : Z) : wrap64 z mod 2 ^ 64 = z mod 2 ^ 64.
Proof.
  unfold wrap64. rewrite Zminus_mod_idemp_l. f_equal. lia.
Qed.

Lemma wrap64_low_bits (z i : Z) :
  0 <= i < 64 -> Z.testbit (wrap64 z) i = Z.testbit z i.
Proof.
  intros Hi.
  rewrite <- (Z.mod_pow2_bits_low (wrap64 z) 64 i) by lia.
  rewrite <- (Z.mod_pow2_bits_low z 64 i) by lia.
  by rewrite wrap64_congruent.
Qed.

(** An int64 is determined by its residue modulo 2^64. *)
Lemma int64_unique (r r' : Z) :
  - 2 ^ 63 <= r < 2 ^ 63 -> - 2 ^ 63 <= r' < 2 ^ 63 ->
  r' mod 2 ^ 64 = r mod 2 ^ 64 -> r' = r.
Proof.
  intros Hr Hr' Hmod.
  assert ((r' + 2 ^ 63) mod 2 ^ 64 = (r + 2 ^ 63) mod 2 ^ 64) as Hshift.
  { rewrite <- (Zplus_mod_idemp_l r'), <- (Zplus_mod_idemp_l r). by rewrite Hmod. }
  rewrite !Z.mod_small in Hshift by lia. lia.
Qed.

(** What the range tests and the wrap-around compute. *)
Lemma wrap64_spec (z : Z) :
  (inInt64 z = true <-> - 2 ^ 63 <= z < 2 ^ 63) /\
  (inUint64 z = true <-> 0 <= z < 2 ^ 64) /\
  - 2 ^ 63 <= wrap64 z < 2 ^ 63 /\
  wrap64 z mod 2 ^ 64 = z mod 2 ^ 64 /\
  (- 2 ^ 63 <= z < 2 ^ 63 -> wrap64 z = z).
Proof.
  split; [apply inInt64_spec |]. split; [apply inUint64_spec |].
  split; [apply inInt64_spec, wrap64_range |].
  split; [apply wrap64_congruent |].
  intros Hz. apply wrap64_id, inInt64_spec. exact Hz.
Qed.

(** ** Conversions between float64 and integers *)

Lemma trunc_Qtrunc (f : float64) (q : Q) :
  F64.to_Q f = Some q -> F64.trunc f = Some (F64.Qtrunc q).
Proof.
  destruct f as [s | s | | s m e]; simpl; try discriminate.
  - intros [= <-]. reflexivity.
  - intros [= <-]. f_equal. unfold F64.Qtrunc.
    destruct (0 <=? e) eqn:He.
    + apply Z.leb_le in He. rewrite Z.shiftl_mul_pow2 by exact He.
      assert (0 < Z.pos m * 2 ^ e) as Hpos by (apply Z.mul_pos_pos; lia).
      destruct s; unfold Qle_bool, Qceiling, Qfloor; simpl Qnum; simpl Qden;
        cbn [Qopp Qnum Qden].
      * destruct (0 * 1 <=? - (Z.pos m * 2 ^ e) * 1) eqn:Hle;
          [apply Z.leb_le in Hle; lia |].
        rewrite Z.opp_involutive, Z.div_1_r. reflexivity.
      * destruct (0 * 1 <=? Z.pos m * 2 ^ e * 1) eqn:Hle;
          [| apply Z.leb_gt in Hle; lia].
        by rewrite Z.div_1_r.
    + apply Z.leb_gt in He. rewrite Z.shiftr_div_pow2 by lia.
      assert (0 < 2 ^ (- e)) as Hpow by (apply Z.pow_pos_nonneg; lia).
      assert (Z.pos (Z.to_pos (2 ^ (- e))) = 2 ^ (- e)) as Hden
        by (apply Z2Pos.id; exact Hpow).
      destruct s; unfold Qle_bool, Qceiling, Qfloor;
        cbn [Qopp Qnum Qden]; rewrite ?Hden.
      * destruct (0 * 2 ^ (- e) <=? - Z.pos m * 1) eqn:Hle;
          [apply Z.leb_le in Hle; lia |].
        by rewrite Z.opp_involutive.
      * destruct (0 * 2 ^ (- e) <=? Z.pos m * 1) eqn:Hle;
          [| apply Z.leb_gt in Hle; lia].
        reflexivity.
Qed.

Lemma digits2_pos_bounds (m : positive) :
  2 ^ (Z.pos (digits2_pos m) - 1) <= Z.pos m < 2 ^ Z.pos (digits2_pos m).
Proof.
  induction m as [p IH | p IH |]; cbn [digits2_pos].
  - rewrite Pos2Z.inj_succ, (Pos2Z.inj_xI p).
    replace (Z.succ (Z.pos (digits2_pos p)) - 1)
      with (Z.succ (Z.pos (digits2_pos p) - 1)) by lia.
    rewrite !Z.pow_succ_r by lia. lia.
  - rewrite Pos2Z.inj_succ, (Pos2Z.inj_xO p).
    replace (Z.succ (Z.pos (digits2_pos p)) - 1)
      with (Z.succ (Z.pos (digits2_pos p) - 1)) by lia.
    rewrite !Z.pow_succ_r by lia. lia.
  - simpl. lia.
Qed.

Lemma iter_xO_value (m k : positive) :
  Z.pos (Pos.iter xO m k) = Z.pos m * 2 ^ Z.pos k.
Proof.
  induction k as [|k IH] using Pos.peano_ind.
  - simpl. lia.
  - rewrite Pos.iter_succ, (Pos2Z.inj_xO (Pos.iter xO m k)), IH, Pos2Z.inj_succ.
    rewrite Z.pow_succ_r by lia. lia.
Qed.

Lemma iter_xO_digits (m k : positive) :
  digits2_pos (Pos.iter xO m k) = (digits2_pos m + k)%positive.
Proof.
  induction k as [|k IH] using Pos.peano_ind.
  - simpl. lia.
  - rewrite Pos.iter_succ. cbn [digits2_pos]. rewrite IH. lia.
Qed.

(** An integer below 2^53 in magnitude is normalised by shifting its
    bits to the top of the mantissa: no bit is lost. *)
Lemma binary_round_small (s : bool) (m : positive) :
  Z.pos m < 2 ^ 53 ->
  exists m' e',
    binary_round F64.prec F64.emax s m 0 = S754_finite s m' e' /\
    - 52 <= e' <= 0 /\ Z.pos m' = Z.pos m * 2 ^ (- e').
Proof.
  intros Hm. pose proof (digits2_pos_bounds m) as [Hlo Hhi].
  set (d := Z.pos (digits2_pos m)) in *.
  assert (1 <= d <= 53) as Hd.
  { split; [unfold d; lia |].
    destruct (Z.le_gt_cases d 53) as [Hle | Hgt]; [exact Hle | exfalso].
    assert (2 ^ 53 <= 2 ^ (d - 1)) by (apply Z.pow_le_mono_r; lia). lia. }
  unfold binary_round, fexp, emin, F64.prec, F64.emax. fold d.
  replace (Z.max (d + 0 - 53) (3 - 1024 - 53)) with (d - 53) by lia.
  assert (exists m' e', shl_align m 0 (d - 53) = (m', e') /\
            - 52 <= e' <= 0 /\ Z.pos m' = Z.pos m * 2 ^ (- e') /\
            Z.pos (digits2_pos m') = 53)
    as (m' & e' & -> & He & Hval & Hdigits).
  { unfold shl_align. destruct (d - 53 - 0) as [|k|k] eqn:Hk; [| lia |].
    - exists m, 0. repeat split; lia.
    - exists (Pos.iter xO m k), (d - 53). repeat split; try lia.
      + rewrite iter_xO_value. f_equal. f_equal. lia.
      + rewrite iter_xO_digits, Pos2Z.inj_add. fold d. lia. }
  exists m', e'. split; [| split; [exact He | exact Hval]].
  unfold binary_round_aux, shr_fexp, fexp, emin. cbn [Zdigits2].
  rewrite Hdigits.
  replace (Z.max (53 + e' - 53) (3 - 1024 - 53) - e') with 0 by lia.
  cbn [shr shr_record_of_loc shr_m loc_of_shr_record round_nearest_even Zdigits2].
  rewrite Hdigits.
  replace (Z.max (53 + e' - 53) (3 - 1024 - 53) - e') with 0 by lia.
  cbn [shr shr_record_of_loc shr_m].
  replace (e' <=? 1024 - 53) with true by (symmetry; apply Z.leb_le; lia).
  reflexivity.
Qed.

(** [float64(r)] is exact for every integer of magnitude at most 2^53. *)
Lemma of_Z_exact (r : Z) :
  - 2 ^ 53 <= r <= 2 ^ 53 ->
  exists q, F64.to_Q (F64.of_Z r) = Some q /\ (q == inject_Z r)%Q.
Proof.
  intros Hr.
  destruct (Z.eq_dec r (2 ^ 53)) as [-> | Hhi];
    [eexists; split; [reflexivity | reflexivity] |].
  destruct (Z.eq_dec r (- 2 ^ 53)) as [-> | Hlo];
    [eexists; split; [reflexivity | reflexivity] |].
  destruct r as [|m|m].
  - eexists; split; reflexivity.
  - destruct (binary_round_small false m) as (m' & e' & Hround & He & Hval); [lia |].
    unfold F64.of_Z, binary_normalize. rewrite Hround. cbn [F64.to_Q].
    destruct (0 <=? e') eqn:Hsign.
    + apply Z.leb_le in Hsign. assert (e' = 0) as -> by lia.
      eexists; split; [reflexivity |].
      unfold Qeq, inject_Z; cbn [Qnum Qden]. simpl in Hval. lia.
    + eexists; split; [reflexivity |].
      unfold Qeq, inject_Z; cbn [Qnum Qden].
      rewrite Z2Pos.id by (apply Z.pow_pos_nonneg; lia). lia.
  - destruct (binary_round_small true m) as (m' & e' & Hround & He & Hval);
      [pose proof (Pos2Z.neg_is_neg m); lia |].
    unfold F64.of_Z, binary_normalize. rewrite Hround. cbn [F64.to_Q].
    destruct (0 <=? e') eqn:Hsign.
    + apply Z.leb_le in Hsign. assert (e' = 0) as -> by lia.
      eexists; split; [reflexivity |].
      unfold Qeq, inject_Z, Qopp; cbn [Qnum Qden]. simpl in Hval. lia.
    + eexists; split; [reflexivity |].
      unfold Qeq, inject_Z, Qopp; cbn [Qnum Qden].
      rewrite Z2Pos.id by (apply Z.pow_pos_nonneg; lia). lia.
Qed.

(** ** The bitmask operators *)
Section Bitmask.
Context `{Host}.

Lemma int64_range (f : float64) : inInt64 (int64 f) = true.
Proof.
  unfold int64. destruct (F64.trunc f) as [z|]; [| apply wrap64_range].
  destruct (inInt64 z) eqn:Hz; [exact Hz | apply wrap64_range].
Qed.

Lemma uint64_range (f : float64) : inUint64 (uint64 f) = true.
Proof.
  assert (forall z, inUint64 (z mod 2 ^ 64) = true) as Hmod.
  { intros z. apply inUint64_spec. apply Z.mod_pos_bound. reflexivity. }
  unfold uint64. destruct (F64.trunc f) as [z|]; [| apply Hmod].
  destruct (inUint64 z) eqn:Hz; [exact Hz | apply Hmod].
Qed.

(** [int64(f)] is the value of [f] rounded toward zero when that fits. *)
Lemma int64_truncates (f : float64) (q : Q) :
  F64.to_Q f = Some q -> inInt64 (F64.Qtrunc q) = true ->
  int64 f = F64.Qtrunc q.
Proof.
  intros Hq Hrange. unfold int64.
  by rewrite (trunc_Qtrunc f q Hq), Hrange.
Qed.

Lemma uint64_truncates (f : float64) (q : Q) :
  F64.to_Q f = Some q -> inUint64 (F64.Qtrunc q) = true ->
  uint64 f = F64.Qtrunc q.
Proof.
  intros Hq Hrange. unfold uint64.
  by rewrite (trunc_Qtrunc f q Hq), Hrange.
Qed.

(** [<<] on 64-bit integers: the product by the power of two, reduced
    to the int64 with the same low 64 bits. *)
Lemma bitmask_shl_wraps (a b : float64) :
  exists r,
    bitmask_shl a b = inr (VNum (F64.of_Z r)) /\
    - 2 ^ 63 <= r < 2 ^ 63 /\
    r mod 2 ^ 64 = (int64 a * 2 ^ uint64 b) mod 2 ^ 64 /\
    (forall i, 0 <= i < 64 -> Z.testbit r i = Z.testbit (int64 a) (i - uint64 b)) /\
    (forall r', - 2 ^ 63 <= r' < 2 ^ 63 ->
       r' mod 2 ^ 64 = (int64 a * 2 ^ uint64 b) mod 2 ^ 64 -> r' = r) /\
    (- 2 ^ 63 <= int64 a * 2 ^ uint64 b < 2 ^ 63 -> r = int64 a * 2 ^ uint64 b) /\
    (64 <= uint64 b -> r = 0).
Proof.
  pose proof (uint64_range b) as Hub%inUint64_spec.
  exists (wrap64 (Z.shiftl (int64 a) (uint64 b))).
  pose proof (wrap64_range (Z.shiftl (int64 a) (uint64 b))) as Hr%inInt64_spec.
  assert (wrap64 (Z.shiftl (int64 a) (uint64 b)) mod 2 ^ 64
          = (int64 a * 2 ^ uint64 b) mod 2 ^ 64) as Hmod
    by (rewrite wrap64_congruent, Z.shiftl_mul_pow2 by lia; reflexivity).
  split; [reflexivity |]. split; [exact Hr |]. split; [exact Hmod |].
  split; [| split; [| split]].
  - intros i Hi. rewrite wrap64_low_bits by exact Hi. apply Z.shiftl_spec. lia.
  - intros r' Hr' Hmod'. apply int64_unique; [exact Hr | exact Hr' |].
    by rewrite Hmod, Hmod'.
  - intros Hfit. rewrite Z.shiftl_mul_pow2 by lia.
    apply wrap64_id, inInt64_spec. exact Hfit.
  - intros Hbig. apply int64_unique; [lia | exact Hr |].
    rewrite Hmod.
    assert (2 ^ uint64 b = 2 ^ (uint64 b - 64) * 2 ^ 64) as ->
      by (rewrite <- Z.pow_add_r by lia; f_equal; lia).
    rewrite Z.mul_assoc, Z.mod_mul by lia. reflexivity.
Qed.

(** [>>] on 64-bit integers: the quotient by the power of two, rounded
    down. *)
Lemma bitmask_shr_divides (a b : float64) :
  bitmask_shr a b = inr (VNum (F64.of_Z (int64 a / 2 ^ uint64 b))) /\
  - 2 ^ 63 <= int64 a / 2 ^ uint64 b < 2 ^ 63 /\
  forall i, 0 <= i ->
    Z.testbit (int64 a / 2 ^ uint64 b) i = Z.testbit (int64 a) (i + uint64 b).
Proof.
  pose proof (uint64_range b) as Hub%inUint64_spec.
  pose proof (int64_range a) as Ha.
  unfold bitmask_shr. rewrite Z.shiftr_div_pow2 by lia.
  split; [reflexivity |]. split.
  - rewrite <- Z.shiftr_div_pow2 by lia. apply inInt64_spec.
    apply shiftr_int64; [exact Ha | lia].
  - intros i Hi. rewrite <- Z.shiftr_div_pow2 by lia. apply Z.shiftr_spec. exact Hi.
Qed.

(** C10. Every Bitmask operator (^, &, |, <<, >> and prefix ~) converts
    its operands from float64 to int64 (the shift count to uint64),
    performs the operation on 64-bit integers and converts the integer
    result back to float64. The conversion of an operand whose integer
    part fits is truncation toward zero, so two operands with the same
    integer part give the same result: fractional parts are discarded.
    The conversion back is exact for every integer of magnitude at most
    2^53 and not beyond: 2^53 | 1 is 2^53 + 1 as an integer and 2^53 as
    a float64. The integer operations are those of 64-bit two's
    complement: ^, &, | and ~ act bit by bit; x << n is the one int64
    with the low 64 bits of x * 2^n, which is x * 2^n when that fits
    and 0 from n = 64 on; x >> n is x / 2^n rounded down; the range
    tests are those of int64 and uint64 and the wrap-around keeps an
    int64 and changes any other integer by a multiple of 2^64. *)
Theorem bitmask_operates_on_int64 (a b : float64) :
  (bitmask_xor a b = inr (VNum (F64.of_Z (Z.lxor (int64 a) (int64 b)))) /\
   bitmask_and a b = inr (VNum (F64.of_Z (Z.land (int64 a) (int64 b)))) /\
   bitmask_or a b = inr (VNum (F64.of_Z (Z.lor (int64 a) (int64 b)))) /\
   bitmask_shl a b
   = inr (VNum (F64.of_Z (wrap64 (Z.shiftl (int64 a) (uint64 b))))) /\
   bitmask_shr a b = inr (VNum (F64.of_Z (Z.shiftr (int64 a) (uint64 b)))) /\
   forall c v, convertToFloat v = Some a ->
     bitmask_not c v = inr (VNum (F64.of_Z (Z.lnot (int64 a))))) /\
  (inInt64 (int64 a) = true /\ inUint64 (uint64 b) = true /\
   inInt64 (Z.lxor (int64 a) (int64 b)) = true /\
   inInt64 (Z.land (int64 a) (int64 b)) = true /\
   inInt64 (Z.lor (int64 a) (int64 b)) = true /\
   inInt64 (wrap64 (Z.shiftl (int64 a) (uint64 b))) = true /\
   inInt64 (Z.shiftr (int64 a) (uint64 b)) = true /\
   inInt64 (Z.lnot (int64 a)) = true) /\
  (forall q, F64.to_Q a = Some q -> inInt64 (F64.Qtrunc q) = true ->
     int64 a = F64.Qtrunc q) /\
  (forall q, F64.to_Q b = Some q -> inUint64 (F64.Qtrunc q) = true ->
     uint64 b = F64.Qtrunc q) /\
  (forall a' b' qa qa' qb qb',
     F64.to_Q a = Some qa -> F64.to_Q a' = Some qa' ->
     F64.to_Q b = Some qb -> F64.to_Q b' = Some qb' ->
     F64.Qtrunc qa = F64.Qtrunc qa' -> F64.Qtrunc qb = F64.Qtrunc qb' ->
     inInt64 (F64.Qtrunc qa) = true ->
     (inInt64 (F64.Qtrunc qb) = true ->
        bitmask_xor a b = bitmask_xor a' b' /\
        bitmask_and a b = bitmask_and a' b' /\
        bitmask_or a b = bitmask_or a' b') /\
     (inUint64 (F64.Qtrunc qb) = true ->
        bitmask_shl a b = bitmask_shl a' b' /\
        bitmask_shr a b = bitmask_shr a' b') /\
     (forall c, bitmask_not c (VNum a) = bitmask_not c (VNum a'))) /\
  (forall r, - 2 ^ 53 <= r <= 2 ^ 53 ->
     exists q, F64.to_Q (F64.of_Z r) = Some q /\ (q == inject_Z r)%Q) /\
  (Z.lor (int64 (F64.of_Z (2 ^ 53))) (int64 (F64.of_Z 1)) = 2 ^ 53 + 1 /\
   bitmask_or (F64.of_Z (2 ^ 53)) (F64.of_Z 1) = inr (VNum (F64.of_Z (2 ^ 53))) /\
   F64.to_Q (F64.of_Z (2 ^ 53 + 1)) = Some (inject_Z (2 ^ 53))) /\
  (exists r,
     bitmask_shl a b = inr (VNum (F64.of_Z r)) /\
     - 2 ^ 63 <= r < 2 ^ 63 /\
     r mod 2 ^ 64 = (int64 a * 2 ^ uint64 b) mod 2 ^ 64 /\
     (forall i, 0 <= i < 64 -> Z.testbit r i = Z.testbit (int64 a) (i - uint64 b)) /\
     (forall r', - 2 ^ 63 <= r' < 2 ^ 63 ->
        r' mod 2 ^ 64 = (int64 a * 2 ^ uint64 b) mod 2 ^ 64 -> r' = r) /\
     (- 2 ^ 63 <= int64 a * 2 ^ uint64 b < 2 ^ 63 -> r = int64 a * 2 ^ uint64 b) /\
     (64 <= uint64 b -> r = 0)) /\
  (bitmask_shr a b = inr (VNum (F64.of_Z (int64 a / 2 ^ uint64 b))) /\
   - 2 ^ 63 <= int64 a / 2 ^ uint64 b < 2 ^ 63 /\
   forall i, 0 <= i ->
     Z.testbit (int64 a / 2 ^ uint64 b) i = Z.testbit (int64 a) (i + uint64 b)) /\
  (forall i, 0 <= i ->
     Z.testbit (Z.lxor (int64 a) (int64 b)) i
     = xorb (Z.testbit (int64 a) i) (Z.testbit (int64 b) i) /\
     Z.testbit (Z.land (int64 a) (int64 b)) i
     = Z.testbit (int64 a) i && Z.testbit (int64 b) i /\
     Z.testbit (Z.lor (int64 a) (int64 b)) i
     = Z.testbit (int64 a) i || Z.testbit (int64 b) i /\
     Z.testbit (Z.lnot (int64 a)) i = negb (Z.testbit (int64 a) i)) /\
  Z.lnot (int64 a) = - int64 a - 1 /\
  (forall z,
     (inInt64 z = true <-> - 2 ^ 63 <= z < 2 ^ 63) /\
     (inUint64 z = true <-> 0 <= z < 2 ^ 64) /\
     - 2 ^ 63 <= wrap64 z < 2 ^ 63 /\
     wrap64 z mod 2 ^ 64 = z mod 2 ^ 64 /\
     (- 2 ^ 63 <= z < 2 ^ 63 -> wrap64 z = z)).
Proof.
  pose proof (int64_range a) as Ha. pose proof (int64_range b) as Hb.
  pose proof (uint64_range b) as Hub.
  split; [| split; [| split; [| split; [| split; [| split;
    [| split; [| split; [| split; [| split; [| split]]]]]]]]]].
  - repeat split. intros c v Hv. unfold bitmask_not. by rewrite Hv.
  - split; [exact Ha |]. split; [exact Hub |].
    split; [by apply lxor_int64 |]. split; [by apply land_int64 |].
    split; [by apply lor_int64 |]. split; [apply wrap64_range |].
    split; [| by apply lnot_int64].
    apply shiftr_int64; [exact Ha |]. apply inUint64_spec in Hub. lia.
  - apply int64_truncates.
  - apply uint64_truncates.
  - intros a' b' qa qa' qb qb' Hqa Hqa' Hqb Hqb' Haa Hbb Hra.
    assert (int64 a = int64 a') as Hia.
    { rewrite (int64_truncates a qa Hqa Hra).
      rewrite Haa in Hra. by rewrite (int64_truncates a' qa' Hqa' Hra). }
    split; [| split].
    + intros Hrb.
      assert (int64 b = int64 b') as Hib.
      { rewrite (int64_truncates b qb Hqb Hrb).
        rewrite Hbb in Hrb. by rewrite (int64_truncates b' qb' Hqb' Hrb). }
      unfold bitmask_xor, bitmask_and, bitmask_or. by rewrite Hia, Hib.
    + intros Hrb.
      assert (uint64 b = uint64 b') as Hib.
      { rewrite (uint64_truncates b qb Hqb Hrb).
        rewrite Hbb in Hrb. by rewrite (uint64_truncates b' qb' Hqb' Hrb). }
      unfold bitmask_shl, bitmask_shr. by rewrite Hia, Hib.
    + intros c. unfold bitmask_not. cbn [convertToFloat]. by rewrite Hia.
  - apply of_Z_exact.
  - repeat split; reflexivity.
  - apply bitmask_shl_wraps.
  - apply bitmask_shr_divides.
  - intros i Hi.
    rewrite Z.lxor_spec, Z.land_spec, Z.lor_spec, Z.lnot_spec by exact Hi.
    repeat split.
  - unfold Z.lnot. lia.
  - apply wrap64_spec.
Qed.

End Bitmask.

(** * Examples on a concrete host *)
Module Examples.
Import ExampleHost.

(** In [1 * 2 + 3], parsing the operand of [*] stops before [+]. *)
Lemma precedence_table_witness :
  let ts := [mkToken (rune "+") "+"; mkToken scanner.Int "3";
             mkToken scanner.EOF ""] in
  let left := constantNode (VNum (F64.of_Z 2)) in
  scanOperator full ts
  = Some ("+"%string, [mkToken scanner.Int "3"; mkToken scanner.EOF ""]) /\
  precedenceOf full "+" < 151 /\
  parseOperators 3 full (parseExpression 2 full) 151 left ts = inr (left, ts) /\
  Evaluate "1 * 2 + 3" VNil [] [] = (inr (VNum (F64.of_Z 5)), []) /\
  Evaluate "1 + 2 * 3" VNil [] [] = (inr (VNum (F64.of_Z 7)), []).
Proof.
  intros ts left.
  pose proof (precedence_table (H := host) noPrefix noPrefix noPrefix noRegEx noRegEx)
    as Htable.
  cbv zeta in Htable.
  destruct Htable as (_ & _ & _ & _ & _ & _ & _ & _ & _ & Hstops).
  split; [reflexivity |]. split; [reflexivity |].
  split; [| split; reflexivity].
  apply (Hstops 3%nat (parseExpression 2 full) 151 left ts
           [mkToken scanner.Int "3"; mkToken scanner.EOF ""] "+"%string);
    reflexivity.
Defined.

(** ["x" ?? f()] is "x" and leaves the log empty; [nil ?? "y"] is "y". *)
Lemma coalesce_spec_witness :
  full_coalesce (VStr "x") (VStr "y") = inr (VStr "x") /\
  (exists node,
      buildInfix full "??" (constantNode (VStr "x")) callF = Some (inr node) /\
      node tt VNil [] = (inr (VStr "x"), [])) /\
  full_coalesce VNil (VStr "y") = inr (VStr "y") /\
  (exists node,
      buildInfix full "??" (constantNode VNil) (constantNode (VStr "y"))
      = Some (inr node) /\
      node tt VNil [] = (inr (VStr "y"), [])).
Proof.
  pose proof (coalesce_spec (H := host) noPrefix noPrefix noPrefix noRegEx noRegEx
                (VStr "x") (VStr "y")) as [Hkeep _].
  pose proof (coalesce_spec (H := host) noPrefix noPrefix noPrefix noRegEx noRegEx
                VNil (VStr "y")) as [_ Hother].
  destruct (Hkeep eq_refl eq_refl) as (Hv & _ & Hnode).
  destruct (Hother (or_intror eq_refl)) as (Hv' & _ & Hnode').
  split; [exact Hv |].
  split; [exact (Hnode (constantNode (VStr "x")) callF tt VNil [] [] eq_refl) |].
  split; [exact Hv' |].
  exact (Hnode' (constantNode VNil) (constantNode (VStr "y")) tt VNil [] [] []
           eq_refl eq_refl).
Defined.



Lemma no_layout_reads (s : string) :
  (forall layout, parseInLocation layout s = None) \/
  exists t, parseInLocation "2006-01-02" s = Some t.
Proof.
  destruct (parseInLocation "2006-01-02" s) as [t|] eqn:Hs; [right; by exists t |].
  left. intros layout. unfold parseInLocation in *.
  destruct (String.eqb layout "2006-01-02"); [| reflexivity].
  exact Hs.
Qed.

(** ["2021-06-15"] is read by the seventh format, the first that
    matches; ["tomorrow"] is read by none. *)
Lemma date_tries_formats_in_order_witness :
  full_date (H := host) [VStr "2021-06-15"]
  = inr (VTime (mkTime 1623715200000000000 "Local")) /\
  invoke (H := host) (pureFunction (full_date (H := host))) [VStr "tomorrow"] []
  = (inl (mkError FunctionError "date() could not parse tomorrow"), []).
Proof.
  pose proof (date_tries_formats_in_order (H := host) "2021-06-15" [])
    as (_ & Hfirst & _).
  pose proof (date_tries_formats_in_order (H := host) "tomorrow" [])
    as (_ & _ & Hnone & _).
  split.
  - apply (Hfirst 6%nat "2006-01-02"%string); [reflexivity | reflexivity |].
    intros j earlier Hj Hearlier.
    do 6 (destruct j as [|j]; [injection Hearlier as <-; reflexivity |]).
    lia.
  - apply Hnone. intros layout _.
    destruct (no_layout_reads "tomorrow") as [Hall | [t Ht]];
      [apply Hall | discriminate Ht].
Defined.

(** On the example host [2 ** 3 ** 2] is 512 and [(2 ** 3) ** 2] is 64. *)
Lemma power_is_right_associative_witness :
  Evaluate "2 ** 3 ** 2" VNil [] [] = (inr (VNum (F64.of_Z 512)), []) /\
  Evaluate "(2 ** 3) ** 2" VNil [] [] = (inr (VNum (F64.of_Z 64)), []) /\
  Evaluate "2 - 3 - 2" VNil [] [] = (inr (VNum (F64.of_Z (- 3))), []).
Proof.
  pose proof (power_is_right_associative (H := host)
                noPrefix noPrefix noPrefix noRegEx noRegEx VNil []
                (F64.of_Z 2) (F64.of_Z 3) eq_refl eq_refl)
    as (_ & _ & Hleft & _ & Hsub & _ & _ & _ & _ & H512 & _).
  split; [exact (H512 eq_refl eq_refl) |].
  split; [exact Hleft | exact Hsub].
Defined.

(** 6.5 ^ 3 is 6 ^ 3: the fraction of the operand is discarded.
    3 << 62 leaves the range of int64 and wraps to -2^62, 3 << 4 is
    48, 1 << 64 is 0, and -7 >> 1 is -4. *)
Lemma bitmask_operates_on_int64_witness :
  let a := F64.div (F64.of_Z 13) (F64.of_Z 2) in
  F64.to_Q a = Some (7318349394477056 # 1125899906842624)%Q /\
  int64 (H := host) a = 6 /\
  bitmask_xor (H := host) a (F64.of_Z 3)
  = bitmask_xor (H := host) (F64.of_Z 6) (F64.of_Z 3) /\
  bitmask_xor (H := host) a (F64.of_Z 3) = inr (VNum (F64.of_Z 5)) /\
  bitmask_shl (H := host) (F64.of_Z 3) (F64.of_Z 62)
  = inr (VNum (F64.of_Z (- 2 ^ 62))) /\
  bitmask_shl (H := host) (F64.of_Z 3) (F64.of_Z 4) = inr (VNum (F64.of_Z 48)) /\
  bitmask_shl (H := host) (F64.of_Z 1) (F64.of_Z 64) = inr (VNum (F64.of_Z 0)) /\
  bitmask_shr (H := host) (F64.of_Z (-7)) (F64.of_Z 1) = inr (VNum (F64.of_Z (-4))).
Proof.
  intros a.
  pose proof (bitmask_operates_on_int64 (H := host) a (F64.of_Z 3))
    as (Hops & _ & Htrunc & _ & Hsame & _).
  pose proof (bitmask_operates_on_int64 (H := host) (F64.of_Z 3) (F64.of_Z 62))
    as (_ & _ & _ & _ & _ & _ & _ & (r62 & Hshl62 & _ & _ & _ & Honly62 & _) & _).
  pose proof (bitmask_operates_on_int64 (H := host) (F64.of_Z 3) (F64.of_Z 4))
    as (_ & _ & _ & _ & _ & _ & _ & (r4 & Hshl4 & _ & _ & _ & _ & Hfit4 & _) & _).
  pose proof (bitmask_operates_on_int64 (H := host) (F64.of_Z 1) (F64.of_Z 64))
    as (_ & _ & _ & _ & _ & _ & _ & (r64 & Hshl64 & _ & _ & _ & _ & _ & Hbig64) & _).
  pose proof (bitmask_operates_on_int64 (H := host) (F64.of_Z (-7)) (F64.of_Z 1))
    as (_ & _ & _ & _ & _ & _ & _ & _ & (Hshr & _) & _).
  split; [reflexivity |].
  split; [exact (Htrunc _ eq_refl eq_refl) |].
  split.
  { exact (proj1 (proj1 (Hsame (F64.of_Z 6) (F64.of_Z 3) _ _ _ _
                           eq_refl eq_refl eq_refl eq_refl eq_refl eq_refl eq_refl)
                    eq_refl)). }
  split; [exact (proj1 Hops) |].
  split.
  { rewrite Hshl62. rewrite <- (Honly62 (- 2 ^ 62)); [reflexivity | lia | reflexivity]. }
  split.
  { rewrite Hshl4. rewrite (Hfit4 ltac:(vm_compute; split; [discriminate | reflexivity])). reflexivity. }
  split.
  { rewrite Hshl64. rewrite (Hbig64 ltac:(vm_compute; discriminate)). reflexivity. }
  exact Hshr.
Defined.

End Examples.
(** ** Laws of the arithmetic operators *)

Lemma SFcompare_antisym (x y : spec_float) :
  SFcompare y x = option_map CompOpp (SFcompare x y).
Proof.
  destruct x as [sx | sx | | sx mx ex], y as [sy | sy | | sy my ey];
    try reflexivity;
    try (destruct sx; reflexivity); try (destruct sy; reflexivity);
    try (destruct sx, sy; reflexivity).
  cbn [SFcompare option_map].
  rewrite (Z.compare_antisym ex ey).
  change (Pos.compare_cont Eq my mx) with (Pos.compare my mx).
  change (Pos.compare_cont Eq mx my) with (Pos.compare mx my).
  rewrite (Pos.compare_antisym mx my).
  destruct sx, sy; try reflexivity;
    destruct (ex ?= ey); try reflexivity;
    destruct (mx ?= my)%positive; reflexivity.
Qed.

Lemma SFcompare_nan (x y : spec_float) :
  SFcompare x y = None <-> x = S754_nan \/ y = S754_nan.
Proof.
  destruct x as [sx | sx | | sx mx ex], y as [sy | sy | | sy my ey];
    cbn [SFcompare]; split; intros Hc; try discriminate; auto;
    destruct Hc; discriminate.
Qed.

Lemma SFopp_involutive (x : spec_float) : SFopp (SFopp x) = x.
Proof. destruct x; cbn [SFopp]; by rewrite ?negb_involutive. Qed.

Lemma SFsub_add_opp (x y : spec_float) :
  SFsub prec emax x y = SFadd prec emax x (SFopp y).
Proof.
  destruct x as [sx | sx | | sx mx ex], y as [sy | sy | | sy my ey];
    try reflexivity;
    destruct sx, sy; reflexivity.
Qed.

Lemma SFadd_comm (x y : spec_float) :
  SFadd prec emax x y = SFadd prec emax y x.
Proof.
  destruct x as [sx | sx | | sx mx ex], y as [sy | sy | | sy my ey];
    try reflexivity;
    try (destruct sx, sy; reflexivity).
  cbn [SFadd]. rewrite (Z.min_comm ey ex). f_equal. apply Z.add_comm.
Qed.

Lemma SFmul_comm (x y : spec_float) :
  SFmul prec emax x y = SFmul prec emax y x.
Proof.
  destruct x as [sx | sx | | sx mx ex], y as [sy | sy | | sy my ey];
    try reflexivity;
    try (cbn [SFmul]; by rewrite xorb_comm).
  cbn [SFmul].
  by rewrite (xorb_comm sy sx), (Pos.mul_comm my mx), (Z.add_comm ey ex).
Qed.

Section Arithmetic.
Context `{Host}.

(** X1. The six comparisons of Arithmetic on a pair of floats are
    determined by [<], [==] and [>]: [<=] is [<] or [==], [>=] is [>]
    or [==], [!=] is the negation of [==], [a > b] is [b < a] and [==]
    is symmetric. When an operand is NaN the three are false (so [!=]
    is true, also of NaN with itself); otherwise exactly one of them is
    true. *)
Theorem arithmetic_comparisons (a b : float64) :
  exists lt eq gt : bool,
    arithmetic_lt a b = inr (VBool lt) /\
    arithmetic_eq a b = inr (VBool eq) /\
    arithmetic_gt a b = inr (VBool gt) /\
    arithmetic_le a b = inr (VBool (lt || eq)) /\
    arithmetic_ge a b = inr (VBool (gt || eq)) /\
    arithmetic_ne a b = inr (VBool (negb eq)) /\
    arithmetic_lt b a = inr (VBool gt) /\
    arithmetic_gt b a = inr (VBool lt) /\
    arithmetic_eq b a = inr (VBool eq) /\
    (a = S754_nan \/ b = S754_nan ->
       lt = false /\ eq = false /\ gt = false) /\
    (a <> S754_nan -> b <> S754_nan ->
       lt = true /\ eq = false /\ gt = false \/
       lt = false /\ eq = true /\ gt = false \/
       lt = false /\ eq = false /\ gt = true).
Proof.
  exists (F64.ltb a b), (F64.eqb a b), (F64.ltb b a).
  unfold arithmetic_lt, arithmetic_eq, arithmetic_gt, arithmetic_le,
    arithmetic_ge, arithmetic_ne, F64.ltb, F64.eqb, F64.leb,
    SFltb, SFeqb, SFleb.
  rewrite (SFcompare_antisym a b).
  pose proof (SFcompare_nan a b) as Hnan.
  destruct (SFcompare a b) as [[| |]|]; cbn [option_map CompOpp orb negb];
    repeat (split; [reflexivity |]); split.
  all: try (intros Hab; apply Hnan in Hab; discriminate).
  all: try (intros _ _; tauto).
  - intros _. repeat split.
  - intros Ha Hb. destruct (proj1 Hnan eq_refl); contradiction.
Qed.

(** X2. Subtraction is addition of the negation: the value of [a - b] is
    the value of [a + (-b)], with the prefix minus of Base, for every
    pair of floats, NaN, zeros and infinities included; and [+] and [*]
    are commutative. *)
Theorem arithmetic_sub_is_add_neg (c : Context) (a b : float64) :
  (exists nb, base_neg c (VNum b) = inr (VNum nb) /\
              arithmetic_sub a b = arithmetic_add a nb) /\
  arithmetic_add a b = arithmetic_add b a /\
  arithmetic_mul a b = arithmetic_mul b a.
Proof.
  split; [| split].
  - exists (F64.neg b). split; [reflexivity |].
    unfold arithmetic_sub, arithmetic_add, F64.sub, F64.add, F64.neg.
    by rewrite SFsub_add_opp.
  - unfold arithmetic_add, F64.add. by rewrite SFadd_comm.
  - unfold arithmetic_mul, F64.mul. by rewrite SFmul_comm.
Qed.

(** X3. Division by zero is not an error: whatever the dividend, the
    quotient by a zero is a number, namely NaN when the dividend is NaN
    or a zero and else the infinity whose sign is the product of the
    signs. *)
Theorem arithmetic_div_by_zero (a : float64) (sz : bool) :
  exists f, arithmetic_div a (S754_zero sz) = inr (VNum f) /\
    match a with
    | S754_nan | S754_zero _ => f = S754_nan
    | S754_infinity s | S754_finite s _ _ => f = S754_infinity (xorb s sz)
    end.
Proof.
  exists (F64.div a (S754_zero sz)). split; [reflexivity |].
  by destruct a.
Qed.

(** X4. The prefix minus of Base fails exactly on the operands that are
    not numbers; on a number it changes the sign, and two of them give
    the number back, NaN and the zeros included. *)
Theorem base_neg_involutive (c : Context) (v : Value) :
  (convertToFloat v = None <-> exists msg, base_neg c v = inl msg) /\
  (forall x, convertToFloat v = Some x ->
     base_neg c v = inr (VNum (F64.neg x)) /\
     base_neg c (VNum (F64.neg x)) = inr (VNum x)) /\
  (forall x, base_neg c (VNum x) = inr (VNum (F64.neg x)) /\
             F64.eqb (F64.neg x) x
             = match x with S754_zero _ => true | _ => false end).
Proof.
  unfold base_neg. split; [| split].
  - destruct (convertToFloat v); split;
      [discriminate | intros [msg Hm]; discriminate | eauto | reflexivity].
  - intros x ->. split; [reflexivity |].
    cbn [convertToFloat]. unfold F64.neg. by rewrite SFopp_involutive.
  - intros x. split; [reflexivity |].
    unfold F64.eqb, F64.neg, SFeqb.
    destruct x as [s | s | | s m e]; try (destruct s; reflexivity); [reflexivity].
Qed.

End Arithmetic.
(** ** Laws of the propositional operators *)
Section Logic.
Context `{Host}.

(** X5. The short-circuit predicate of [&&] stops exactly on the boolean
    false and that of [||] exactly on the boolean true; a left operand
    that only coerces to that boolean (the number 0, the string "false")
    does not stop. When a predicate stops, the value it returns is the
    value the operator gives for the coerced left operand and every
    right operand. *)
Theorem logic_shortCircuit_agrees (a : Value) :
  (snd (logic_and_shortCircuit a) = true <-> a = VBool false) /\
  (snd (logic_or_shortCircuit a) = true <-> a = VBool true) /\
  (forall v, logic_and_shortCircuit a = (v, true) ->
     exists x, convertToBool a = Some x /\ forall y, logic_and x y = inr v) /\
  (forall v, logic_or_shortCircuit a = (v, true) ->
     exists x, convertToBool a = Some x /\ forall y, logic_or x y = inr v) /\
  (forall x, convertToBool a = Some x -> a <> VBool x ->
     snd (logic_and_shortCircuit a) = false /\
     snd (logic_or_shortCircuit a) = false).
Proof.
  unfold logic_and_shortCircuit, logic_or_shortCircuit, logic_and, logic_or.
  cbn [snd]. split; [| split; [| split; [| split]]].
  - destruct a as [| [] | | | | | | |]; cbn [isFalse]; split;
      (discriminate || reflexivity).
  - destruct a as [| [] | | | | | | |]; cbn [isTrue]; split;
      (discriminate || reflexivity).
  - intros v [= <- Hstop]. destruct a as [| [] | | | | | | |]; try discriminate.
    exists false. split; reflexivity.
  - intros v [= <- Hstop]. destruct a as [| [] | | | | | | |]; try discriminate.
    exists true. split; reflexivity.
  - intros x Hx Hne.
    destruct a as [| b | | | | | | |]; try (split; reflexivity).
    cbn [convertToBool] in Hx. congruence.
Qed.

(** X6. The prefix [!] fails exactly on the operands that do not coerce
    to a boolean; on the others it negates the coerced boolean, and
    negating twice gives that boolean. It obeys the laws of De Morgan
    with [&&] and [||], and [!=] on booleans is the negation of [==]. *)
Theorem logic_not_laws (c : Context) (v : Value) :
  (convertToBool v = None <-> exists msg, logic_not c v = inl msg) /\
  (forall b, convertToBool v = Some b ->
     logic_not c v = inr (VBool (negb b)) /\
     logic_not c (VBool (negb b)) = inr (VBool b)) /\
  (forall x y, exists r nx ny,
     logic_and x y = inr (VBool r) /\
     logic_not c (VBool x) = inr (VBool nx) /\
     logic_not c (VBool y) = inr (VBool ny) /\
     logic_not c (VBool r) = logic_or nx ny) /\
  (forall x y, exists r nx ny,
     logic_or x y = inr (VBool r) /\
     logic_not c (VBool x) = inr (VBool nx) /\
     logic_not c (VBool y) = inr (VBool ny) /\
     logic_not c (VBool r) = logic_and nx ny) /\
  (forall x y, exists r,
     logic_eq x y = inr (VBool r) /\ logic_ne x y = logic_not c (VBool r)).
Proof.
  unfold logic_not. split; [| split; [| split; [| split]]].
  - destruct (convertToBool v); split;
      [discriminate | intros [msg Hm]; discriminate | eauto | reflexivity].
  - intros b ->. split; [reflexivity |].
    cbn [convertToBool]. by rewrite negb_involutive.
  - intros x y. exists (x && y), (negb x), (negb y).
    repeat split. cbn [convertToBool]. unfold logic_or. by rewrite negb_andb.
  - intros x y. exists (x || y), (negb x), (negb y).
    repeat split. cbn [convertToBool]. unfold logic_and. by rewrite negb_orb.
  - intros x y. exists (Bool.eqb x y). split; reflexivity.
Qed.

(** X7. [??] is associative and idempotent, its result is one of its
    operands, the boolean false and nil are left units, and the result
    is false or nil only when the right operand is. *)
Theorem coalesce_laws (a b c : Value) :
  exists ab bc abc,
    full_coalesce a b = inr ab /\
    full_coalesce b c = inr bc /\
    full_coalesce ab c = inr abc /\
    full_coalesce a bc = inr abc /\
    full_coalesce a a = inr a /\
    full_coalesce (VBool false) b = inr b /\
    full_coalesce VNil b = inr b /\
    (ab = a \/ ab = b) /\
    (isFalse ab || isNil ab = true -> isFalse b || isNil b = true).
Proof.
  unfold full_coalesce.
  destruct (isFalse a || isNil a) eqn:Ha, (isFalse b || isNil b) eqn:Hb.
  - exists b, c, c. rewrite Hb. repeat split; auto.
  - exists b, b, b. rewrite Hb. repeat split; auto.
  - exists a, c, a. rewrite Ha. repeat split; auto; discriminate.
  - exists a, b, a. rewrite Ha. repeat split; auto; discriminate.
Qed.

End Logic.

(** ** Laws of the text operators *)

Lemma ascii_compare_refl (c : ascii) : Ascii.compare c c = Eq.
Proof.
  pose proof (Ascii.compare_antisym c c) as Hc.
  destruct (Ascii.compare c c); (reflexivity || discriminate).
Qed.

Lemma string_compare_refl (a : string) : String.compare a a = Eq.
Proof.
  pose proof (String.compare_antisym a a) as Hc.
  destruct (String.compare a a); (reflexivity || discriminate).
Qed.

Lemma string_append_cons (ch : ascii) (a b : string) :
  String ch a +:+ b = String ch (a +:+ b).
Proof. reflexivity. Qed.

Lemma string_compare_append (a b : string) :
  String.compare a (a +:+ b) <> Gt.
Proof.
  induction a as [|ch a IH].
  - by destruct b.
  - rewrite string_append_cons. simpl. rewrite ascii_compare_refl. exact IH.
Qed.

Lemma string_append_assoc (a b c : string) :
  (a +:+ b) +:+ c = a +:+ (b +:+ c).
Proof.
  induction a as [|ch a IH]; [reflexivity |].
  by rewrite !string_append_cons, IH.
Qed.

Lemma string_append_empty_r (a : string) : a +:+ EmptyString = a.
Proof.
  induction a as [|ch a IH]; [reflexivity |].
  by rewrite string_append_cons, IH.
Qed.

Lemma string_append_length (a b : string) :
  String.length (a +:+ b) = (String.length a + String.length b)%nat.
Proof.
  induction a as [|ch a IH]; [reflexivity |].
  rewrite string_append_cons. simpl. by rewrite IH.
Qed.

(** X8. The lexical order of Text is total: [a <= b] is the negation of
    [a > b], [a >= b] the negation of [a < b], [a > b] is [b < a], and
    exactly one of [a < b], [a = b], [a > b] holds. *)
Theorem text_order_total (a b : string) :
  exists lt gt : bool,
    text_lt a b = inr (VBool lt) /\
    text_gt a b = inr (VBool gt) /\
    text_le a b = inr (VBool (negb gt)) /\
    text_ge a b = inr (VBool (negb lt)) /\
    text_lt b a = inr (VBool gt) /\
    text_gt b a = inr (VBool lt) /\
    (lt = true /\ gt = false /\ a <> b \/
     lt = false /\ gt = false /\ a = b \/
     lt = false /\ gt = true /\ a <> b).
Proof.
  exists (String.ltb a b), (String.ltb b a).
  unfold text_lt, text_gt, text_le, text_ge, String.ltb, String.leb.
  rewrite (String.compare_antisym a b).
  pose proof (String.compare_eq_iff b a) as Heq.
  assert (String.compare b a <> Eq -> a <> b) as Hne.
  { intros Hn ->. apply Hn, string_compare_refl. }
  destruct (String.compare b a); cbn [CompOpp negb];
    repeat (split; [reflexivity |]).
  - right; left. repeat split. symmetry. by apply Heq.
  - right; right. repeat split. apply Hne. discriminate.
  - left. repeat split. apply Hne. discriminate.
Qed.

(** X9. The [+] of Text is associative with the empty string as unit,
    and a string is never above its extensions in the lexical order:
    [a <= a + b] for every [b]. *)
Theorem text_concat_laws (a b c : string) :
  exists ab bc : string,
    text_concat a b = inr (VStr ab) /\
    text_concat b c = inr (VStr bc) /\
    text_concat ab c = text_concat a bc /\
    text_concat a EmptyString = inr (VStr a) /\
    text_concat EmptyString a = inr (VStr a) /\
    String.length ab = (String.length a + String.length b)%nat /\
    text_le a ab = inr (VBool true) /\
    text_gt a ab = inr (VBool false).
Proof.
  exists (a +:+ b), (b +:+ c).
  unfold text_concat, text_le, text_gt, String.leb, String.ltb.
  rewrite string_append_assoc, string_append_empty_r.
  repeat (split; [reflexivity |]).
  split; [| split].
  - apply string_append_length.
  - pose proof (string_compare_append a b) as Hc.
    by destruct (String.compare a (a +:+ b)).
  - rewrite (String.compare_antisym (a +:+ b) a).
    pose proof (string_compare_append a b) as Hc.
    by destruct (String.compare a (a +:+ b)).
Qed.
(** ** Edge cases of == and != in Base *)

(** A value that is no sequence is not deep-equal to a sequence: the
    dynamic types differ. *)
Lemma DeepEqual_not_slice (x b : Value) (bb : list Value) :
  asSlice x = None -> asSlice b = Some bb -> DeepEqual x b = false.
Proof. destruct x, b; try discriminate; reflexivity. Qed.

Lemma rangeEqual_false (aa : list Value) (b : Value) :
  (forall x, x ∈ aa -> DeepEqual x b = false) -> rangeEqual aa b = false.
Proof.
  intros Hall. destruct (rangeEqual aa b) eqn:E; [| reflexivity].
  apply rangeEqual_true in E as (x & Hx & Hxb).
  rewrite (Hall x Hx) in Hxb. discriminate.
Qed.

(** X10. With an empty or nil sequence on the left, [==] and [!=] are
    both false whatever the right operand. A sequence none of whose
    elements is a sequence is never [==] to a sequence, itself
    included, and unless it is empty it is [!=] to every sequence: the
    operators compare the elements of the left operand with the whole
    right operand. [==] is not symmetric: for a value [x] that is not a
    sequence and deep-equals itself, [[x] == x] is true and [x == [x]]
    is false. *)
Theorem base_eq_on_sequences (a b : Value) (l : list Value) :
  (asSlice a = Some [] ->
     base_eq a b = inr (VBool false) /\ base_ne a b = inr (VBool false)) /\
  ((forall x, x ∈ l -> asSlice x = None) ->
   forall bb, asSlice b = Some bb ->
     base_eq (VSeq l) b = inr (VBool false) /\
     (l <> [] -> base_ne (VSeq l) b = inr (VBool true)) /\
     base_eq (VSeq l) (VSeq l) = inr (VBool false)) /\
  (asSlice a = None -> DeepEqual a a = true ->
     base_eq (VSeq [a]) a = inr (VBool true) /\
     base_ne (VSeq [a]) a = inr (VBool false) /\
     base_eq a (VSeq [a]) = inr (VBool false) /\
     base_ne a (VSeq [a]) = inr (VBool true)).
Proof.
  split; [| split].
  - unfold base_eq, base_ne. intros ->. split; reflexivity.
  - intros Hflat bb Hb. unfold base_eq, base_ne. cbn [asSlice].
    assert (forall c cc, asSlice c = Some cc -> rangeEqual l c = false) as Heq.
    { intros c cc Hc. apply rangeEqual_false. intros x Hx.
      by apply (DeepEqual_not_slice x c cc); [apply Hflat |]. }
    rewrite (Heq b bb Hb), (Heq (VSeq l) l eq_refl).
    split; [reflexivity |]. split; [| reflexivity].
    intros Hne. destruct l as [|x l']; [congruence |].
    cbn [rangeNotEqual].
    by rewrite (DeepEqual_not_slice x b bb (Hflat x ltac:(left)) Hb).
  - intros Hslice Hrefl. unfold base_eq, base_ne. rewrite Hslice.
    cbn [asSlice rangeEqual rangeNotEqual]. rewrite Hrefl. cbn [negb].
    assert (DeepEqual a (VSeq [a]) = false) as ->
      by (destruct a; try reflexivity; discriminate).
    repeat split.
Qed.

(** ** The date function *)
Section DateOutcomes.
Context `{Host}.

(** X11. [date] answers "date() expects exactly one string argument"
    exactly when its argument list is not a single string; no layout is
    tried then. *)
Theorem date_argument_check (arguments : list Value) :
  full_date arguments = inl "date() expects exactly one string argument"
  <-> forall s, arguments <> [VStr s].
Proof.
  unfold full_date. split.
  - intros Hdate s ->. destruct (rangeFormats dateFormats s); discriminate.
  - intros Hne. destruct arguments as [|a [|a' rest]]; try reflexivity.
    destruct a; try reflexivity. by destruct (Hne s).
Qed.

(** X12. Whatever [date] returns without an error is a time: the
    argument list was a single string, and the time is what the first
    layout of the list that reads the string gives. *)
Theorem date_sound (arguments : list Value) (v : Value) :
  full_date arguments = inr v ->
  exists s i layout t,
    arguments = [VStr s] /\ v = VTime t /\
    dateFormats !! i = Some layout /\
    time_ParseInLocation layout s = Some t /\
    forall j earlier, (j < i)%nat -> dateFormats !! j = Some earlier ->
      time_ParseInLocation earlier s = None.
Proof.
  unfold full_date. intros Hdate.
  destruct arguments as [|a [|a' rest]]; try discriminate.
  destruct a; try discriminate.
  destruct (rangeFormats dateFormats s) as [t|] eqn:Hrange; [| discriminate].
  injection Hdate as <-.
  destruct (rangeFormats_cases dateFormats s)
    as [(i & layout & ret & Hi & Hparse & Hfirst) | Hnone].
  - rewrite (rangeFormats_first _ _ _ _ _ Hi Hparse Hfirst) in Hrange.
    injection Hrange as ->. by exists s, i, layout, t.
  - rewrite (rangeFormats_none _ _ Hnone) in Hrange. discriminate.
Qed.

End DateOutcomes.
(** ** What the built-in languages contain *)
Section Contents.
Context `{Host}.
Variables parseIdent parseJSONArray parseJSONObject : PrefixHandler.
Variables regEx notRegEx : Evaluable -> Evaluable -> Error + Evaluable.

Infix "⊕" := union (at level 50, left associativity).

#[local] Abbreviation Base' := (Base parseIdent).
#[local] Abbreviation Arithmetic' := (Arithmetic parseIdent).
#[local] Abbreviation Text' := (Text parseIdent regEx notRegEx).
#[local] Abbreviation PropositionalLogic' := (PropositionalLogic parseIdent).
#[local] Abbreviation TheFull :=
  (Full parseIdent parseJSONArray parseJSONObject regEx notRegEx).
#[local] Abbreviation TheEvaluate :=
  (Evaluate parseIdent parseJSONArray parseJSONObject regEx notRegEx).

Lemma NewLanguage_ends_with (xs : list Language) (B : Language) :
  last xs = Some B -> NewLanguage xs ⊕ B = NewLanguage xs.
Proof.
  intros (xs' & ->)%last_Some.
  by rewrite NewLanguage_snoc, union_assoc, union_idemp.
Qed.

(** X13. Arithmetic, Text and PropositionalLogic end with Base, so
    adding Base to one of them changes nothing; Bitmask is built without
    Base: it has the prefix [~] and the five number operators only, with
    no literal, no parenthesis, no [==] and no precedence, and adding
    Base to it does change it. *)
Theorem languages_with_base :
  Arithmetic' ⊕ Base' = Arithmetic' /\
  Text' ⊕ Base' = Text' /\
  PropositionalLogic' ⊕ Base' = PropositionalLogic' /\
  dom (prefixes Bitmask) = {[ inr "~" ]} /\
  dom (numberOperators Bitmask) = {[ "^"; "&"; "|"; "<<"; ">>" ]} /\
  arbitraryOperators Bitmask = ∅ /\
  precedences Bitmask = ∅ /\
  prefixes Bitmask !! inl scanner.Int = None /\
  prefixes (Bitmask ⊕ Base') !! inl scanner.Int = Some parseNumber.
Proof.
  split; [| split; [| split]].
  - unfold Arithmetic, Base, arithmetic.
    apply NewLanguage_ends_with. reflexivity.
  - unfold Text, Base, text.
    apply NewLanguage_ends_with. reflexivity.
  - unfold PropositionalLogic, Base, propositionalLogic.
    apply NewLanguage_ends_with. reflexivity.
  - split; [reflexivity |]. split; [reflexivity |].
    split; [reflexivity |]. split; [reflexivity |].
    split; reflexivity.
Qed.

(** X14. In Bitmask alone no expression can start with a literal or an
    identifier: the parser finds no prefix for the token and fails
    before it reads further. *)
Theorem Bitmask_parses_no_literal (fuel : nat) (minPrec : Z)
    (t : Token) (ts : list Token) :
  tok_kind t < 0 -> tok_lit t <> "~" ->
  parseExpression (S fuel) Bitmask minPrec (t :: ts)
  = inl (expected "an expression").
Proof.
  intros Hkind Hlit. cbn [parseExpression].
  assert (prefixes Bitmask
          = {[ inr "~" := fun (p : Parser) (_ : Token) =>
                 pbind (parseSubExpression p operandPrecedence)
                   (fun operand => pret (prefixNode bitmask_not operand)) ]})
    as Hprefixes by reflexivity.
  assert (selectPrefix Bitmask (t :: ts) = None) as ->; [| reflexivity].
  unfold selectPrefix. rewrite Hprefixes.
  rewrite !lookup_singleton_ne by congruence.
  assert ((tok_kind t <? 0) = true) as -> by (apply Z.ltb_lt; exact Hkind).
  by destruct (tok_kind t =? scanner.Ident).
Qed.

(** X15. [Evaluate] evaluates in the language [Full] returns for the
    same options, and extending Full in two steps is extending it at
    once. *)
Theorem Evaluate_in_Full (expression : string) (parameter : Value)
    (opts more : list Language) :
  TheEvaluate expression parameter opts
  = Language_Evaluate (TheFull opts) expression parameter /\
  TheFull (opts ++ more) = NewLanguage (TheFull opts :: more) /\
  TheEvaluate expression parameter (opts ++ more)
  = Language_Evaluate (NewLanguage (TheFull opts :: more)) expression parameter.
Proof.
  assert (forall xs,
            TheEvaluate expression parameter xs
            = Language_Evaluate (TheFull xs) expression parameter) as Heval
    by (intros [|x xs]; unfold Evaluate, Full;
        cbn [length Nat.ltb Nat.leb Nat.eqb]; reflexivity).
  assert (TheFull (opts ++ more) = NewLanguage (TheFull opts :: more)) as Hfull.
  { rewrite NewLanguage_cons.
    assert (forall xs, TheFull xs = foldl union (full parseIdent parseJSONArray
              parseJSONObject regEx notRegEx) xs) as Hfold.
    { intros [|x xs]; unfold Full; cbn [length Nat.eqb].
      - cbn [foldl]. reflexivity.
      - apply NewLanguage_cons. }
    rewrite !Hfold. apply foldl_app. }
  split; [apply Heval |]. split; [exact Hfull |].
  by rewrite Heval, Hfull.
Qed.

End Contents.
(** ** The bitmask operators on integers *)

(** The bits of a natural number below [2^k] vanish from position [k]
    on. *)
Lemma low_bits (k x : Z) :
  0 <= k -> (0 <= x < 2 ^ k <-> forall n, k <= n -> Z.testbit x n = false).
Proof.
  intros Hk. split.
  - intros [Hlo Hhi] n Hn. destruct (Z.eq_dec x 0) as [-> | Hx].
    + apply Z.bits_0.
    + apply Z.bits_above_log2; [exact Hlo |].
      assert (Z.log2 x < k) by (apply Z.log2_lt_pow2; lia). lia.
  - intros Hbits.
    assert (0 <= x) as Hlo.
    { apply (Z.bits_iff_nonneg x (Z.max k (Z.log2 (Z.abs x) + 1))); [lia |].
      apply Hbits. lia. }
    split; [exact Hlo |].
    destruct (Z.lt_ge_cases x (2 ^ k)) as [Hlt | Hge]; [exact Hlt | exfalso].
    assert (0 < 2 ^ k) by (apply Z.pow_pos_nonneg; lia).
    assert (0 < x) as Hpos by lia.
    pose proof (Z.bit_log2 x Hpos) as Hbit.
    rewrite Hbits in Hbit; [discriminate |].
    apply Z.log2_le_pow2; lia.
Qed.

(** A two's complement integer of [k + 1] bits repeats its sign bit
    above. *)
Lemma signed_bits (k x : Z) :
  0 <= k ->
  (- 2 ^ k <= x < 2 ^ k <-> forall n, k <= n -> Z.testbit x n = Z.testbit x k).
Proof.
  intros Hk. split.
  - intros Hx n Hn. destruct (Z.lt_ge_cases x 0) as [Hneg | Hpos].
    + assert (0 <= Z.lnot x < 2 ^ k) as Hsmall by (unfold Z.lnot; lia).
      pose proof (proj1 (low_bits k _ Hk) Hsmall) as Hbits.
      assert (forall i, 0 <= i -> Z.testbit x i = negb (Z.testbit (Z.lnot x) i)) as Hnot.
      { intros i Hi. rewrite Z.lnot_spec by exact Hi. by rewrite negb_involutive. }
      rewrite (Hnot n), (Hnot k) by lia.
      by rewrite (Hbits n Hn), (Hbits k) by lia.
    + assert (0 <= x < 2 ^ k) as Hsmall by lia.
      pose proof (proj1 (low_bits k _ Hk) Hsmall) as Hbits.
      by rewrite (Hbits n Hn), (Hbits k) by lia.
  - intros Hbits. destruct (Z.testbit x k) eqn:Hsign.
    + assert (0 <= Z.lnot x < 2 ^ k) as Hsmall.
      { apply (low_bits k _ Hk). intros n Hn.
        rewrite Z.lnot_spec by lia. by rewrite (Hbits n Hn). }
      unfold Z.lnot in Hsmall. lia.
    + assert (0 <= x < 2 ^ k) as Hsmall by (apply (low_bits k _ Hk); exact Hbits).
      lia.
Qed.

Lemma lxor_signed (k x y : Z) :
  0 <= k -> - 2 ^ k <= x < 2 ^ k -> - 2 ^ k <= y < 2 ^ k ->
  - 2 ^ k <= Z.lxor x y < 2 ^ k.
Proof.
  intros Hk. rewrite !(signed_bits k _ Hk). intros Hx Hy n Hn.
  by rewrite !Z.lxor_spec, (Hx n Hn), (Hy n Hn).
Qed.

Lemma land_signed (k x y : Z) :
  0 <= k -> - 2 ^ k <= x < 2 ^ k -> - 2 ^ k <= y < 2 ^ k ->
  - 2 ^ k <= Z.land x y < 2 ^ k.
Proof.
  intros Hk. rewrite !(signed_bits k _ Hk). intros Hx Hy n Hn.
  by rewrite !Z.land_spec, (Hx n Hn), (Hy n Hn).
Qed.

Lemma lor_signed (k x y : Z) :
  0 <= k -> - 2 ^ k <= x < 2 ^ k -> - 2 ^ k <= y < 2 ^ k ->
  - 2 ^ k <= Z.lor x y < 2 ^ k.
Proof.
  intros Hk. rewrite !(signed_bits k _ Hk). intros Hx Hy n Hn.
  by rewrite !Z.lor_spec, (Hx n Hn), (Hy n Hn).
Qed.

Lemma Qtrunc_inject_Z (q : Q) (r : Z) : (q == inject_Z r)%Q -> F64.Qtrunc q = r.
Proof.
  intros Hq. unfold F64.Qtrunc.
  destruct (Qle_bool 0 q).
  - rewrite (Qfloor_comp _ _ Hq). apply Qfloor_Z.
  - rewrite (Qceiling_comp _ _ Hq). apply Qceiling_Z.
Qed.

Section BitmaskIntegers.
Context `{Host}.

(** A float that holds an integer of magnitude at most 2^53 converts
    back to that integer. *)
Lemma int64_of_Z (r : Z) :
  - 2 ^ 53 <= r <= 2 ^ 53 -> int64 (F64.of_Z r) = r.
Proof.
  intros Hr. destruct (of_Z_exact r Hr) as (q & Hq & Heq).
  pose proof (Qtrunc_inject_Z q r Heq) as Htrunc.
  rewrite (int64_truncates _ q Hq); [exact Htrunc |].
  rewrite Htrunc. apply inInt64_spec. lia.
Qed.

Lemma uint64_of_Z (r : Z) :
  0 <= r <= 2 ^ 53 -> uint64 (F64.of_Z r) = r.
Proof.
  intros Hr. destruct (of_Z_exact r ltac:(lia)) as (q & Hq & Heq).
  pose proof (Qtrunc_inject_Z q r Heq) as Htrunc.
  rewrite (uint64_truncates _ q Hq); [exact Htrunc |].
  rewrite Htrunc. apply inUint64_spec. lia.
Qed.

(** X16. On floats that hold integers of at most 54 bits the Bitmask
    operators are the operations on integers, without loss: [^], [&]
    and [|] give the float of the bitwise result and [~x] is
    [-x - 1]. *)
Theorem bitmask_on_integers (c : Context) (x y : Z) :
  - 2 ^ 53 <= x < 2 ^ 53 -> - 2 ^ 53 <= y < 2 ^ 53 ->
  bitmask_xor (F64.of_Z x) (F64.of_Z y) = inr (VNum (F64.of_Z (Z.lxor x y))) /\
  bitmask_and (F64.of_Z x) (F64.of_Z y) = inr (VNum (F64.of_Z (Z.land x y))) /\
  bitmask_or (F64.of_Z x) (F64.of_Z y) = inr (VNum (F64.of_Z (Z.lor x y))) /\
  bitmask_not c (VNum (F64.of_Z x)) = inr (VNum (F64.of_Z (- x - 1))) /\
  - 2 ^ 53 <= Z.lxor x y < 2 ^ 53 /\
  - 2 ^ 53 <= Z.land x y < 2 ^ 53 /\
  - 2 ^ 53 <= Z.lor x y < 2 ^ 53 /\
  - 2 ^ 53 <= - x - 1 < 2 ^ 53.
Proof.
  intros Hx Hy.
  unfold bitmask_xor, bitmask_and, bitmask_or, bitmask_not.
  cbn [convertToFloat].
  rewrite !int64_of_Z by lia.
  repeat split; try lia;
    first [ apply lxor_signed | apply land_signed | apply lor_signed
          | f_equal; f_equal; f_equal; unfold Z.lnot; lia ]; lia.
Qed.

(** X17. Round trips of the Bitmask operators on integers of at most 54
    bits: [(x ^ y) ^ y] is [x], [~~x] is [x], and [~(x & y)] is
    [~x | ~y]. *)
Theorem bitmask_round_trips (c : Context) (x y : Z) :
  - 2 ^ 53 <= x < 2 ^ 53 -> - 2 ^ 53 <= y < 2 ^ 53 ->
  (exists z, bitmask_xor (F64.of_Z x) (F64.of_Z y) = inr (VNum z) /\
             bitmask_xor z (F64.of_Z y) = inr (VNum (F64.of_Z x))) /\
  (exists z, bitmask_not c (VNum (F64.of_Z x)) = inr (VNum z) /\
             bitmask_not c (VNum z) = inr (VNum (F64.of_Z x))) /\
  (exists z nx ny,
     bitmask_and (F64.of_Z x) (F64.of_Z y) = inr (VNum z) /\
     bitmask_not c (VNum (F64.of_Z x)) = inr (VNum nx) /\
     bitmask_not c (VNum (F64.of_Z y)) = inr (VNum ny) /\
     bitmask_not c (VNum z) = bitmask_or nx ny).
Proof.
  intros Hx Hy.
  pose proof (lxor_signed 53 x y ltac:(lia) Hx Hy) as Hxor.
  pose proof (land_signed 53 x y ltac:(lia) Hx Hy) as Hand.
  unfold bitmask_xor, bitmask_and, bitmask_or, bitmask_not.
  cbn [convertToFloat].
  rewrite !int64_of_Z by lia.
  split; [| split].
  - eexists. split; [reflexivity |].
    rewrite !int64_of_Z by lia.
    by rewrite Z.lxor_assoc, Z.lxor_nilpotent, Z.lxor_0_r.
  - eexists. split; [reflexivity |].
    rewrite !int64_of_Z by (unfold Z.lnot; lia).
    by rewrite Z.lnot_involutive.
  - eexists _, _, _. repeat (split; [reflexivity |]).
    rewrite !int64_of_Z by (unfold Z.lnot; lia).
    do 3 f_equal. apply Z.bits_inj'. intros n Hn.
    rewrite Z.lor_spec, !Z.lnot_spec, Z.land_spec by exact Hn.
    apply negb_andb.
Qed.

(** X18. Shifts on integers: when [x * 2^n] has at most 54 bits,
    [x << n] is [x * 2^n] and shifting it back by [n] gives [x]; [>>]
    is the division by [2^n] rounded down. A shift count from 64 on
    (up to 2^53) gives 0 for [<<] and the sign, 0 or -1, for [>>],
    whatever the left operand. *)
Theorem bitmask_shifts (a : float64) (x n : Z) :
  0 <= n <= 2 ^ 53 -> - 2 ^ 53 <= x <= 2 ^ 53 ->
  (- 2 ^ 53 <= x * 2 ^ n <= 2 ^ 53 ->
     bitmask_shl (F64.of_Z x) (F64.of_Z n) = inr (VNum (F64.of_Z (x * 2 ^ n))) /\
     bitmask_shr (F64.of_Z (x * 2 ^ n)) (F64.of_Z n) = inr (VNum (F64.of_Z x))) /\
  bitmask_shr (F64.of_Z x) (F64.of_Z n) = inr (VNum (F64.of_Z (x / 2 ^ n))) /\
  (64 <= n ->
     bitmask_shl a (F64.of_Z n) = inr (VNum (F64.of_Z 0)) /\
     bitmask_shr a (F64.of_Z n)
     = inr (VNum (F64.of_Z (if int64 a <? 0 then -1 else 0)))).
Proof.
  intros Hn Hx. unfold bitmask_shl, bitmask_shr.
  rewrite (uint64_of_Z n) by lia. rewrite !(int64_of_Z x) by lia.
  assert (0 < 2 ^ n) as Hpow by (apply Z.pow_pos_nonneg; lia).
  split; [| split].
  - intros Hfit. rewrite (int64_of_Z (x * 2 ^ n)) by lia.
    rewrite Z.shiftl_mul_pow2, Z.shiftr_div_pow2 by lia.
    rewrite wrap64_id by (apply inInt64_spec; lia).
    by rewrite Z.div_mul by lia.
  - by rewrite Z.shiftr_div_pow2 by lia.
  - intros Hbig. pose proof (int64_range a) as Ha%inInt64_spec.
    rewrite Z.shiftl_mul_pow2, Z.shiftr_div_pow2 by lia.
    assert (2 ^ n = 2 ^ (n - 64) * 2 ^ 64) as Hsplit
      by (rewrite <- Z.pow_add_r by lia; f_equal; lia).
    split.
    + do 3 f_equal. unfold wrap64.
      rewrite Hsplit, Z.mul_assoc, Z.add_comm, Z.mod_add by lia.
      reflexivity.
    + do 3 f_equal.
      assert (2 ^ 63 <= 2 ^ n) by (apply Z.pow_le_mono_r; lia).
      destruct (int64 a <? 0) eqn:Hsign.
      * apply Z.ltb_lt in Hsign.
        symmetry. apply (Z.div_unique_pos _ _ (-1) (int64 a + 2 ^ n)); lia.
      * apply Z.ltb_ge in Hsign. apply Z.div_small. lia.
Qed.

End BitmaskIntegers.
(** ** The comparison helpers *)

Lemma Kind_index_inj (k k' : reflect.Kind) :
  reflect.Kind_index k = reflect.Kind_index k' -> k = k'.
Proof. destruct k, k'; intros E; (reflexivity || discriminate E). Qed.

Lemma Kind_eqb_eq (k k' : reflect.Kind) :
  reflect.Kind_eqb k k' = true <-> k = k'.
Proof.
  unfold reflect.Kind_eqb. rewrite Z.eqb_eq. split; [apply Kind_index_inj | by intros ->].
Qed.

Lemma Type_eqb_eq (t u : reflect.Type_) :
  reflect.Type_eqb t u = true <-> t = u.
Proof.
  unfold reflect.Type_eqb. rewrite andb_true_iff, Kind_eqb_eq, String.eqb_eq.
  destruct t, u; cbn. split; [intros [-> ->]; reflexivity | intros [= -> ->]; auto].
Qed.

Lemma Type_eqb_refl (t : reflect.Type_) : reflect.Type_eqb t t = true.
Proof. by apply Type_eqb_eq. Qed.

Lemma Type_eqb_sym (t u : reflect.Type_) :
  reflect.Type_eqb t u = reflect.Type_eqb u t.
Proof.
  destruct (reflect.Type_eqb t u) eqn:E.
  - apply Type_eqb_eq in E as ->. symmetry. apply Type_eqb_refl.
  - destruct (reflect.Type_eqb u t) eqn:E'; [| reflexivity].
    apply Type_eqb_eq in E' as ->. by rewrite Type_eqb_refl in E.
Qed.

Lemma Type_eqb_false (t u : reflect.Type_) :
  reflect.Type_eqb t u = false <-> t <> u.
Proof.
  rewrite <- Type_eqb_eq. by destruct (reflect.Type_eqb t u).
Qed.

Lemma assertInt_Some (k : reflect.Kind) (a : Operand) (z : Z) :
  assertInt k a = Some z <-> a = intOperand k z.
Proof.
  unfold assertInt, intOperand. split.
  - destruct a as [|t [| x | |]]; try discriminate.
    destruct (reflect.Type_eqb t (reflect.predeclared k)) eqn:E; [| discriminate].
    apply Type_eqb_eq in E as ->. by intros [= ->].
  - intros ->. by rewrite Type_eqb_refl.
Qed.

Lemma assertFloat_Some (k : reflect.Kind) (a : Operand) (f : spec_float) :
  assertFloat k a = Some f <-> a = floatOperand k f.
Proof.
  unfold assertFloat, floatOperand. split.
  - destruct a as [|t [| | x |]]; try discriminate.
    destruct (reflect.Type_eqb t (reflect.predeclared k)) eqn:E; [| discriminate].
    apply Type_eqb_eq in E as ->. by intros [= ->].
  - intros ->. by rewrite Type_eqb_refl.
Qed.

Lemma assertBool_Some (a : Operand) (x : bool) :
  assertBool a = Some x <-> a = OVal (reflect.predeclared reflect.Bool) (DBool x).
Proof.
  unfold assertBool. split.
  - destruct a as [|t [y | | |]]; try discriminate.
    destruct (reflect.Type_eqb t (reflect.predeclared reflect.Bool)) eqn:E;
      [| discriminate].
    apply Type_eqb_eq in E as ->. by intros [= ->].
  - intros ->. by rewrite Type_eqb_refl.
Qed.

Lemma compared_Some {A : Type} (op : A -> A -> bool) (x y : option A) (r : bool) :
  compared op x y = Some r <-> exists u v, x = Some u /\ y = Some v /\ op u v = r.
Proof.
  unfold compared. destruct x as [u|], y as [v|]; split;
    try discriminate; try (intros (? & ? & ? & ? & ?); discriminate).
  - intros [= <-]. by exists u, v.
  - intros (? & ? & [= <-] & [= <-] & <-). reflexivity.
Qed.

Lemma compared_None {A : Type} (op : A -> A -> bool) (x y : option A) :
  compared op x y = None <-> x = None \/ y = None.
Proof.
  unfold compared. destruct x, y; split; try discriminate; auto;
    intros [|]; discriminate.
Qed.

(** The switch of each helper, by the family of the kind. *)
Lemma compareLessThan_switch (t u : reflect.Type_) (d e : Data) :
  compareLessThan (OVal t d) (OVal u e) =
  let k := reflect.Kind_of t in
  if negb (reflect.Type_eqb t u) then Some false
  else if isIntKind k then
    compared Z.ltb (assertInt k (OVal t d)) (assertInt k (OVal u e))
  else if isFloatKind k then
    compared SFltb (assertFloat k (OVal t d)) (assertFloat k (OVal u e))
  else Some false.
Proof.
  unfold compareLessThan. cbv zeta.
  destruct (negb (reflect.Type_eqb t u)); [reflexivity |].
  destruct (reflect.Kind_of t); reflexivity.
Qed.

Lemma compareLessEqualThan_switch (t u : reflect.Type_) (d e : Data) :
  compareLessEqualThan (OVal t d) (OVal u e) =
  let k := reflect.Kind_of t in
  if negb (reflect.Type_eqb t u) then Some false
  else if isIntKind k then
    compared Z.leb (assertInt k (OVal t d)) (assertInt k (OVal u e))
  else if isFloatKind k then
    compared SFleb (assertFloat k (OVal t d)) (assertFloat k (OVal u e))
  else Some false.
Proof.
  unfold compareLessEqualThan. cbv zeta.
  destruct (negb (reflect.Type_eqb t u)); [reflexivity |].
  destruct (reflect.Kind_of t); reflexivity.
Qed.

Lemma compareGreaterThan_switch (t u : reflect.Type_) (d e : Data) :
  compareGreaterThan (OVal t d) (OVal u e) =
  let k := reflect.Kind_of t in
  let answer (r : option bool) :=
    match r with
    | Some v => Some (ValBool v, None)
    | None => None
    end in
  ([reflect.Kind_String k],
   if negb (reflect.Kind_eqb k (reflect.Kind_of u)) then
     Some (ValString ("invalid operation (" +:+ reflect.Kind_String k +:+ ") > ("
                      +:+ reflect.Kind_String (reflect.Kind_of u) +:+ ")"), None)
   else if isIntKind k then
     answer (compared Z.gtb (assertInt k (OVal t d)) (assertInt k (OVal u e)))
   else if isFloatKind k then
     answer (compared (fun x y => SFltb y x)
               (assertFloat k (OVal t d)) (assertFloat k (OVal u e)))
   else Some (ValBool false, None)).
Proof.
  unfold compareGreaterThan. cbv zeta.
  destruct (negb (reflect.Kind_eqb (reflect.Kind_of t) (reflect.Kind_of u)));
    [reflexivity |].
  destruct (reflect.Kind_of t); cbn [isIntKind isFloatKind];
    match goal with
    | |- context [compared ?op ?x ?y] => destruct (compared op x y)
    | _ => idtac
    end; reflexivity.
Qed.

Lemma compareGreaterEqualThan_switch (t u : reflect.Type_) (d e : Data) :
  compareGreaterEqualThan (OVal t d) (OVal u e) =
  let k := reflect.Kind_of t in
  let answer (r : option bool) :=
    match r with
    | Some v => Some (ValBool v, None)
    | None => None
    end in
  if negb (reflect.Kind_eqb k (reflect.Kind_of u)) then
    Some (ValError "invalid operation", None)
  else if reflect.Kind_eqb k reflect.Bool then
    answer (compared Bool.eqb (assertBool (OVal t d)) (assertBool (OVal u e)))
  else if isIntKind k then
    answer (compared Z.geb (assertInt k (OVal t d)) (assertInt k (OVal u e)))
  else if isFloatKind k then
    answer (compared (fun x y => SFleb y x)
              (assertFloat k (OVal t d)) (assertFloat k (OVal u e)))
  else Some (ValNil, None).
Proof.
  unfold compareGreaterEqualThan. cbv zeta.
  destruct (negb (reflect.Kind_eqb (reflect.Kind_of t) (reflect.Kind_of u)));
    [reflexivity |].
  destruct (reflect.Kind_of t); reflexivity.
Qed.
(** The kinds of each family, one by one. *)
Lemma isIntKind_cases (k : reflect.Kind) :
  isIntKind k = true <->
  k = reflect.Int \/ k = reflect.Int8 \/ k = reflect.Int16 \/ k = reflect.Int32
  \/ k = reflect.Int64 \/ k = reflect.Uint \/ k = reflect.Uint8
  \/ k = reflect.Uint16 \/ k = reflect.Uint32 \/ k = reflect.Uint64.
Proof.
  destruct k; split; intros Hk; try reflexivity; try discriminate Hk;
    try tauto; repeat (destruct Hk as [Hk | Hk]; try discriminate Hk).
Qed.

Lemma isFloatKind_cases (k : reflect.Kind) :
  isFloatKind k = true <-> k = reflect.Float32 \/ k = reflect.Float64.
Proof.
  destruct k; split; intros Hk; try reflexivity; try discriminate Hk;
    try tauto; repeat (destruct Hk as [Hk | Hk]; try discriminate Hk).
Qed.

Lemma isNumericKind_cases (k : reflect.Kind) :
  isNumericKind k = true <->
  k = reflect.Int \/ k = reflect.Int8 \/ k = reflect.Int16 \/ k = reflect.Int32
  \/ k = reflect.Int64 \/ k = reflect.Uint \/ k = reflect.Uint8
  \/ k = reflect.Uint16 \/ k = reflect.Uint32 \/ k = reflect.Uint64
  \/ k = reflect.Float32 \/ k = reflect.Float64.
Proof.
  unfold isNumericKind. rewrite orb_true_iff, isIntKind_cases, isFloatKind_cases.
  tauto.
Qed.

Lemma Kind_eqb_refl (k : reflect.Kind) : reflect.Kind_eqb k k = true.
Proof. by apply Kind_eqb_eq. Qed.

Lemma isFloatKind_not_int (k : reflect.Kind) :
  isFloatKind k = true -> isIntKind k = false.
Proof. destruct k; (reflexivity || discriminate). Qed.

Lemma isIntKind_not_bool (k : reflect.Kind) :
  isIntKind k = true -> reflect.Kind_eqb k reflect.Bool = false.
Proof. destruct k; (reflexivity || discriminate). Qed.

Lemma isFloatKind_not_bool (k : reflect.Kind) :
  isFloatKind k = true -> reflect.Kind_eqb k reflect.Bool = false.
Proof. destruct k; (reflexivity || discriminate). Qed.

Lemma assertInt_intOperand (k : reflect.Kind) (x : Z) :
  assertInt k (intOperand k x) = Some x.
Proof. by apply assertInt_Some. Qed.

Lemma assertFloat_floatOperand (k : reflect.Kind) (f : spec_float) :
  assertFloat k (floatOperand k f) = Some f.
Proof. by apply assertFloat_Some. Qed.

(** The helpers on two operands of one predeclared numeric type. *)
Lemma compareLessThan_int (k : reflect.Kind) (x y : Z) :
  isIntKind k = true ->
  compareLessThan (intOperand k x) (intOperand k y) = Some (x <? y).
Proof.
  intros Hk. unfold intOperand at 1 2. rewrite compareLessThan_switch. cbv zeta.
  rewrite Type_eqb_refl. cbn [negb reflect.Kind_of reflect.predeclared].
  rewrite Hk. fold (intOperand k x) (intOperand k y).
  by rewrite !assertInt_intOperand.
Qed.

Lemma compareLessThan_float (k : reflect.Kind) (f g : spec_float) :
  isFloatKind k = true ->
  compareLessThan (floatOperand k f) (floatOperand k g) = Some (SFltb f g).
Proof.
  intros Hk. unfold floatOperand at 1 2. rewrite compareLessThan_switch. cbv zeta.
  rewrite Type_eqb_refl. cbn [negb reflect.Kind_of reflect.predeclared].
  rewrite (isFloatKind_not_int k Hk), Hk. fold (floatOperand k f) (floatOperand k g).
  by rewrite !assertFloat_floatOperand.
Qed.

Lemma compareLessEqualThan_int (k : reflect.Kind) (x y : Z) :
  isIntKind k = true ->
  compareLessEqualThan (intOperand k x) (intOperand k y) = Some (x <=? y).
Proof.
  intros Hk. unfold intOperand at 1 2. rewrite compareLessEqualThan_switch. cbv zeta.
  rewrite Type_eqb_refl. cbn [negb reflect.Kind_of reflect.predeclared].
  rewrite Hk. fold (intOperand k x) (intOperand k y).
  by rewrite !assertInt_intOperand.
Qed.

Lemma compareLessEqualThan_float (k : reflect.Kind) (f g : spec_float) :
  isFloatKind k = true ->
  compareLessEqualThan (floatOperand k f) (floatOperand k g) = Some (SFleb f g).
Proof.
  intros Hk. unfold floatOperand at 1 2. rewrite compareLessEqualThan_switch. cbv zeta.
  rewrite Type_eqb_refl. cbn [negb reflect.Kind_of reflect.predeclared].
  rewrite (isFloatKind_not_int k Hk), Hk. fold (floatOperand k f) (floatOperand k g).
  by rewrite !assertFloat_floatOperand.
Qed.

Lemma compareGreaterThan_int (k : reflect.Kind) (x y : Z) :
  isIntKind k = true ->
  compareGreaterThan (intOperand k x) (intOperand k y)
  = ([reflect.Kind_String k], Some (ValBool (y <? x), None)).
Proof.
  intros Hk. unfold intOperand at 1 2. rewrite compareGreaterThan_switch. cbv zeta.
  cbn [reflect.Kind_of reflect.predeclared]. rewrite Kind_eqb_refl. cbn [negb].
  rewrite Hk. fold (intOperand k x) (intOperand k y).
  rewrite !assertInt_intOperand. cbn [compared]. by rewrite Z.gtb_ltb.
Qed.

Lemma compareGreaterThan_float (k : reflect.Kind) (f g : spec_float) :
  isFloatKind k = true ->
  compareGreaterThan (floatOperand k f) (floatOperand k g)
  = ([reflect.Kind_String k], Some (ValBool (SFltb g f), None)).
Proof.
  intros Hk. unfold floatOperand at 1 2. rewrite compareGreaterThan_switch. cbv zeta.
  cbn [reflect.Kind_of reflect.predeclared]. rewrite Kind_eqb_refl. cbn [negb].
  rewrite (isFloatKind_not_int k Hk), Hk. fold (floatOperand k f) (floatOperand k g).
  by rewrite !assertFloat_floatOperand.
Qed.

Lemma compareGreaterEqualThan_int (k : reflect.Kind) (x y : Z) :
  isIntKind k = true ->
  compareGreaterEqualThan (intOperand k x) (intOperand k y)
  = Some (ValBool (y <=? x), None).
Proof.
  intros Hk. unfold intOperand at 1 2. rewrite compareGreaterEqualThan_switch. cbv zeta.
  cbn [reflect.Kind_of reflect.predeclared]. rewrite Kind_eqb_refl. cbn [negb].
  rewrite (isIntKind_not_bool k Hk), Hk. fold (intOperand k x) (intOperand k y).
  rewrite !assertInt_intOperand. cbn [compared]. by rewrite Z.geb_leb.
Qed.

Lemma compareGreaterEqualThan_float (k : reflect.Kind) (f g : spec_float) :
  isFloatKind k = true ->
  compareGreaterEqualThan (floatOperand k f) (floatOperand k g)
  = Some (ValBool (SFleb g f), None).
Proof.
  intros Hk. unfold floatOperand at 1 2. rewrite compareGreaterEqualThan_switch. cbv zeta.
  cbn [reflect.Kind_of reflect.predeclared]. rewrite Kind_eqb_refl. cbn [negb].
  rewrite (isFloatKind_not_bool k Hk), (isFloatKind_not_int k Hk), Hk.
  fold (floatOperand k f) (floatOperand k g).
  by rewrite !assertFloat_floatOperand.
Qed.

(** Two operands a helper reads without a panic in a numeric case. *)
Lemma compared_int_inv (op : Z -> Z -> bool) (k : reflect.Kind) (a b : Operand)
    (r : bool) :
  compared op (assertInt k a) (assertInt k b) = Some r ->
  exists x y, a = intOperand k x /\ b = intOperand k y /\ op x y = r.
Proof.
  intros (x & y & Hx & Hy & Hr)%compared_Some.
  apply assertInt_Some in Hx. apply assertInt_Some in Hy. by exists x, y.
Qed.

Lemma compared_float_inv (op : spec_float -> spec_float -> bool)
    (k : reflect.Kind) (a b : Operand) (r : bool) :
  compared op (assertFloat k a) (assertFloat k b) = Some r ->
  exists f g, a = floatOperand k f /\ b = floatOperand k g /\ op f g = r.
Proof.
  intros (x & y & Hx & Hy & Hr)%compared_Some.
  apply assertFloat_Some in Hx. apply assertFloat_Some in Hy. by exists x, y.
Qed.

Lemma compareLessThan_inv (a b : Operand) :
  compareLessThan a b = Some true ->
  (exists k x y, isIntKind k = true /\
     a = intOperand k x /\ b = intOperand k y /\ (x <? y) = true) \/
  (exists k f g, isFloatKind k = true /\
     a = floatOperand k f /\ b = floatOperand k g /\ SFltb f g = true).
Proof.
  destruct a as [|t d], b as [|u e]; try discriminate.
  rewrite compareLessThan_switch. cbv zeta.
  destruct (negb (reflect.Type_eqb t u)); [discriminate |].
  destruct (isIntKind (reflect.Kind_of t)) eqn:Hi.
  - intros (x & y & Hx & Hy & Hr)%compared_int_inv. left. by exists (reflect.Kind_of t), x, y.
  - destruct (isFloatKind (reflect.Kind_of t)) eqn:Hf; [| discriminate].
    intros (x & y & Hx & Hy & Hr)%compared_float_inv. right.
    by exists (reflect.Kind_of t), x, y.
Qed.

Lemma compareLessEqualThan_inv (a b : Operand) :
  compareLessEqualThan a b = Some true ->
  (exists k x y, isIntKind k = true /\
     a = intOperand k x /\ b = intOperand k y /\ (x <=? y) = true) \/
  (exists k f g, isFloatKind k = true /\
     a = floatOperand k f /\ b = floatOperand k g /\ SFleb f g = true).
Proof.
  destruct a as [|t d], b as [|u e]; try discriminate.
  rewrite compareLessEqualThan_switch. cbv zeta.
  destruct (negb (reflect.Type_eqb t u)); [discriminate |].
  destruct (isIntKind (reflect.Kind_of t)) eqn:Hi.
  - intros (x & y & Hx & Hy & Hr)%compared_int_inv. left. by exists (reflect.Kind_of t), x, y.
  - destruct (isFloatKind (reflect.Kind_of t)) eqn:Hf; [| discriminate].
    intros (x & y & Hx & Hy & Hr)%compared_float_inv. right.
    by exists (reflect.Kind_of t), x, y.
Qed.

(** X19. [compareLessThan] and [compareLessEqualThan] answer true
    exactly for two operands of one of the twelve types int, int8,
    int16, int32, int64, uint, uint8, uint16, uint32, uint64, float32
    and float64 that are in that order. A nil operand, operands of two
    types, and operands of any other kind never compare: the helpers
    answer false for two values of a kind without a case, uintptr and
    the complex types included. *)
Theorem compareLess_true (a b : Operand) :
  (compareLessThan a b = Some true <->
     (exists k x y, isIntKind k = true /\
        a = intOperand k x /\ b = intOperand k y /\ x < y) \/
     (exists k f g, isFloatKind k = true /\
        a = floatOperand k f /\ b = floatOperand k g /\ SFltb f g = true)) /\
  (compareLessEqualThan a b = Some true <->
     (exists k x y, isIntKind k = true /\
        a = intOperand k x /\ b = intOperand k y /\ x <= y) \/
     (exists k f g, isFloatKind k = true /\
        a = floatOperand k f /\ b = floatOperand k g /\ SFleb f g = true)) /\
  (forall k,
     (isIntKind k = true <->
        k = reflect.Int \/ k = reflect.Int8 \/ k = reflect.Int16
        \/ k = reflect.Int32 \/ k = reflect.Int64 \/ k = reflect.Uint
        \/ k = reflect.Uint8 \/ k = reflect.Uint16 \/ k = reflect.Uint32
        \/ k = reflect.Uint64) /\
     (isFloatKind k = true <-> k = reflect.Float32 \/ k = reflect.Float64)) /\
  (a = ONil \/ b = ONil ->
     compareLessThan a b = Some false /\ compareLessEqualThan a b = Some false) /\
  (forall t d u e, a = OVal t d -> b = OVal u e ->
     (t <> u ->
        compareLessThan a b = Some false /\
        compareLessEqualThan a b = Some false) /\
     (isIntKind (reflect.Kind_of t) = false ->
      isFloatKind (reflect.Kind_of t) = false ->
        compareLessThan a b = Some false /\
        compareLessEqualThan a b = Some false)).
Proof.
  split; [| split; [| split; [| split]]];
    [split | split | intros k; split; [apply isIntKind_cases | apply isFloatKind_cases]
    | intros [-> | ->]; [split; reflexivity | destruct a; split; reflexivity]
    | intros t d u e -> ->;
      rewrite compareLessThan_switch, compareLessEqualThan_switch; cbv zeta;
      split;
      [ intros Hne%Type_eqb_false; rewrite Hne; split; reflexivity
      | intros -> ->; destruct (negb _); split; reflexivity ] ].
  - intros [(k & x & y & Hk & -> & -> & Hr%Z.ltb_lt) | Hfloat]%compareLessThan_inv;
      [left; by exists k, x, y | by right].
  - intros [(k & x & y & Hk & -> & -> & Hr%Z.ltb_lt) | (k & f & g & Hk & -> & -> & Hr)].
    + by rewrite compareLessThan_int, Hr.
    + by rewrite compareLessThan_float, Hr.
  - intros [(k & x & y & Hk & -> & -> & Hr%Z.leb_le) | Hfloat]%compareLessEqualThan_inv;
      [left; by exists k, x, y | by right].
  - intros [(k & x & y & Hk & -> & -> & Hr%Z.leb_le) | (k & f & g & Hk & -> & -> & Hr)].
    + by rewrite compareLessEqualThan_int, Hr.
    + by rewrite compareLessEqualThan_float, Hr.
Qed.

(** X20. When [compareLessThan a b] is true, [compareLessEqualThan a b]
    is true as well, both are false of [b] and [a], and the two
    operands differ: the order is strict and asymmetric. *)
Theorem compareLess_order (a b : Operand) :
  compareLessThan a b = Some true ->
  compareLessEqualThan a b = Some true /\
  compareLessThan b a = Some false /\
  compareLessEqualThan b a = Some false /\
  a <> b.
Proof.
  intros [(k & x & y & Hk & -> & -> & Hr%Z.ltb_lt)
         | (k & f & g & Hk & -> & -> & Hr)]%compareLessThan_inv.
  - rewrite !compareLessEqualThan_int, compareLessThan_int by exact Hk.
    assert ((x <=? y) = true) as -> by (apply Z.leb_le; lia).
    assert ((y <? x) = false) as -> by (apply Z.ltb_ge; lia).
    assert ((y <=? x) = false) as -> by (apply Z.leb_gt; lia).
    repeat split. unfold intOperand. intros E. injection E as E. lia.
  - rewrite !compareLessEqualThan_float, compareLessThan_float by exact Hk.
    unfold SFltb, SFleb in *. rewrite (SFcompare_antisym f g).
    destruct (SFcompare f g) as [[| |]|] eqn:Hc; try discriminate.
    repeat split. unfold floatOperand. intros E. injection E as E. subst g.
    pose proof (SFcompare_antisym f f) as Ha. rewrite Hc in Ha. discriminate.
Qed.
Lemma wellTyped_int (t : reflect.Type_) (d : Data) :
  isIntKind (reflect.Kind_of t) = true -> wellTyped (OVal t d) = true ->
  exists x, d = DInt x.
Proof.
  intros Hk. destruct d as [b | x | f |]; cbn [wellTyped]; [| by exists x | |];
    destruct (reflect.Kind_of t); discriminate.
Qed.

Lemma wellTyped_float (t : reflect.Type_) (d : Data) :
  isFloatKind (reflect.Kind_of t) = true -> wellTyped (OVal t d) = true ->
  exists f, d = DFloat f.
Proof.
  intros Hk. destruct d as [b | x | f |]; cbn [wellTyped]; [| | by exists f |];
    destruct (reflect.Kind_of t); discriminate.
Qed.

Lemma wellTyped_bool (t : reflect.Type_) (d : Data) :
  reflect.Kind_eqb (reflect.Kind_of t) reflect.Bool = true ->
  wellTyped (OVal t d) = true ->
  exists b, d = DBool b.
Proof.
  intros Hk. destruct d as [b | x | f |]; cbn [wellTyped]; [by exists b | | |];
    destruct (reflect.Kind_of t); discriminate.
Qed.

(** A well-typed operand of a numeric or bool kind fails the assertion
    of its kind exactly when its type is not the predeclared one. *)
Lemma assertInt_None (k : reflect.Kind) (t : reflect.Type_) (d : Data) :
  reflect.Kind_of t = k -> isIntKind k = true -> wellTyped (OVal t d) = true ->
  (assertInt k (OVal t d) = None <-> t <> reflect.predeclared k).
Proof.
  intros <- Hk [x ->]%wellTyped_int; [| exact Hk]. cbn [assertInt].
  rewrite <- Type_eqb_false.
  by destruct (reflect.Type_eqb t (reflect.predeclared (reflect.Kind_of t))).
Qed.

Lemma assertFloat_None (k : reflect.Kind) (t : reflect.Type_) (d : Data) :
  reflect.Kind_of t = k -> isFloatKind k = true -> wellTyped (OVal t d) = true ->
  (assertFloat k (OVal t d) = None <-> t <> reflect.predeclared k).
Proof.
  intros <- Hk [x ->]%wellTyped_float; [| exact Hk]. cbn [assertFloat].
  rewrite <- Type_eqb_false.
  by destruct (reflect.Type_eqb t (reflect.predeclared (reflect.Kind_of t))).
Qed.

Lemma assertBool_None (t : reflect.Type_) (d : Data) :
  reflect.Kind_of t = reflect.Bool -> wellTyped (OVal t d) = true ->
  (assertBool (OVal t d) = None <-> t <> reflect.predeclared reflect.Bool).
Proof.
  intros Hk [x ->]%wellTyped_bool; [| by rewrite Hk]. cbn [assertBool].
  rewrite <- Type_eqb_false.
  by destruct (reflect.Type_eqb t (reflect.predeclared reflect.Bool)).
Qed.

Lemma answer_None (r : option bool) :
  match r with
  | Some v => Some (ValBool v, @None string)
  | None => None
  end = None <-> r = None.
Proof. by destruct r. Qed.

(** X21. [compareGreaterThan] never returns an error in [err]: with a
    nil operand the error is the value [val], with operands of two
    kinds [val] is the string "invalid operation (k) > (k')", and with
    one kind it is a bool (false for a kind that is not numeric) unless
    an assertion panics. It prints the kind of the left operand unless
    an operand is nil. *)
Theorem compareGreaterThan_outcomes (a b : Operand) :
  (forall out v err, compareGreaterThan a b = (out, Some (v, err)) -> err = None) /\
  (a = ONil \/ b = ONil ->
     compareGreaterThan a b = ([], Some (ValError "invalid operation", None))) /\
  (forall t d u e, a = OVal t d -> b = OVal u e ->
     fst (compareGreaterThan a b) = [reflect.Kind_String (reflect.Kind_of t)] /\
     (reflect.Kind_of t <> reflect.Kind_of u ->
        snd (compareGreaterThan a b)
        = Some (ValString ("invalid operation ("
                           +:+ reflect.Kind_String (reflect.Kind_of t)
                           +:+ ") > ("
                           +:+ reflect.Kind_String (reflect.Kind_of u) +:+ ")"),
                None)) /\
     (reflect.Kind_of t = reflect.Kind_of u ->
        snd (compareGreaterThan a b) = None \/
        exists r, snd (compareGreaterThan a b) = Some (ValBool r, None)) /\
     (reflect.Kind_of t = reflect.Kind_of u ->
      isNumericKind (reflect.Kind_of t) = false ->
        snd (compareGreaterThan a b) = Some (ValBool false, None))).
Proof.
  split; [| split].
  - destruct a as [|t d], b as [|u e]; try (intros out v err [= _ _ <-]; reflexivity).
    rewrite compareGreaterThan_switch. cbv zeta. intros out v err [= _ Hval].
    destruct (negb _); [by injection Hval |].
    destruct (isIntKind _); [destruct (compared _ _ _); by try injection Hval |].
    destruct (isFloatKind _); [destruct (compared _ _ _); by try injection Hval |].
    by injection Hval.
  - intros [-> | ->]; [reflexivity | by destruct a].
  - intros t d u e -> ->. rewrite compareGreaterThan_switch. cbv zeta. cbn [fst snd].
    split; [reflexivity |]. split; [| split].
    + intros Hne. destruct (reflect.Kind_eqb _ _) eqn:E; [| reflexivity].
      by apply Kind_eqb_eq in E.
    + intros <-. rewrite Kind_eqb_refl. cbn [negb].
      destruct (isIntKind _); [destruct (compared _ _ _); eauto |].
      destruct (isFloatKind _); [destruct (compared _ _ _); eauto |].
      eauto.
    + intros <-. rewrite Kind_eqb_refl. cbn [negb]. unfold isNumericKind.
      intros [-> ->]%orb_false_iff. reflexivity.
Qed.

(** X22. The type assertions of the helpers name the predeclared types,
    so an operand of a defined type whose kind has a case in the switch
    (a [time.Duration], of kind int64) makes them panic. The kinds with
    a case are int, int8, int16, int32, int64, uint, uint8, uint16,
    uint32, uint64, float32 and float64, and for [>=] also bool;
    uintptr and the complex kinds have none, so values of those kinds
    never panic. On well-typed operands the two Less helpers panic
    exactly on two operands of one defined type of such a kind, the two
    Greater helpers exactly on two operands of one such kind of which
    one has a defined type. *)
Theorem compare_panics (t u : reflect.Type_) (d e : Data) :
  wellTyped (OVal t d) = true -> wellTyped (OVal u e) = true ->
  (compareLessThan (OVal t d) (OVal u e) = None <->
     t = u /\ isNumericKind (reflect.Kind_of t) = true /\
     t <> reflect.predeclared (reflect.Kind_of t)) /\
  (compareLessEqualThan (OVal t d) (OVal u e) = None <->
     t = u /\ isNumericKind (reflect.Kind_of t) = true /\
     t <> reflect.predeclared (reflect.Kind_of t)) /\
  (snd (compareGreaterThan (OVal t d) (OVal u e)) = None <->
     reflect.Kind_of t = reflect.Kind_of u /\
     isNumericKind (reflect.Kind_of t) = true /\
     (t <> reflect.predeclared (reflect.Kind_of t)
      \/ u <> reflect.predeclared (reflect.Kind_of u))) /\
  (compareGreaterEqualThan (OVal t d) (OVal u e) = None <->
     reflect.Kind_of t = reflect.Kind_of u /\
     (isNumericKind (reflect.Kind_of t) = true
      \/ reflect.Kind_of t = reflect.Bool) /\
     (t <> reflect.predeclared (reflect.Kind_of t)
      \/ u <> reflect.predeclared (reflect.Kind_of u))) /\
  (forall k,
     isNumericKind k = true <->
     k = reflect.Int \/ k = reflect.Int8 \/ k = reflect.Int16
     \/ k = reflect.Int32 \/ k = reflect.Int64 \/ k = reflect.Uint
     \/ k = reflect.Uint8 \/ k = reflect.Uint16 \/ k = reflect.Uint32
     \/ k = reflect.Uint64 \/ k = reflect.Float32 \/ k = reflect.Float64).
Proof.
  intros Ht Hu. unfold isNumericKind.
  rewrite compareLessThan_switch, compareLessEqualThan_switch,
    compareGreaterThan_switch, compareGreaterEqualThan_switch.
  cbv zeta. cbn [snd].
  assert (forall k, reflect.Kind_of t = k -> isIntKind k = true ->
            assertInt k (OVal t d) = None <-> t <> reflect.predeclared k) as Hti
    by (intros k Hk Hi; by apply assertInt_None).
  assert (forall k, reflect.Kind_of u = k -> isIntKind k = true ->
            assertInt k (OVal u e) = None <-> u <> reflect.predeclared k) as Hui
    by (intros k Hk Hi; by apply assertInt_None).
  assert (forall k, reflect.Kind_of t = k -> isFloatKind k = true ->
            assertFloat k (OVal t d) = None <-> t <> reflect.predeclared k) as Htf
    by (intros k Hk Hi; by apply assertFloat_None).
  assert (forall k, reflect.Kind_of u = k -> isFloatKind k = true ->
            assertFloat k (OVal u e) = None <-> u <> reflect.predeclared k) as Huf
    by (intros k Hk Hi; by apply assertFloat_None).
  split; [| split; [| split; [| split]]].
  - destruct (reflect.Type_eqb t u) eqn:Etu; cbn [negb].
    + apply Type_eqb_eq in Etu as <-.
      destruct (isIntKind (reflect.Kind_of t)) eqn:Hi; cbn [orb].
      * rewrite compared_None, (Hti _ eq_refl Hi), (Hui _ eq_refl Hi). intuition auto.
      * destruct (isFloatKind (reflect.Kind_of t)) eqn:Hf.
        -- rewrite compared_None, (Htf _ eq_refl Hf), (Huf _ eq_refl Hf). intuition auto.
        -- split; [discriminate | intros (_ & [=] & _)].
    + apply Type_eqb_false in Etu. split; [discriminate | tauto].
  - destruct (reflect.Type_eqb t u) eqn:Etu; cbn [negb].
    + apply Type_eqb_eq in Etu as <-.
      destruct (isIntKind (reflect.Kind_of t)) eqn:Hi; cbn [orb].
      * rewrite compared_None, (Hti _ eq_refl Hi), (Hui _ eq_refl Hi). intuition auto.
      * destruct (isFloatKind (reflect.Kind_of t)) eqn:Hf.
        -- rewrite compared_None, (Htf _ eq_refl Hf), (Huf _ eq_refl Hf). intuition auto.
        -- split; [discriminate | intros (_ & [=] & _)].
    + apply Type_eqb_false in Etu. split; [discriminate | tauto].
  - destruct (reflect.Kind_eqb (reflect.Kind_of t) (reflect.Kind_of u)) eqn:Ek;
      cbn [negb].
    + apply Kind_eqb_eq in Ek.
      destruct (isIntKind (reflect.Kind_of t)) eqn:Hi; cbn [orb].
      * rewrite answer_None, compared_None, (Hti _ eq_refl Hi),
          (Hui _ (eq_sym Ek) Hi), <- Ek. intuition auto.
      * destruct (isFloatKind (reflect.Kind_of t)) eqn:Hf.
        -- rewrite answer_None, compared_None, (Htf _ eq_refl Hf),
             (Huf _ (eq_sym Ek) Hf), <- Ek. intuition auto.
        -- split; [discriminate | intros (_ & [=] & _)].
    + split; [discriminate |]. intros (E & _). apply Kind_eqb_eq in E. congruence.
  - destruct (reflect.Kind_eqb (reflect.Kind_of t) (reflect.Kind_of u)) eqn:Ek;
      cbn [negb].
    + apply Kind_eqb_eq in Ek.
      destruct (reflect.Kind_eqb (reflect.Kind_of t) reflect.Bool) eqn:Eb.
      * apply Kind_eqb_eq in Eb.
        rewrite answer_None, compared_None,
          (assertBool_None t d Eb Ht), (assertBool_None u e ltac:(congruence) Hu).
        rewrite <- Ek, Eb. intuition auto.
      * assert (reflect.Kind_of t <> reflect.Bool) as Hnb
          by (intros E; apply Kind_eqb_eq in E; congruence).
        destruct (isIntKind (reflect.Kind_of t)) eqn:Hi; cbn [orb].
        -- rewrite answer_None, compared_None, (Hti _ eq_refl Hi),
             (Hui _ (eq_sym Ek) Hi), <- Ek. intuition auto.
        -- destruct (isFloatKind (reflect.Kind_of t)) eqn:Hf.
           ++ rewrite answer_None, compared_None, (Htf _ eq_refl Hf),
                (Huf _ (eq_sym Ek) Hf), <- Ek. intuition auto.
           ++ split; [discriminate | intros (_ & [[=] | E] & _); contradiction].
    + split; [discriminate |]. intros (E & _). apply Kind_eqb_eq in E. congruence.
  - intros k. apply isNumericKind_cases.
Qed.

Lemma compareGreaterEqualThan_bool (x y : bool) :
  compareGreaterEqualThan (OVal (reflect.predeclared reflect.Bool) (DBool x))
    (OVal (reflect.predeclared reflect.Bool) (DBool y))
  = Some (ValBool (Bool.eqb x y), None).
Proof. reflexivity. Qed.

(** X23. The Greater helpers and the Less helpers agree where they
    answer true: [compareGreaterThan a b] is true exactly when
    [compareLessThan b a] is, and [compareGreaterEqualThan a b] exactly
    when [compareLessEqualThan b a] is or the operands are two equal
    bools, which [>=] compares by equality and [<=] does not
    compare. *)
Theorem compareGreater_agrees (a b : Operand) :
  (snd (compareGreaterThan a b) = Some (ValBool true, None)
   <-> compareLessThan b a = Some true) /\
  (compareGreaterEqualThan a b = Some (ValBool true, None)
   <-> compareLessEqualThan b a = Some true
       \/ exists x, a = OVal (reflect.predeclared reflect.Bool) (DBool x) /\
                    b = OVal (reflect.predeclared reflect.Bool) (DBool x)) /\
  (forall x y,
     compareGreaterEqualThan (OVal (reflect.predeclared reflect.Bool) (DBool x))
       (OVal (reflect.predeclared reflect.Bool) (DBool y))
     = Some (ValBool (Bool.eqb x y), None) /\
     compareLessEqualThan (OVal (reflect.predeclared reflect.Bool) (DBool y))
       (OVal (reflect.predeclared reflect.Bool) (DBool x))
     = Some false).
Proof.
  assert (forall r : option bool,
            match r with
            | Some v => Some (ValBool v, @None string)
            | None => None
            end = Some (ValBool true, None) -> r = Some true) as Hanswer
    by (intros [[|]|]; (reflexivity || discriminate)).
  split; [| split].
  - split.
    + destruct a as [|t d], b as [|u e]; try discriminate.
      rewrite compareGreaterThan_switch. cbv zeta. cbn [snd].
      destruct (negb _); [discriminate |].
      destruct (isIntKind (reflect.Kind_of t)) eqn:Hi.
      * intros (x & y & -> & -> & Hr)%Hanswer%compared_int_inv.
        rewrite compareLessThan_int by exact Hi. by rewrite <- Z.gtb_ltb, Hr.
      * destruct (isFloatKind (reflect.Kind_of t)) eqn:Hf; [| discriminate].
        intros (x & y & -> & -> & Hr)%Hanswer%compared_float_inv.
        rewrite compareLessThan_float by exact Hf. by rewrite Hr.
    + intros [(k & y & x & Hk & -> & -> & Hr)
             | (k & g & f & Hk & -> & -> & Hr)]%compareLessThan_inv.
      * rewrite compareGreaterThan_int by exact Hk. cbn [snd]. by rewrite Hr.
      * rewrite compareGreaterThan_float by exact Hk. cbn [snd]. by rewrite Hr.
  - split.
    + destruct a as [|t d], b as [|u e]; try discriminate.
      rewrite compareGreaterEqualThan_switch. cbv zeta.
      destruct (negb _); [discriminate |].
      destruct (reflect.Kind_eqb (reflect.Kind_of t) reflect.Bool) eqn:Eb.
      { intros (x & y & Hx & Hy & Hr)%Hanswer%compared_Some.
        apply assertBool_Some in Hx. apply assertBool_Some in Hy.
        apply Bool.eqb_prop in Hr. subst y. right. by exists x. }
      destruct (isIntKind (reflect.Kind_of t)) eqn:Hi.
      * intros (x & y & -> & -> & Hr)%Hanswer%compared_int_inv. left.
        rewrite compareLessEqualThan_int by exact Hi. by rewrite <- Z.geb_leb, Hr.
      * destruct (isFloatKind (reflect.Kind_of t)) eqn:Hf; [| discriminate].
        intros (x & y & -> & -> & Hr)%Hanswer%compared_float_inv. left.
        rewrite compareLessEqualThan_float by exact Hf. by rewrite Hr.
    + intros [[(k & y & x & Hk & -> & -> & Hr)
              | (k & g & f & Hk & -> & -> & Hr)]%compareLessEqualThan_inv
             | (x & -> & ->)].
      * rewrite compareGreaterEqualThan_int by exact Hk. by rewrite Hr.
      * rewrite compareGreaterEqualThan_float by exact Hk. by rewrite Hr.
      * rewrite compareGreaterEqualThan_bool. by rewrite Bool.eqb_reflx.
  - intros x y. split; reflexivity.
Qed.

(** X24. [compareGreaterEqualThan] never returns an error in [err]
    either: with a nil operand or operands of two kinds the error
    "invalid operation" is the value [val]; with two operands of one
    kind that has no case in the switch (two strings, but also two
    uintptr or two complex values) [val] stays nil; with two operands
    of one kind that has a case (bool, int, int8, int16, int32, int64,
    uint, uint8, uint16, uint32, uint64, float32, float64) [val] is a
    bool unless an assertion panics. *)
Theorem compareGreaterEqualThan_outcomes (a b : Operand) :
  (forall v err, compareGreaterEqualThan a b = Some (v, err) -> err = None) /\
  (a = ONil \/ b = ONil ->
     compareGreaterEqualThan a b = Some (ValError "invalid operation", None)) /\
  (forall t d u e, a = OVal t d -> b = OVal u e ->
     (reflect.Kind_of t <> reflect.Kind_of u ->
        compareGreaterEqualThan a b = Some (ValError "invalid operation", None)) /\
     (reflect.Kind_of t = reflect.Kind_of u ->
      reflect.Kind_of t <> reflect.Bool ->
      isNumericKind (reflect.Kind_of t) = false ->
        compareGreaterEqualThan a b = Some (ValNil, None)) /\
     (reflect.Kind_of t = reflect.Kind_of u ->
      reflect.Kind_of t = reflect.Bool \/ isNumericKind (reflect.Kind_of t) = true ->
        compareGreaterEqualThan a b = None \/
        exists r, compareGreaterEqualThan a b = Some (ValBool r, None))) /\
  (forall k,
     isNumericKind k = true <->
     k = reflect.Int \/ k = reflect.Int8 \/ k = reflect.Int16
     \/ k = reflect.Int32 \/ k = reflect.Int64 \/ k = reflect.Uint
     \/ k = reflect.Uint8 \/ k = reflect.Uint16 \/ k = reflect.Uint32
     \/ k = reflect.Uint64 \/ k = reflect.Float32 \/ k = reflect.Float64) /\
  (forall x y : Z,
     compareGreaterEqualThan (intOperand reflect.Uintptr x) (intOperand reflect.Uintptr y)
     = Some (ValNil, None)).
Proof.
  split; [| split; [| split; [| split; [apply isNumericKind_cases | reflexivity]]]].
  - destruct a as [|t d], b as [|u e]; try (intros v err [= _ <-]; reflexivity).
    rewrite compareGreaterEqualThan_switch. cbv zeta. intros v err Hval.
    destruct (negb _); [by injection Hval |].
    destruct (reflect.Kind_eqb _ reflect.Bool);
      [destruct (compared _ _ _); by try injection Hval |].
    destruct (isIntKind _); [destruct (compared _ _ _); by try injection Hval |].
    destruct (isFloatKind _); [destruct (compared _ _ _); by try injection Hval |].
    by injection Hval.
  - intros [-> | ->]; [reflexivity | by destruct a].
  - intros t d u e -> ->. rewrite compareGreaterEqualThan_switch. cbv zeta.
    split; [| split].
    + intros Hne. destruct (reflect.Kind_eqb _ _) eqn:E; [| reflexivity].
      by apply Kind_eqb_eq in E.
    + intros <- Hnb. rewrite Kind_eqb_refl. cbn [negb]. unfold isNumericKind.
      intros [-> ->]%orb_false_iff.
      destruct (reflect.Kind_eqb _ reflect.Bool) eqn:E; [| reflexivity].
      by apply Kind_eqb_eq in E.
    + intros <- Hkind. rewrite Kind_eqb_refl. cbn [negb].
      destruct (reflect.Kind_eqb _ reflect.Bool) eqn:Eb;
        [destruct (compared _ _ _); eauto |].
      unfold isNumericKind in Hkind.
      destruct (isIntKind _); [destruct (compared _ _ _); eauto |].
      destruct (isFloatKind _); [destruct (compared _ _ _); eauto |].
      destruct Hkind as [Hb | [=]]. apply Kind_eqb_eq in Hb. congruence.
Qed.
(** ** Instances *)
Module MoreExamples.
Import ExampleHost.

(** ["2021-06-15"] is a date: the seventh layout reads it. *)
Lemma date_sound_witness :
  full_date (H := host) [VStr "2021-06-15"]
  = inr (VTime (mkTime 1623715200000000000 "Local")) /\
  exists s i layout t,
    [VStr "2021-06-15"] = [VStr s] /\
    VTime (mkTime 1623715200000000000 "Local") = VTime t /\
    dateFormats !! i = Some layout /\
    parseInLocation layout s = Some t /\
    forall j earlier, (j < i)%nat -> dateFormats !! j = Some earlier ->
      parseInLocation earlier s = None.
Proof.
  split; [reflexivity |].
  exact (date_sound (H := host) [VStr "2021-06-15"]
           (VTime (mkTime 1623715200000000000 "Local")) eq_refl).
Defined.

(** [1 | 2] is no expression of Bitmask alone. *)
Lemma Bitmask_parses_no_literal_witness :
  tokenize "1 | 2"
  = inr [ mkToken scanner.Int "1"; mkToken (rune "|") "|";
          mkToken scanner.Int "2"; mkToken scanner.EOF EmptyString ] /\
  parseExpression (H := host) 4 Bitmask 0
    [ mkToken scanner.Int "1"; mkToken (rune "|") "|";
      mkToken scanner.Int "2"; mkToken scanner.EOF EmptyString ]
  = inl (expected "an expression").
Proof.
  split; [reflexivity |].
  apply (Bitmask_parses_no_literal (H := host)); [reflexivity | discriminate].
Defined.

(** [6 ^ 3 = 5], [6 & 3 = 2], [6 | 3 = 7], [~6 = -7]. *)
Lemma bitmask_on_integers_witness :
  bitmask_xor (H := host) (F64.of_Z 6) (F64.of_Z 3) = inr (VNum (F64.of_Z 5)) /\
  bitmask_and (H := host) (F64.of_Z 6) (F64.of_Z 3) = inr (VNum (F64.of_Z 2)) /\
  bitmask_or (H := host) (F64.of_Z 6) (F64.of_Z 3) = inr (VNum (F64.of_Z 7)) /\
  bitmask_not (H := host) tt (VNum (F64.of_Z 6)) = inr (VNum (F64.of_Z (-7))).
Proof.
  destruct (bitmask_on_integers (H := host) tt 6 3 ltac:(lia) ltac:(lia))
    as (Hxor & Hand & Hor & Hnot & _).
  exact (conj Hxor (conj Hand (conj Hor Hnot))).
Defined.

(** [(6 ^ 3) ^ 3 = 6] and [~~6 = 6]. *)
Lemma bitmask_round_trips_witness :
  (exists z, bitmask_xor (H := host) (F64.of_Z 6) (F64.of_Z 3) = inr (VNum z) /\
             bitmask_xor (H := host) z (F64.of_Z 3) = inr (VNum (F64.of_Z 6))) /\
  (exists z, bitmask_not (H := host) tt (VNum (F64.of_Z 6)) = inr (VNum z) /\
             bitmask_not (H := host) tt (VNum z) = inr (VNum (F64.of_Z 6))).
Proof.
  destruct (bitmask_round_trips (H := host) tt 6 3 ltac:(lia) ltac:(lia))
    as (Hxor & Hnot & _).
  exact (conj Hxor Hnot).
Defined.

(** [3 << 4 = 48], [48 >> 4 = 3], [-7 >> 1 = -4], and a shift by 64
    empties the operand. *)
Lemma bitmask_shifts_witness :
  bitmask_shl (H := host) (F64.of_Z 3) (F64.of_Z 4) = inr (VNum (F64.of_Z 48)) /\
  bitmask_shr (H := host) (F64.of_Z 48) (F64.of_Z 4) = inr (VNum (F64.of_Z 3)) /\
  bitmask_shr (H := host) (F64.of_Z (-7)) (F64.of_Z 1) = inr (VNum (F64.of_Z (-4))) /\
  bitmask_shl (H := host) (F64.of_Z 3) (F64.of_Z 64) = inr (VNum (F64.of_Z 0)).
Proof.
  destruct (bitmask_shifts (H := host) (F64.of_Z 3) 3 4 ltac:(lia) ltac:(lia))
    as (Hfit & _ & _).
  destruct (Hfit ltac:(lia)) as (Hshl & Hshr).
  destruct (bitmask_shifts (H := host) (F64.of_Z 3) (-7) 1 ltac:(lia) ltac:(lia))
    as (_ & Hdiv & _).
  destruct (bitmask_shifts (H := host) (F64.of_Z 3) 3 64 ltac:(lia) ltac:(lia))
    as (_ & _ & Hbig).
  destruct (Hbig ltac:(lia)) as (Hzero & _).
  exact (conj Hshl (conj Hshr (conj Hdiv Hzero))).
Defined.

(** The ints 1 and 2. *)
Lemma compareLess_order_witness :
  compareLessThan (intOperand reflect.Int 1) (intOperand reflect.Int 2) = Some true /\
  compareLessEqualThan (intOperand reflect.Int 1) (intOperand reflect.Int 2) = Some true /\
  compareLessThan (intOperand reflect.Int 2) (intOperand reflect.Int 1) = Some false /\
  compareLessEqualThan (intOperand reflect.Int 2) (intOperand reflect.Int 1) = Some false /\
  intOperand reflect.Int 1 <> intOperand reflect.Int 2.
Proof.
  split; [reflexivity |].
  exact (compareLess_order (intOperand reflect.Int 1) (intOperand reflect.Int 2) eq_refl).
Defined.

(** Two durations make every helper panic; a duration and an int64 make
    the Greater helpers panic and the Less helpers answer false. *)
Lemma compare_panics_witness :
  compareLessThan (OVal time_Duration (DInt 5)) (OVal time_Duration (DInt 7)) = None /\
  snd (compareGreaterThan (OVal time_Duration (DInt 5)) (OVal time_Duration (DInt 7)))
  = None /\
  snd (compareGreaterThan (OVal time_Duration (DInt 5)) (intOperand reflect.Int64 7))
  = None /\
  compareLessThan (OVal time_Duration (DInt 5)) (intOperand reflect.Int64 7)
  = Some false.
Proof.
  destruct (compare_panics time_Duration time_Duration (DInt 5) (DInt 7)
              eq_refl eq_refl) as (Hlt & _ & Hgt & _).
  destruct (compare_panics time_Duration (reflect.predeclared reflect.Int64)
              (DInt 5) (DInt 7) eq_refl eq_refl) as (_ & _ & Hgt' & _).
  split; [| split; [| split]].
  - apply Hlt. split; [reflexivity |]. split; [reflexivity | discriminate].
  - apply Hgt. split; [reflexivity |]. split; [reflexivity |]. left. discriminate.
  - apply Hgt'. split; [reflexivity |]. split; [reflexivity |]. left. discriminate.
  - reflexivity.
Defined.

End MoreExamples.
